(** * Round scheduling structures of elixxir/comms, network/dataStructures

    A shallow embedding of [waitingRounds.go] (the queue of QUEUED rounds,
    ordered by the time at which they enter realtime) and of
    [roundEvents.go] (the registry of per-round, per-state callbacks),
    with the properties of both that the specification states; and of the
    circuit of package connect, of [ndf.go] and of the back-off of
    [host.go], with properties read off the code.

    Conventions.
    - [uint64] and [uint32] values are [N]; the code only compares them, so
      no wrap-around arises.
    - A [*pb.RoundInfo] is modelled by the value it points to; the code
      never writes through such a pointer and never receives [nil] in the
      runs considered.
    - A Go run-time panic (index out of range) and a send that blocks for
      ever are results of their own, see [result]. *)

From Stdlib Require Import NArith ZArith Lia String.
From stdpp Require Import base option list sorting gmap sets.

Local Open Scope N_scope.

(** ** Results of operations that can panic or block *)

Inductive result (A : Type) : Type :=
  | Ok (a : A)
  | Panic
  | Blocked.
Arguments Ok {A} a.
Arguments Panic {A}.
Arguments Blocked {A}.

(** Sequencing: the first panic or block ends the operation. It is written
    [x ← m; k] below. *)
#[global] Instance result_bind : MBind result := fun A B k m =>
  match m with
  | Ok a => k a
  | Panic => Panic
  | Blocked => Blocked
  end.

(** [xs[i]] on a Go slice or array: panics out of range. *)
Definition index {A} (xs : list A) (i : nat) : result A :=
  match xs !! i with
  | Some x => Ok x
  | None => Panic
  end.

(** ** pb.RoundInfo

    Modelled from the spec: the declaration of [pb.RoundInfo], in the
    package mixmessages, is not among the sources. The Round of the spec
    has an id, a lifecycle state and timestamps per stage; they are the
    fields [ID], [State] and [Timestamps] that the two structures read. *)

Record RoundInfo : Type := mkRoundInfo {
  ID : N;                 (* uint64 *)
  State : N;              (* uint32 *)
  Timestamps : list N     (* []uint64, indexed by current.Activity *)
}.

#[global] Instance RoundInfo_eq_dec : EqDecision RoundInfo.
Proof. solve_decision. Defined.

(** ** Constants of gitlab.com/elixxir/primitives

    The packages [states] and [current] are imported by this repository,
    not part of it. The development is parametric in the three constants
    it reads; [xx_primitives] below gives the values used in examples. *)

Class Primitives : Type := {
  QUEUED : N;          (* uint32(states.QUEUED) *)
  REALTIME : nat;      (* current.REALTIME, an index into Timestamps *)
  NUM_STATES : nat     (* states.NUM_STATES, the length of the state array *)
}.

(** * WaitingRounds *)

Module WaitingRounds.

Section Queue.

Context `{Primitives}.

(** The [container/list] of round infos, written front to back. The
    condition variable and the mutexes belong to the interleaving model
    further down. *)
Record WaitingRounds : Type := mkWaitingRounds {
  rounds : list RoundInfo
}.

Definition NewWaitingRounds : WaitingRounds := {| rounds := [] |}.

Definition Len (wr : WaitingRounds) : nat := length (rounds wr).

(** [round.Timestamps[current.REALTIME]] *)
Definition getTime (round : RoundInfo) : result N :=
  index (Timestamps round) REALTIME.

(** The loop of [Insert]. [back] is the list as the loop visits it:
    from [Back()] along [Prev()]; the result is in the same direction.
    [InsertAfter(newRound, e)] puts the new round behind [e], that is in
    front of it in this direction; leaving the loop leads to
    [PushFront]. *)
Fixpoint insertLoop (newRound : RoundInfo) (back : list RoundInfo)
  : result (list RoundInfo) :=
  match back with
  | [] => Ok [newRound]
  | e :: prev =>
      tn ← getTime newRound;
      te ← getTime e;
      if te <? tn then Ok (newRound :: e :: prev)
      else prev' ← insertLoop newRound prev; Ok (e :: prev')
  end.

(** The loop of [remove], in the same direction: the first element met
    with the round's ID is unlinked and the loop returns. *)
Fixpoint removeLoop (newRound : RoundInfo) (back : list RoundInfo)
  : list RoundInfo :=
  match back with
  | [] => []
  | e :: prev =>
      if ID e =? ID newRound then prev
      else e :: removeLoop newRound prev
  end.

Definition remove (wr : WaitingRounds) (newRound : RoundInfo) : WaitingRounds :=
  {| rounds := reverse (removeLoop newRound (reverse (rounds wr))) |}.

(** [Insert] without its broadcast, which [broadcasts] tells apart. *)
Definition Insert (wr : WaitingRounds) (newRound : RoundInfo)
  : result WaitingRounds :=
  if State newRound =? QUEUED then
    back ← insertLoop newRound (reverse (rounds wr));
    Ok {| rounds := reverse back |}
  else Ok (remove wr newRound).

(** Whether [Insert] reaches [wr.c.Broadcast()]. *)
Definition broadcasts (newRound : RoundInfo) : bool :=
  State newRound =? QUEUED.

Definition getFurthest (wr : WaitingRounds) : option RoundInfo :=
  last (rounds wr).

Definition GetSlice (wr : WaitingRounds) : list RoundInfo := rounds wr.

(** A sequence of [Insert] calls, one after the other. *)
Fixpoint InsertAll (wr : WaitingRounds) (rs : list RoundInfo)
  : result WaitingRounds :=
  match rs with
  | [] => Ok wr
  | r :: rs' => wr' ← Insert wr r; InsertAll wr' rs'
  end.

(** *** Predicates used in the statements *)

(** Both rounds carry a realtime timestamp and the first is not later. *)
Definition timeLe (a b : RoundInfo) : Prop :=
  exists ta tb, getTime a = Ok ta /\ getTime b = Ok tb /\ ta <= tb.

Definition timeLt (a b : RoundInfo) : Prop :=
  exists ta tb, getTime a = Ok ta /\ getTime b = Ok tb /\ ta < tb.

(** Entries in non-decreasing order of realtime timestamp, front to back. *)
Definition ascending (l : list RoundInfo) : Prop := StronglySorted timeLe l.

(** Every entry has a realtime timestamp. *)
Definition allTimed (l : list RoundInfo) : Prop :=
  Forall (fun e => exists t, getTime e = Ok t) l.

Definition ids (wr : WaitingRounds) : list N := ID <$> rounds wr.

(** Number of entries of the queue with a given round id. *)
Definition entriesFor (rid : N) (wr : WaitingRounds) : nat :=
  length (filter (fun r => ID r = rid) (rounds wr)).

(** No round is inserted as QUEUED while an entry with its id is in the
    queue. *)
Fixpoint noRequeue (wr : WaitingRounds) (rs : list RoundInfo) : Prop :=
  match rs with
  | [] => True
  | r :: rs' =>
      (State r = QUEUED -> ID r ∉ ids wr) /\
      match Insert wr r with
      | Ok wr' => noRequeue wr' rs'
      | _ => True
      end
  end.

End Queue.

(** ** GetUpcomingRealtime: one call and its environment

    A call runs beside the goroutine it starts, the run-time timer and the
    goroutines that call [Insert]. The state below holds what these share;
    [step] is one atomic action of one of them. Atomicity follows the
    locks of the source: [Insert] holds [wr.mux] from its first to its
    last statement, its broadcast included, and [getFurthest] holds the
    read lock; [wr.c.Wait()] enlists the goroutine while it holds
    [wr.c.L], which [Insert] takes around [Broadcast], so a broadcast
    comes wholly before or wholly after the enlisting and wakes only the
    goroutines enlisted by then. *)

Definition timeOutError : string :=
  "Timed out getting round furthest in the future.".

(** Where the calling goroutine stands. *)
Inductive callerPc : Type :=
  | AtCheck                  (* line 150, before the first getFurthest *)
  | AtSelect                 (* line 157, in the select *)
  | AtRecheck                (* line 161, sig received *)
  | Returned (round : option RoundInfo) (err : option string).

(** Where the goroutine started at line 141 stands. *)
Inductive waiterPc : Type :=
  | Spawned                  (* runnable, wr.c.L.Lock() not reached *)
  | Waiting                  (* enlisted and parked in wr.c.Wait() *)
  | Woken                    (* released by a Broadcast, sig not yet sent *)
  | Exited.                  (* sig <- struct{}{} done *)

(** The timer made at line 137 and its channel [timer.C]. *)
Inductive timerState : Type :=
  | Armed
  | Fired                    (* a value waits in timer.C *)
  | Drained.                 (* the value was received *)

Record call : Type := mkCall {
  queue : WaitingRounds;
  caller : callerPc;
  waiter : waiterPc;
  sig : bool;                (* the one slot of the channel sig is full *)
  timer : timerState;
  timeout : Z;               (* the argument, in nanoseconds *)
  clock : Z                  (* time since time.NewTimer *)
}.

Inductive label : Type :=
  | Tick (d : Z)             (* time passes *)
  | InsertBy (r : RoundInfo) (* another goroutine runs wr.Insert(r) *)
  | TimerFires               (* the run time sends on timer.C *)
  | WaiterWait               (* lines 142-143 up to parking *)
  | WaiterSend               (* lines 143-145 after the wake-up *)
  | CallerCheck              (* getFurthest and the test that follows *)
  | SelectTimer              (* case <-timer.C *)
  | SelectSig.               (* case <-sig *)

Section Call.

Context `{Primitives}.

(** Lines 137-146: the timer is started and the goroutine created. *)
Definition GetUpcomingRealtime (wr : WaitingRounds) (timeout : Z) : call :=
  {| queue := wr; caller := AtCheck; waiter := Spawned; sig := false;
     timer := Armed; timeout := timeout; clock := 0 |}.

(** [wr.c.Broadcast()] as the goroutine of the call sees it. *)
Definition Broadcast (w : waiterPc) : waiterPc :=
  match w with
  | Waiting => Woken
  | _ => w
  end.

(** Lines 150-153 and 161-164. *)
Definition checkFurthest (wr : WaitingRounds) : callerPc :=
  match getFurthest wr with
  | Some round => Returned (Some round) None
  | None => AtSelect
  end.

Definition isChecking (pc : callerPc) : bool :=
  match pc with
  | AtCheck | AtRecheck => true
  | _ => false
  end.

(** One action; [None] when the action cannot take place in this state.
    An [Insert] that panics ends the program and has no successor. *)
Definition step (c : call) (l : label) : option call :=
  match l with
  | Tick d =>
      if bool_decide (0 <= d)%Z
      then Some (mkCall (queue c) (caller c) (waiter c) (sig c) (timer c)
                        (timeout c) (clock c + d))
      else None
  | InsertBy r =>
      match Insert (queue c) r with
      | Ok wr' =>
          Some (mkCall wr' (caller c)
                       (if broadcasts r then Broadcast (waiter c) else waiter c)
                       (sig c) (timer c) (timeout c) (clock c))
      | _ => None
      end
  | TimerFires =>
      match timer c with
      | Armed =>
          if bool_decide (timeout c <= clock c)%Z
          then Some (mkCall (queue c) (caller c) (waiter c) (sig c) Fired
                            (timeout c) (clock c))
          else None
      | _ => None
      end
  | WaiterWait =>
      match waiter c with
      | Spawned =>
          Some (mkCall (queue c) (caller c) Waiting (sig c) (timer c)
                       (timeout c) (clock c))
      | _ => None
      end
  | WaiterSend =>
      match waiter c with
      | Woken =>
          Some (mkCall (queue c) (caller c) Exited true (timer c)
                       (timeout c) (clock c))
      | _ => None
      end
  | CallerCheck =>
      if isChecking (caller c)
      then Some (mkCall (queue c) (checkFurthest (queue c)) (waiter c) (sig c)
                        (timer c) (timeout c) (clock c))
      else None
  | SelectTimer =>
      match caller c, timer c with
      | AtSelect, Fired =>
          Some (mkCall (queue c) (Returned None (Some timeOutError))
                       (waiter c) (sig c) Drained (timeout c) (clock c))
      | _, _ => None
      end
  | SelectSig =>
      match caller c, sig c with
      | AtSelect, true =>
          Some (mkCall (queue c) AtRecheck (waiter c) false (timer c)
                       (timeout c) (clock c))
      | _, _ => None
      end
  end.

(** A schedule, action after action. *)
Fixpoint run (c : call) (tr : list label) : option call :=
  match tr with
  | [] => Some c
  | l :: tr' =>
      match step c l with
      | Some c' => run c' tr'
      | None => None
      end
  end.

Definition isInsert (l : label) : bool :=
  match l with
  | InsertBy _ => true
  | _ => false
  end.

(** No [Insert] takes place during the schedule. *)
Definition noInsert (tr : list label) : Prop :=
  forallb (fun l => negb (isInsert l)) tr = true.

Definition hasReturned (c : call) : bool :=
  match caller c with
  | Returned _ _ => true
  | _ => false
  end.

Definition isSelectSig (l : label) : bool :=
  match l with
  | SelectSig => true
  | _ => false
  end.

Definition isCallerCheck (l : label) : bool :=
  match l with
  | CallerCheck => true
  | _ => false
  end.

(** How often an action of the kind [p] occurs in a schedule. *)
Definition countOf (p : label -> bool) (tr : list label) : nat :=
  length (List.filter p tr).

(** How many signals the call can still receive: the goroutine sends one,
    once. *)
Definition signalsLeft (c : call) : nat :=
  match waiter c, sig c with
  | Exited, false => 0
  | _, _ => 1
  end.

(** How many checks of the queue the call can still make without a new
    signal. *)
Definition checksDue (c : call) : nat :=
  if isChecking (caller c) then 1 else 0.

(** What holds of an error result, whatever the schedule. *)
Definition errorInv (c : call) : Prop :=
  (timer c <> Armed -> (timeout c <= clock c)%Z) /\
  (forall round err, caller c = Returned round (Some err) ->
     err = timeOutError /\ round = None /\ timer c = Drained).

(** What holds while the queue is empty and nothing is inserted. *)
Definition idleInv (c : call) : Prop :=
  rounds (queue c) = [] /\
  (waiter c = Spawned \/ waiter c = Waiting) /\
  sig c = false /\
  caller c <> AtRecheck /\
  (timer c = Drained -> hasReturned c = true) /\
  (forall round err, caller c = Returned round err ->
     round = None /\ err = Some timeOutError).

End Call.

End WaitingRounds.

(** * RoundEvents

    The registry, the signal channels and the goroutines of the events,
    with one atomic action for each stretch of code that runs under
    [r.mux] or inside one goroutine: the first half of [AddRoundEvent]
    (the event is made and its goroutine started), its second half (the
    registration, under the lock), [TriggerRoundEvent], the select of a
    goroutine with the call of the callback that follows, and a [Remove]
    started by a goroutine. [TriggerRoundEvent] holds the read lock only, so
    that two calls of it can run at the same time; it is one action here,
    which leaves those runs out: the properties below that depend on it
    hold when the feed of rounds calls it from one goroutine at a time. Time is a clock that [Tick] advances;
    [time.After(timeout)] delivers at or after its deadline. *)

Module RoundEvents.

(** An [*eventCallback]: the address stands for the pointer, and with it
    for the channel [signal] made with the struct; [states] is the field of
    that name, which is never written after the struct is made. *)
Record eventCallback : Type := mkEventCallback {
  addr : nat;
  states : list nat          (* []states.Round *)
}.

(** The struct [RoundEvents], made with a non-nil [callbacks] map. A
    [map[*eventCallback]*eventCallback] goes from the address to the
    struct; a nil map is read like an empty one and is never written to.
    The array [[states.NUM_STATES]map...] is a list of that length. *)
Record RoundEvents : Type := mkRoundEvents {
  callbacks : gmap N (list (gmap nat eventCallback))
}.

(** One call of a callback, [callback(ri, timedOut)], made by the goroutine
    of the event at address [by_event]. A [RoundEventCallback] is named by
    a number, [callee]. *)
Record invocation : Type := mkInvocation {
  by_event : nat;
  callee : nat;
  arg_ri : RoundInfo;
  arg_timedOut : bool
}.

(** The goroutine started by [AddRoundEvent] at line 67, with what its
    closure holds. *)
Record waiter : Type := mkWaiter {
  w_rid : N;
  w_callback : nat;
  w_event : eventCallback;
  w_deadline : Z;            (* when time.After(timeout) delivers *)
  w_done : bool              (* the select has run *)
}.

(** Everything the goroutines share. *)
Record system : Type := mkSystem {
  r : RoundEvents;
  chans : gmap nat RoundInfo;            (* the full signal channels *)
  waiters : gmap nat waiter;             (* by address of the event *)
  adding : list (N * eventCallback);     (* AddRoundEvent calls at line 78 *)
  removing : list (N * eventCallback);   (* go r.Remove(...) not yet run *)
  calls : list invocation;
  next : nat;                            (* the next fresh address *)
  now : Z
}.

Inductive label : Type :=
  | Tick (d : Z)
  | Start (rid : N) (callback : nat) (timeout : Z) (validStates : list nat)
  | Register (i : nat)
  | Trigger (ri : RoundInfo)
  | WaiterTimeout (a : nat)
  | WaiterSignal (a : nat)
  | RunRemove (i : nat).

Section Dispatcher.

Context `{Primitives}.

(** A loop over a slice, threading the state; it stops at the first panic
    or block. *)
Fixpoint forEach {A S : Type} (f : S -> A -> result S) (xs : list A) (st : S)
  : result S :=
  match xs with
  | [] => Ok st
  | x :: xs' => st' ← f st x; forEach f xs' st'
  end.

(** The value of [r.callbacks[rid]] for an absent [rid]. *)
Definition zeroArray : list (gmap nat eventCallback) := replicate NUM_STATES ∅.

(** [delete(r.callbacks[rid][s], e)] *)
Definition deleteEvent (rid : N) (e : eventCallback) (r : RoundEvents) (s : nat)
  : result RoundEvents :=
  match callbacks r !! rid with
  | Some arr =>
      m ← index arr s;
      Ok (mkRoundEvents (<[rid := <[s := delete (addr e) m]> arr]> (callbacks r)))
  | None => _ ← index zeroArray s; Ok r
  end.

(** The loop at lines 52-54: no state has a callback left. *)
Definition noneLeft (arr : list (gmap nat eventCallback)) : bool :=
  forallb (fun m => Nat.eqb (size m) 0) arr.

Definition remove (r : RoundEvents) (rid : N) (e : eventCallback)
  : result RoundEvents :=
  r1 ← forEach (deleteEvent rid e) (states e) r;
  if noneLeft (default zeroArray (callbacks r1 !! rid))
  then Ok (mkRoundEvents (delete rid (callbacks r1)))
  else Ok r1.

(** [Remove] is [remove] under the lock. *)
Definition Remove (r : RoundEvents) (rid : N) (e : eventCallback)
  : result RoundEvents := remove r rid e.

(** [callbacks[s][thisEvent] = thisEvent] *)
Definition addEvent (thisEvent : eventCallback)
    (arr : list (gmap nat eventCallback)) (s : nat)
  : result (list (gmap nat eventCallback)) :=
  m ← index arr s;
  Ok (<[s := <[addr thisEvent := thisEvent]> m]> arr).

(** Lines 78-92 of [AddRoundEvent]. For an absent round the array is
    filled with fresh maps and stored; the maps being shared, the store
    then holds what the loop has written. *)
Definition register (r : RoundEvents) (rid : N) (thisEvent : eventCallback)
  : result RoundEvents :=
  let callbacks0 := default zeroArray (callbacks r !! rid) in
  arr ← forEach (addEvent thisEvent) (states thisEvent) callbacks0;
  Ok (mkRoundEvents (<[rid := arr]> (callbacks r))).

(** [event.signal <- ri] on a channel of capacity 1. *)
Definition send (ri : RoundInfo) (chans : gmap nat RoundInfo) (event : eventCallback)
  : result (gmap nat RoundInfo) :=
  match chans !! addr event with
  | None => Ok (<[addr event := ri]> chans)
  | Some _ => Blocked
  end.

(** [TriggerRoundEvent], on the registry and the channels. The events of
    the map are visited in some order; [map_to_list] fixes one. *)
Definition TriggerRoundEvent (r : RoundEvents) (chans : gmap nat RoundInfo)
    (ri : RoundInfo) : result (RoundEvents * gmap nat RoundInfo) :=
  match callbacks r !! ID ri with
  | None => Ok (r, chans)
  | Some arr =>
      thisStatesCallbacks ← index arr (N.to_nat (State ri));
      if Nat.eqb (size thisStatesCallbacks) 0 then Ok (r, chans)
      else
        let events := (map_to_list thisStatesCallbacks).*2 in
        chans' ← forEach (send ri) events chans;
        r' ← forEach (fun r event => remove r (ID ri) event) events r;
        Ok (r', chans')
  end.

(** Modelled from the spec: [roundEvents.go] declares no constructor; the
    registry is a mapping from round id to the subscriptions per state,
    empty before the first [AddRoundEvent] (and not nil, or line 86 would
    panic). *)
Definition NewRoundEvents : RoundEvents := mkRoundEvents ∅.

Definition initial : system :=
  mkSystem NewRoundEvents ∅ ∅ [] [] [] 0 0.

(** Lines 62-76 of [AddRoundEvent]: the event and its channel are made and
    the goroutine is started. *)
Definition start (st : system) (rid : N) (callback : nat) (timeout : Z)
    (validStates : list nat) : system :=
  let thisEvent := mkEventCallback (next st) validStates in
  mkSystem (r st) (chans st)
    (<[next st := mkWaiter rid callback thisEvent (now st + timeout) false]>
       (waiters st))
    (adding st ++ [(rid, thisEvent)]) (removing st) (calls st)
    (S (next st)) (now st).

(** One action of one goroutine. [Panic] and [Blocked] are the results of
    the operation run; an action that cannot take place now is
    [Blocked]. *)
Definition step (st : system) (l : label) : result system :=
  match l with
  | Tick d =>
      if bool_decide (0 <= d)%Z
      then Ok (mkSystem (r st) (chans st) (waiters st) (adding st)
                 (removing st) (calls st) (next st) (now st + d))
      else Blocked
  | Start rid callback timeout validStates =>
      Ok (start st rid callback timeout validStates)
  | Register i =>
      match adding st !! i with
      | Some (rid, thisEvent) =>
          r' ← register (r st) rid thisEvent;
          Ok (mkSystem r' (chans st) (waiters st) (delete i (adding st))
                (removing st) (calls st) (next st) (now st))
      | None => Blocked
      end
  | Trigger ri =>
      '(r', chans') ← TriggerRoundEvent (r st) (chans st) ri;
      Ok (mkSystem r' chans' (waiters st) (adding st) (removing st)
            (calls st) (next st) (now st))
  | WaiterTimeout a =>
      match waiters st !! a with
      | Some w =>
          if negb (w_done w) && bool_decide (w_deadline w <= now st)%Z
          then
            let ri := mkRoundInfo (w_rid w) 0 [] in
            Ok (mkSystem (r st) (chans st)
                  (<[a := mkWaiter (w_rid w) (w_callback w) (w_event w)
                            (w_deadline w) true]> (waiters st))
                  (adding st)
                  (removing st ++ [(w_rid w, w_event w)])
                  (calls st ++ [mkInvocation a (w_callback w) ri true])
                  (next st) (now st))
          else Blocked
      | None => Blocked
      end
  | WaiterSignal a =>
      match waiters st !! a, chans st !! a with
      | Some w, Some ri =>
          if negb (w_done w)
          then
            Ok (mkSystem (r st) (delete a (chans st))
                  (<[a := mkWaiter (w_rid w) (w_callback w) (w_event w)
                            (w_deadline w) true]> (waiters st))
                  (adding st) (removing st)
                  (calls st ++ [mkInvocation a (w_callback w) ri false])
                  (next st) (now st))
          else Blocked
      | _, _ => Blocked
      end
  | RunRemove i =>
      match removing st !! i with
      | Some (rid, e) =>
          r' ← Remove (r st) rid e;
          Ok (mkSystem r' (chans st) (waiters st) (adding st)
                (delete i (removing st)) (calls st) (next st) (now st))
      | None => Blocked
      end
  end.

Fixpoint run (st : system) (tr : list label) : result system :=
  match tr with
  | [] => Ok st
  | l :: tr' => st' ← step st l; run st' tr'
  end.

(** [AddRoundEvent] when nothing comes between its two halves; the result
    carries the event made. *)
Definition AddRoundEvent (st : system) (rid : N) (callback : nat)
    (timeout : Z) (validStates : list nat) : result (system * eventCallback) :=
  st' ← step (start st rid callback timeout validStates)
             (Register (length (adding st)));
  Ok (st', mkEventCallback (next st) validStates).

(** *** Predicates used in the statements *)

(** The map of round [rid] and state [s], empty where there is none. *)
Definition bucketOf (r : RoundEvents) (rid : N) (s : nat)
  : gmap nat eventCallback :=
  default ∅ (default [] (callbacks r !! rid) !! s).

(** The event [e] is in the map of round [rid] and state [s]. *)
Definition registered (r : RoundEvents) (rid : N) (s : nat) (e : eventCallback)
  : Prop :=
  bucketOf r rid s !! addr e = Some e.

(** The event is under no round and no state. *)
Definition unregistered (r : RoundEvents) (e : eventCallback) : Prop :=
  forall rid s, bucketOf r rid s !! addr e = None.

(** The registry has an entry for [rid] only if some event is registered
    for it. *)
Definition pruned (r : RoundEvents) (rid : N) : Prop :=
  is_Some (callbacks r !! rid) -> exists s e, registered r rid s e.

(** Every array of the registry has the length of its type. *)
Definition wf (r : RoundEvents) : Prop :=
  forall rid arr, callbacks r !! rid = Some arr -> length arr = NUM_STATES.

Definition bounded (e : eventCallback) : Prop :=
  Forall (fun s => (s < NUM_STATES)%nat) (states e).

(** The goroutine of the event [e], started for round [rid]. *)
Definition waiterOf (st : system) (rid : N) (e : eventCallback) : Prop :=
  exists w, waiters st !! addr e = Some w /\ w_event w = e /\ w_rid w = rid.

(** The calls made so far by the goroutine of the event at address [a]. *)
Definition callsOf (a : nat) (st : system) : list invocation :=
  filter (fun c => by_event c = a) (calls st).

(** The round info [ri] is one that the subscription of the goroutine [w]
    waits for: its round id, in one of its states. *)
Definition awaited (w : waiter) (ri : RoundInfo) : Prop :=
  ID ri = w_rid w /\ N.to_nat (State ri) ∈ states (w_event w).

(** The call [c] is one that the goroutine [w] may make: of its callback,
    with the round info of the timeout case or with an awaited one. *)
Definition callOf (w : waiter) (c : invocation) : Prop :=
  callee c = w_callback w /\
  if arg_timedOut c then arg_ri c = mkRoundInfo (w_rid w) 0 []
  else awaited w (arg_ri c).

(** Every signal in a channel and every call made are as subscribed. *)
Definition sound (st : system) : Prop :=
  (forall a ri, chans st !! a = Some ri ->
     exists w, waiters st !! a = Some w /\ awaited w ri) /\
  (forall c, c ∈ calls st ->
     exists w, waiters st !! by_event c = Some w /\ callOf w c).

(** What holds in every state the system reaches. *)
Record invariant (st : system) : Prop := mkInvariant {
  inv_wf : wf (r st);
  inv_reg : forall rid s a e,
    bucketOf (r st) rid s !! a = Some e ->
    addr e = a /\ s ∈ states e /\ bounded e /\ chans st !! a = None /\
    waiterOf st rid e;
  inv_adding : forall rid e,
    (rid, e) ∈ adding st ->
    unregistered (r st) e /\ chans st !! addr e = None /\ waiterOf st rid e;
  inv_adding_NoDup : NoDup ((fun p => addr p.2) <$> adding st);
  inv_removing : forall rid e, (rid, e) ∈ removing st -> waiterOf st rid e;
  inv_bounded : forall a w,
    waiters st !! a = Some w ->
    bounded (w_event w) \/ exists rid, (rid, w_event w) ∈ adding st;
  inv_chans : forall a, is_Some (chans st !! a) -> is_Some (waiters st !! a);
  inv_fresh : forall a, is_Some (waiters st !! a) -> (a < next st)%nat;
  inv_waiter : forall a w, waiters st !! a = Some w -> addr (w_event w) = a;
  inv_calls : forall a,
    length (callsOf a st) =
    match waiters st !! a with
    | Some w => if w_done w then 1%nat else 0%nat
    | None => 0%nat
    end
}.

End Dispatcher.

End RoundEvents.

(** * Circuit (package connect)

    The ordered list of the nodes of a round. An [id.Node] is a value (a
    byte array of the primitives package) that the map [nodeIndexes] has as
    its key; the circuit holds pointers to copies of its own
    ([DeepCopy]) and hands out copies only, so a [*id.Node] is modelled by
    the node it points to. A [*Host] is a value of an arbitrary type. An
    [int] is a [Z]; the indices computed stay below the length of a
    list. The parameter [list] of [New] and [shiftLeft] is [nids] here,
    [list] being the type. *)

Module Circuit.

Section Circuit.

Context {Node : Type} `{Countable Node} {Host : Type}.

Record Circuit : Type := mkCircuit {
  nodes : list Node;
  nodeIndexes : gmap Node Z;
  hosts : list Host
}.

(** [xs[i]] for an [int] index. *)
Definition at_ {A} (xs : list A) (i : Z) : result A :=
  if bool_decide (i < 0)%Z then Panic else index xs (Z.to_nat i).

(** The loop of [New], from the element of index [index] on. The list
    holds pointers: [*nid] on a nil one is a run-time panic. *)
Fixpoint newLoop (c : Circuit) (index : Z) (nids : list (option Node))
  : result Circuit :=
  match nids with
  | [] => Ok c
  | None :: _ => Panic
  | Some nid :: rest =>
      match nodeIndexes c !! nid with
      | Some _ => Panic
      | None =>
          newLoop (mkCircuit (nodes c ++ [nid]) (<[nid := index]> (nodeIndexes c))
                     (hosts c))
                  (index + 1) rest
      end
  end.

Definition New (nids : list (option Node)) : result Circuit :=
  if bool_decide (length nids = 0%nat) then Panic
  else newLoop (mkCircuit [] ∅ []) 0 nids.

(** The methods below dereference their node argument at once; it is
    given here as the node pointed to. *)
Definition GetNodeLocation (c : Circuit) (node : Node) : Z :=
  match nodeIndexes c !! node with
  | Some nodeLoc => nodeLoc
  | None => -1
  end.

Definition Len (c : Circuit) : Z := Z.of_nat (length (nodes c)).

Definition GetNodeAtIndex (c : Circuit) (index : Z) : result Node :=
  if bool_decide (index < 0 \/ Len c <= index)%Z then Panic
  else at_ (nodes c) index.

(** [(loc+1)%len(c.nodes)]: the remainder of Go truncates, and a zero
    divisor panics. *)
Definition GetNextNode (c : Circuit) (from : Node) : result Node :=
  let loc := GetNodeLocation c from in
  if bool_decide (loc = -1)%Z then Panic
  else if bool_decide (Len c = 0)%Z then Panic
  else at_ (nodes c) (Z.rem (loc + 1) (Len c)).

Definition GetPrevNode (c : Circuit) (from : Node) : result Node :=
  let loc := GetNodeLocation c from in
  if bool_decide (loc = -1)%Z then Panic
  else
    let prevLoc := if bool_decide (loc = 0)%Z then (Len c - 1)%Z else (loc - 1)%Z in
    at_ (nodes c) prevLoc.

Definition IsFirstNode (c : Circuit) (node : Node) : bool :=
  bool_decide (GetNodeLocation c node = 0)%Z.

Definition IsLastNode (c : Circuit) (node : Node) : bool :=
  bool_decide (GetNodeLocation c node = Len c - 1)%Z.

(** [shiftLeft] on the elements: each turn of the loop takes [list[1:size]]
    and appends [list[0]]; with an empty list the slice expression is out
    of range. The slices and the arrays under them are in [shiftLeftH]
    below. *)
Fixpoint shiftLoop (nids : list (option Node)) (turns : nat)
  : result (list (option Node)) :=
  match turns with
  | O => Ok nids
  | S turns' =>
      match nids with
      | [] => Panic
      | first :: rest => shiftLoop (rest ++ [first]) turns'
      end
  end.

Definition shiftLeft (nids : list (option Node)) (rotation : Z)
  : result (list (option Node)) :=
  shiftLoop nids (Z.to_nat rotation).

(** The loop of [GetOrdering] over the indices [turns]; [nids] is
    [c.nodes], which every turn shifts anew ([shiftLeft] leaves the
    elements of the slice it is given as they are, see [shiftLeftH]). *)
Fixpoint orderings (nids : list (option Node)) (turns : list nat)
  : result (list Circuit) :=
  match turns with
  | [] => Ok []
  | i :: turns' =>
      shifted ← shiftLeft nids (Z.of_nat i);
      c ← New shifted;
      cs ← orderings nids turns';
      Ok (c :: cs)
  end.

Definition GetOrdering (c : Circuit) : result (list Circuit) :=
  orderings (Some <$> nodes c) (seq 0 (length (nodes c))).

Definition GetHostAtIndex (c : Circuit) (index : Z) : result Host :=
  if bool_decide (index < 0 \/ Z.of_nat (length (hosts c)) <= index)%Z then Panic
  else at_ (hosts c) index.

Definition AddHost (c : Circuit) (newHost : Host) : Circuit :=
  mkCircuit (nodes c) (nodeIndexes c) (hosts c ++ [newHost]).

(** *** Slices of node pointers and their arrays

    A slice points into an array at an offset and has a length; its
    capacity is what is left of the array. The heap is the list of the
    arrays, an array being known by its index. A cell holds a node pointer
    or nil. *)
Record slice : Type := mkSlice {
  s_arr : nat;
  s_off : nat;
  s_len : nat
}.

Definition array_of (h : list (list (option Node))) (s : slice)
  : list (option Node) :=
  default [] (h !! s_arr s).

(** The elements a slice shows. *)
Definition view (h : list (list (option Node))) (s : slice)
  : list (option Node) :=
  take (s_len s) (drop (s_off s) (array_of h s)).

Definition cap (h : list (list (option Node))) (s : slice) : nat :=
  length (array_of h s) - s_off s.

(** The cell [k] of the array [a], if there is one. *)
Definition cell (h : list (list (option Node))) (a k : nat)
  : option (option Node) :=
  h !! a ≫= fun arr => arr !! k.

(** [append(s, x)]: in place while the capacity lasts, else into a new
    array, which has [spare] cells more than needed; how many, the run
    time decides from the old capacity and the length needed. *)
Definition append (spare : nat -> nat -> nat)
    (h : list (list (option Node))) (s : slice) (x : option Node)
  : list (list (option Node)) * slice :=
  if bool_decide (s_len s < cap h s)%nat then
    (<[s_arr s := <[(s_off s + s_len s)%nat := x]> (array_of h s)]> h,
     mkSlice (s_arr s) (s_off s) (S (s_len s)))
  else
    (h ++ [view h s ++ [x] ++ replicate (spare (cap h s) (S (s_len s))) None],
     mkSlice (length h) 0 (S (s_len s))).

(** The loop of [shiftLeft] on slices: [newList = list[1:size]], then
    [newList = append(newList, list[0])], then [list = newList]. *)
Fixpoint shiftLoopH (spare : nat -> nat -> nat) (size : nat)
    (h : list (list (option Node))) (cur : slice) (turns : nat)
  : result (list (list (option Node)) * slice) :=
  match turns with
  | O => Ok (h, cur)
  | S turns' =>
      if bool_decide (1 <= size <= cap h cur)%nat then
        let newList := mkSlice (s_arr cur) (S (s_off cur)) (size - 1) in
        first ← index (view h cur) 0;
        let '(h', newList') := append spare h newList first in
        shiftLoopH spare size h' newList' turns'
      else Panic
  end.

Definition shiftLeftH (spare : nat -> nat -> nat)
    (h : list (list (option Node))) (nids : slice) (rotation : Z)
  : result (list (list (option Node)) * slice) :=
  shiftLoopH spare (s_len nids) h nids (Z.to_nat rotation).

(** *** Predicates used in the statements *)

(** The slice lies within its array. *)
Definition valid (h : list (list (option Node))) (s : slice) : Prop :=
  (s_arr s < length h)%nat /\ (s_off s + s_len s <= length (array_of h s))%nat.

(** The map gives each node of the list its index, and has no other
    key. *)
Definition indexed (c : Circuit) : Prop :=
  forall n z, nodeIndexes c !! n = Some z <->
              (0 <= z)%Z /\ nodes c !! Z.to_nat z = Some n.

(** The circuit as [New] makes it: at least one node, the nodes distinct,
    the map as above. *)
Definition wellFormed (c : Circuit) : Prop :=
  nodes c <> [] /\ NoDup (nodes c) /\ indexed c.

(** What a call of [shiftLeft] leaves as it was: the arrays there were,
    but for the cells of the array of [s] from the end of [s] on. *)
Definition untouched (h h' : list (list (option Node))) (s : slice) : Prop :=
  forall a k, (a < length h)%nat ->
              (a <> s_arr s \/ k < s_off s + s_len s)%nat ->
              cell h' a k = cell h a k.

End Circuit.

End Circuit.

(** * Ndf (network/dataStructures/ndf.go)

    The network definition with its protobuf form and its hash. The
    packages ndf (primitives), mixmessages and sha256 are imported: the
    section is parametric in the two types and in [DecodeNDF] (applied to
    [string(m.Ndf)]), [Marshal] and the SHA-256 sum, an error of the first
    two being [None]. A [[]byte] is a list of bytes, nil being the empty
    one: [bytes.Compare] and [copy] do not tell them apart. *)

#[global] Instance byte_eq_dec : EqDecision Byte.byte := Byte.byte_eq_dec.

Module Ndf.

Section Ndf.

Context {NetworkDefinition NDF : Type}.
Variable DecodeNDF : NDF -> option NetworkDefinition.
Variable Marshal : NetworkDefinition -> option (list Byte.byte).
Variable sha256 : list Byte.byte -> list Byte.byte.

Record Ndf : Type := mkNdf {
  f : NetworkDefinition;
  pb : option NDF;          (* nil until the first Update *)
  hash : list Byte.byte
}.

Definition generateHash (definition : NetworkDefinition)
  : option (list Byte.byte) :=
  marshaled ← Marshal definition;
  Some (sha256 marshaled).

(** [None] is the error of [NewNdf]. *)
Definition NewNdf (definition : NetworkDefinition) : option Ndf :=
  h ← generateHash definition;
  Some (mkNdf definition None h).

(** [Update] returns the new state and whether the error is not nil; the
    two groups it is given are not used. With a definition that does not
    marshal, [generateHash] returns the nil hash beside its error, and the
    assignment stores it. *)
Definition Update (file : Ndf) (m : NDF) : Ndf * bool :=
  match DecodeNDF m with
  | None => (file, true)
  | Some decoded =>
      match generateHash decoded with
      | Some h => (mkNdf decoded (Some m) h, false)
      | None => (mkNdf decoded (Some m) [], true)
      end
  end.

Definition Get (file : Ndf) : NetworkDefinition := f file.

Definition GetHash (file : Ndf) : list Byte.byte := hash file.

Definition GetPb (file : Ndf) : option NDF := pb file.

Definition CompareHash (file : Ndf) (h : list Byte.byte) : bool :=
  bool_decide (hash file = h).

(** A sequence of calls of [Update], whatever they return. *)
Fixpoint updates (file : Ndf) (ms : list NDF) : Ndf :=
  match ms with
  | [] => file
  | m :: ms' => updates (Update file m).1 ms'
  end.

End Ndf.

End Ndf.

(** * Host (connect/host.go): the time allowed to a connection attempt

    The seconds [connectHelper] gives to the attempt of number
    [numRetries]; the division of Go truncates. *)

Module Host.

Definition backoffTime (numRetries : Z) : Z :=
  let backoffTime := (2 * (Z.quot numRetries 16 + 1))%Z in
  if bool_decide (backoffTime > 15)%Z then 15%Z else backoffTime.

(** [maxRetries] as [NewHost] sets it. *)
Definition maxRetries (disableTimeout : bool) : Z :=
  if disableTimeout then 2147483647%Z else 100%Z.

End Host.

(** The values of the constants in the primitives packages: [states.Round]
    counts PENDING, PRECOMPUTING, STANDBY, QUEUED, REALTIME, COMPLETED,
    FAILED; [current.Activity] counts NOT_STARTED, WAITING, PRECOMPUTING,
    STANDBY, REALTIME, ... *)
Definition xx_primitives : Primitives :=
  {| QUEUED := 3; REALTIME := 4; NUM_STATES := 7 |}.

(** ** Rounds and states of the examples *)

(** A round queued for realtime at time [t]. *)
Definition queuedAt (rid t : N) : RoundInfo := mkRoundInfo rid 3 [0; 0; 0; 0; t].


(** The event made by the first [AddRoundEvent], for the state QUEUED. *)
Definition event0 : RoundEvents.eventCallback :=
  RoundEvents.mkEventCallback 0 [3%nat].

(** Its goroutine: round 10, callback 1, timeout 50. *)
Definition waiter0 (done : bool) : RoundEvents.waiter :=
  RoundEvents.mkWaiter 10 1 event0 50 done.

(** [AddRoundEvent(10, callback 1, 50, QUEUED)] on a new registry. *)
Definition subscribe10 : list RoundEvents.label :=
  [RoundEvents.Start 10 1 50 [3%nat]; RoundEvents.Register 0].

(** The state after [subscribe10], at time [t]. *)
Definition subscribed (t : Z) : RoundEvents.system :=
  RoundEvents.mkSystem
    (RoundEvents.mkRoundEvents
       {[ 10 := [∅; ∅; ∅; {[ 0%nat := event0 ]}; ∅; ∅; ∅] ]})
    ∅ {[ 0%nat := waiter0 false ]} [] [] [] 1 t.

(** The event of an [AddRoundEvent] with the timeout 0, registered only
    after its goroutine has timed out and the [Remove] of that goroutine
    has run. *)
Definition registeredLate : RoundEvents.system :=
  RoundEvents.mkSystem
    (RoundEvents.mkRoundEvents
       {[ 10 := [∅; ∅; ∅; {[ 0%nat := event0 ]}; ∅; ∅; ∅] ]})
    ∅ {[ 0%nat := RoundEvents.mkWaiter 10 1 event0 0 true ]} [] []
    [RoundEvents.mkInvocation 0 1 (mkRoundInfo 10 0 []) true] 1 0.

(** The state after the goroutine of [event0] has timed out. *)
Definition timedOut : RoundEvents.system :=
  RoundEvents.mkSystem
    (RoundEvents.mkRoundEvents
       {[ 10 := [∅; ∅; ∅; {[ 0%nat := event0 ]}; ∅; ∅; ∅] ]})
    ∅ {[ 0%nat := waiter0 true ]} [] [(10, event0)]
    [RoundEvents.mkInvocation 0 1 (mkRoundInfo 10 0 []) true] 1 50.

(** ** The circuit of the examples *)

(** The nodes 5, 6, 7 in this order, as [New] makes it. *)
Definition circuit3 : @Circuit.Circuit nat _ _ nat :=
  Circuit.mkCircuit [5; 6; 7]%nat
    (<[7%nat := 2%Z]> (<[6%nat := 1%Z]> (<[5%nat := 0%Z]> ∅))) [].

(** ** The network definitions of the examples

    Stand-ins for the imported functions: a definition is a number, its
    protobuf form that number again, 0 for one that does not decode; the
    definition 1 does not marshal. *)

Definition decodeExample (m : nat) : option nat :=
  if Nat.eqb m 0 then None else Some m.

Definition marshalExample (d : nat) : option (list Byte.byte) :=
  if Nat.eqb d 1 then None else Some (repeat Byte.x01 d).

Definition sumExample (b : list Byte.byte) : list Byte.byte := Byte.xff :: b.

(** [NewNdf] of the definition 2, then [Update] with 3, with 0 and
    with 1. *)
Definition updatedExample : @Ndf.Ndf nat nat :=
  Ndf.updates decodeExample marshalExample sumExample
    (Ndf.mkNdf 2%nat None [Byte.xff; Byte.x01; Byte.x01]) [3; 0; 1]%nat.

(** * Properties of WaitingRounds *)

Section WaitingRoundsProperties.

Import WaitingRounds.
Context `{Primitives}.

Implicit Types (wr : WaitingRounds) (r e : RoundInfo) (back : list RoundInfo).

Lemma timeLt_timeLe a b : timeLt a b -> timeLe a b.
Proof.
  intros (ta & tb & Ha & Hb & Hlt). exists ta, tb. repeat split; [done..|lia].
Qed.

Lemma timeLe_timeLt_trans a b c : timeLe a b -> timeLt b c -> timeLt a c.
Proof.
  intros (ta & tb & Ha & Hb & Hle) (tb' & tc & Hb' & Hc & Hlt).
  rewrite Hb in Hb'. injection Hb' as <-.
  exists ta, tc. repeat split; [done..|lia].
Qed.

(** ** The two loops *)

(** What a run of the insertion loop that does not panic has done: it
    walked over [seen], whose rounds are not earlier than the new one, and
    stopped in front of [rest], whose first round is strictly earlier. *)
Lemma insertLoop_Ok r back back' :
  insertLoop r back = Ok back' ->
  exists seen rest,
    back = seen ++ rest /\ back' = seen ++ r :: rest /\
    Forall (timeLe r) seen /\
    match rest with [] => True | e :: _ => timeLt e r end.
Proof.
  revert back'. induction back as [|e prev IH]; intros back' Hrun; simpl in Hrun.
  - injection Hrun as <-. by exists [], [].
  - destruct (getTime r) as [tn| |] eqn:Htn; simpl in Hrun; try discriminate.
    destruct (getTime e) as [te| |] eqn:Hte; simpl in Hrun; try discriminate.
    destruct (te <? tn) eqn:Hcmp.
    + injection Hrun as <-. exists [], (e :: prev).
      repeat split; [constructor|].
      exists te, tn. apply N.ltb_lt in Hcmp. done.
    + destruct (insertLoop r prev) as [prev'| |]; simpl in Hrun; try discriminate.
      injection Hrun as <-.
      destruct (IH prev' eq_refl) as (seen & rest & -> & -> & Hseen & Hrest).
      exists (e :: seen), rest. repeat split; [|done].
      constructor; [|done]. exists tn, te. apply N.ltb_ge in Hcmp. done.
Qed.

(** The insertion loop does not panic when every round it may read has a
    realtime timestamp. *)
Lemma insertLoop_total r back :
  (exists t, getTime r = Ok t) ->
  Forall (fun e => exists t, getTime e = Ok t) back ->
  exists back', insertLoop r back = Ok back'.
Proof.
  intros [tn Htn]. induction 1 as [|e prev [te Hte] _ [prev' IH]]; simpl.
  - by eexists.
  - rewrite Htn, Hte. simpl. destruct (te <? tn); [by eexists|].
    rewrite IH. simpl. by eexists.
Qed.

(** What the removal loop has done. *)
Lemma removeLoop_spec r back :
  ((ID r ∉ (ID <$> back)) /\ removeLoop r back = back) \/
  (exists seen e rest,
     back = seen ++ e :: rest /\ ID e = ID r /\ (ID r ∉ (ID <$> seen)) /\
     removeLoop r back = seen ++ rest).
Proof.
  induction back as [|e prev IH]; simpl.
  - left. split; [apply not_elem_of_nil|done].
  - destruct (ID e =? ID r) eqn:Heq.
    + apply N.eqb_eq in Heq. right. exists [], e, prev.
      repeat split; [done|apply not_elem_of_nil].
    + apply N.eqb_neq in Heq. destruct IH as [[Hnot ->]|IH].
      * left. split; [|done]. rewrite not_elem_of_cons. split; [congruence|done].
      * destruct IH as (seen & e' & rest & -> & Hid & Hnot & ->).
        right. exists (e :: seen), e', rest. repeat split; [done|].
        rewrite fmap_cons, not_elem_of_cons. split; [congruence|done].
Qed.

(** ** Insert, front to back *)

(** An [Insert] of a QUEUED round that does not panic put the round between
    [front] and [behind], the two parts of the old queue; what is behind is
    not earlier, what is directly in front is strictly earlier. *)
Lemma Insert_queued_Ok wr r wr' :
  State r = QUEUED -> Insert wr r = Ok wr' ->
  exists front behind,
    rounds wr = front ++ behind /\ rounds wr' = front ++ r :: behind /\
    Forall (timeLe r) behind /\
    match last front with None => True | Some e => timeLt e r end.
Proof.
  intros Hq Hins. unfold Insert in Hins.
  rewrite (proj2 (N.eqb_eq _ _) Hq) in Hins.
  destruct (insertLoop r (reverse (rounds wr))) as [back'| |] eqn:Hloop;
    simpl in Hins; try discriminate.
  injection Hins as <-. simpl.
  destruct (insertLoop_Ok _ _ _ Hloop) as (seen & rest & Hback & -> & Hseen & Hrest).
  exists (reverse rest), (reverse seen). repeat split.
  - rewrite <- reverse_app, <- Hback. by rewrite reverse_involutive.
  - rewrite reverse_app, reverse_cons, <- app_assoc. done.
  - by apply Forall_reverse.
  - rewrite last_reverse. by destruct rest.
Qed.

Lemma Insert_not_queued_eq wr r :
  State r <> QUEUED -> Insert wr r = Ok (remove wr r).
Proof.
  intros Hq. unfold Insert. by rewrite (proj2 (N.eqb_neq _ _) Hq).
Qed.

(** [remove], front to back: the rearmost entry with the id goes. *)
Lemma remove_spec wr r :
  ((ID r ∉ ids wr) /\ remove wr r = wr) \/
  (exists front e behind,
     rounds wr = front ++ e :: behind /\ ID e = ID r /\
     (ID r ∉ (ID <$> behind)) /\
     remove wr r = {| rounds := front ++ behind |}).
Proof.
  unfold remove, ids. destruct wr as [l]. simpl.
  destruct (removeLoop_spec r (reverse l)) as [[Hnot ->]|Hfound].
  - left. rewrite reverse_involutive. split; [|done].
    by rewrite fmap_reverse, elem_of_reverse in Hnot.
  - destruct Hfound as (seen & e & rest & Hl & Hid & Hnot & ->).
    right. exists (reverse rest), e, (reverse seen). repeat split; [|done|..].
    + rewrite <- (reverse_involutive l), Hl.
      by rewrite reverse_app, reverse_cons, <- app_assoc.
    + by rewrite fmap_reverse, elem_of_reverse.
    + by rewrite reverse_app.
Qed.

(** ** Order *)

Lemma front_all_earlier front r :
  ascending front ->
  match last front with None => True | Some e => timeLt e r end ->
  Forall (fun a => timeLt a r) front.
Proof.
  intros Hasc Hlast. destruct (last front) as [e|] eqn:Hl.
  - apply last_Some in Hl as [front' ->].
    apply StronglySorted_app in Hasc as (Hcross & _ & _).
    apply Forall_app. split; [|by repeat constructor].
    apply Forall_forall. intros a Ha.
    apply timeLe_timeLt_trans with e; [|done].
    apply Hcross; [done|]. apply list_elem_of_singleton. done.
  - apply last_None in Hl as ->. constructor.
Qed.

(** An [Insert] that does not panic keeps the queue in ascending order. *)
Lemma Insert_ascending wr r wr' :
  ascending (rounds wr) -> Insert wr r = Ok wr' -> ascending (rounds wr').
Proof.
  intros Hasc Hins. destruct (decide (State r = QUEUED)) as [Hq|Hq].
  - destruct (Insert_queued_Ok _ _ _ Hq Hins)
      as (front & behind & Hold & -> & Hbehind & Hlast).
    rewrite Hold in Hasc.
    pose proof Hasc as (Hcross & Hfront & Hback)%StronglySorted_app.
    pose proof (front_all_earlier _ r Hfront Hlast) as Hearlier.
    apply StronglySorted_app. repeat split; [|done|by constructor].
    intros a b Ha [->|Hb]%elem_of_cons.
    + apply timeLt_timeLe. by eapply Forall_forall in Hearlier.
    + by apply Hcross.
  - rewrite Insert_not_queued_eq in Hins by done. injection Hins as <-.
    destruct (remove_spec wr r) as [[_ ->]|Hrem]; [done|].
    destruct Hrem as (front & e & behind & Hold & _ & _ & ->). simpl.
    rewrite Hold in Hasc.
    apply StronglySorted_app in Hasc as (Hcross & Hfront & Hback).
    apply StronglySorted_app. repeat split; [|done|by inversion Hback].
    intros a b Ha Hb. apply Hcross; [done|]. by apply elem_of_cons; right.
Qed.

(** Whatever the rounds inserted, a sequence of [Insert] calls that runs to
    its end leaves the queue in ascending order. *)
Lemma InsertAll_ascending rs wr wr' :
  ascending (rounds wr) -> InsertAll wr rs = Ok wr' -> ascending (rounds wr').
Proof.
  revert wr. induction rs as [|r rs IH]; intros wr Hasc Hrun; simpl in Hrun.
  - by injection Hrun as <-.
  - destruct (Insert wr r) as [wr1| |] eqn:Hins; simpl in Hrun; try discriminate.
    eapply IH; [|done]. by eapply Insert_ascending.
Qed.

Lemma Insert_total wr r :
  (State r = QUEUED -> exists t, getTime r = Ok t) ->
  allTimed (rounds wr) ->
  exists wr', Insert wr r = Ok wr' /\ allTimed (rounds wr').
Proof.
  intros Hr Hall. destruct (decide (State r = QUEUED)) as [Hq|Hq].
  - destruct (insertLoop_total r (reverse (rounds wr)) (Hr Hq)) as [back' Hloop].
    { by apply Forall_reverse. }
    assert (Insert wr r = Ok {| rounds := reverse back' |}) as Hins.
    { unfold Insert. rewrite (proj2 (N.eqb_eq _ _) Hq), Hloop. done. }
    eexists. split; [done|].
    destruct (Insert_queued_Ok _ _ _ Hq Hins) as (front & behind & Hold & -> & _).
    unfold allTimed in *. rewrite Hold in Hall.
    apply Forall_app in Hall as [Hf Hb].
    apply Forall_app. split; [done|]. constructor; [by apply Hr|done].
  - rewrite Insert_not_queued_eq by done. eexists. split; [done|].
    destruct (remove_spec wr r) as [[_ ->]|Hrem]; [done|].
    destruct Hrem as (front & e & behind & Hold & _ & _ & ->). simpl.
    unfold allTimed in *. rewrite Hold in Hall.
    apply Forall_app in Hall as [Hf Hb]. apply Forall_app. split; [done|].
    by inversion Hb.
Qed.

Lemma InsertAll_total rs wr :
  (forall r, r ∈ rs -> State r = QUEUED -> exists t, getTime r = Ok t) ->
  allTimed (rounds wr) ->
  exists wr', InsertAll wr rs = Ok wr'.
Proof.
  revert wr. induction rs as [|r rs IH]; intros wr Hrs Hall; simpl.
  - by eexists.
  - destruct (Insert_total wr r) as (wr1 & -> & Hall1); [|done|].
    { apply Hrs. by left. }
    simpl. apply IH; [|done]. intros r' Hr'. apply Hrs. by right.
Qed.

(** C3. Ordering invariant: for every sequence of Insert calls whose
    QUEUED rounds carry a realtime timestamp (rounds in any other state may
    be mixed in), the calls all return and GetSlice() then gives the
    entries in non-decreasing order of realtime timestamp. *)
Theorem GetSlice_ascending rs :
  (forall r, r ∈ rs -> State r = QUEUED -> exists t, getTime r = Ok t) ->
  exists wr,
    InsertAll NewWaitingRounds rs = Ok wr /\ ascending (GetSlice wr).
Proof.
  intros Hrs.
  destruct (InsertAll_total rs NewWaitingRounds Hrs) as [wr Hrun]; [constructor|].
  exists wr. split; [done|].
  eapply InsertAll_ascending; [|done]. constructor.
Qed.

(** ** Removal *)

(** C7. Removal invariant: Insert with a round whose state is not QUEUED
    leaves the queue as it is when no entry has the round's id, and
    otherwise unlinks one entry with that id (the rearmost), so that Len()
    decreases by exactly 1. *)
Theorem Insert_not_queued_removes wr r :
  State r <> QUEUED ->
  ((ID r ∉ ids wr) -> Insert wr r = Ok wr) /\
  ((ID r ∈ ids wr) ->
   exists wr' front e behind,
     Insert wr r = Ok wr' /\
     rounds wr = front ++ e :: behind /\ ID e = ID r /\
     (ID r ∉ (ID <$> behind)) /\
     rounds wr' = front ++ behind /\
     S (Len wr') = Len wr).
Proof.
  intros Hq. rewrite Insert_not_queued_eq by done.
  destruct (remove_spec wr r) as [[Hnot ->]|Hrem].
  - split; [done|]. intros Hin. by destruct Hnot.
  - destruct Hrem as (front & e & behind & Hold & Hid & Hnot & ->). split.
    + intros Hno. destruct Hno. unfold ids. rewrite Hold, fmap_app, fmap_cons.
      apply elem_of_app. right. rewrite <- Hid. by left.
    + intros _. exists {| rounds := front ++ behind |}, front, e, behind.
      repeat split; [done..|].
      unfold Len. simpl. rewrite Hold, !length_app. simpl. lia.
Qed.

(** ** Entries per round id *)

Lemma Insert_queued_Permutation wr r wr' :
  State r = QUEUED -> Insert wr r = Ok wr' -> rounds wr' ≡ₚ r :: rounds wr.
Proof.
  intros Hq Hins.
  destruct (Insert_queued_Ok _ _ _ Hq Hins) as (front & behind & -> & -> & _).
  by rewrite Permutation_middle.
Qed.

Lemma Insert_NoDup wr r wr' :
  (State r = QUEUED -> ID r ∉ ids wr) ->
  Insert wr r = Ok wr' -> NoDup (ids wr) -> NoDup (ids wr').
Proof.
  intros Hfresh Hins Hnd. destruct (decide (State r = QUEUED)) as [Hq|Hq].
  - unfold ids. rewrite (Insert_queued_Permutation _ _ _ Hq Hins), fmap_cons.
    apply NoDup_cons. split; [by apply Hfresh|done].
  - rewrite Insert_not_queued_eq in Hins by done. injection Hins as <-.
    destruct (remove_spec wr r) as [[_ ->]|Hrem]; [done|].
    destruct Hrem as (front & e & behind & Hold & _ & _ & ->).
    unfold ids in *. simpl. rewrite Hold in Hnd.
    rewrite fmap_app in *. rewrite fmap_cons in Hnd.
    apply NoDup_app in Hnd as (Hf & Hcross & Hb).
    apply NoDup_app. repeat split; [done| |by apply NoDup_cons in Hb as [_ ?]].
    intros x Hx Hx'. apply (Hcross x Hx). by right.
Qed.

(** C1, as the code has it. An Insert of a QUEUED round never removes an
    entry: the queue afterwards holds the round and every old entry, so
    that inserting a QUEUED round whose id is present adds a second entry
    for that id. Only an Insert with another state removes an entry. The
    queue therefore holds at most one entry per round id after every
    sequence of Insert calls in which no round is inserted as QUEUED while
    an entry with its id is in the queue. *)
Theorem Insert_entries_per_id rs wr :
  InsertAll NewWaitingRounds rs = Ok wr ->
  (noRequeue NewWaitingRounds rs -> NoDup (ids wr)) /\
  (forall r wr',
     State r = QUEUED -> Insert wr r = Ok wr' ->
     rounds wr' ≡ₚ r :: rounds wr /\
     entriesFor (ID r) wr' = S (entriesFor (ID r) wr)).
Proof.
  intros Hrun. split.
  - assert (NoDup (ids NewWaitingRounds)) as Hnd by constructor.
    revert Hrun Hnd. generalize NewWaitingRounds as wr0. revert wr.
    induction rs as [|r rs IH]; intros wr wr0 Hrun Hnd Hno; simpl in *.
    + by injection Hrun as <-.
    + destruct Hno as [Hfresh Hno].
      destruct (Insert wr0 r) as [wr1| |] eqn:Hins; simpl in Hrun; try discriminate.
      eapply IH; [done| |done]. by eapply Insert_NoDup.
  - intros r wr' Hq Hins.
    pose proof (Insert_queued_Permutation _ _ _ Hq Hins) as Hperm.
    split; [done|]. unfold entriesFor. rewrite Hperm.
    by rewrite filter_cons_True.
Qed.

(** ** Position of a new round *)

(** C10, as the code has it. When Insert adds a QUEUED round to a queue in
    ascending order, every entry in front of the new round is strictly
    earlier and every entry behind it is not earlier: the entries whose
    timestamp equals that of the new round all come after it, a later
    arrival sorting before the earlier arrivals of the same timestamp. *)
Theorem Insert_queued_position wr r wr' :
  ascending (rounds wr) -> State r = QUEUED -> Insert wr r = Ok wr' ->
  exists front behind,
    rounds wr = front ++ behind /\ GetSlice wr' = front ++ r :: behind /\
    Forall (fun e => timeLt e r) front /\
    Forall (fun e => timeLe r e) behind.
Proof.
  intros Hasc Hq Hins.
  destruct (Insert_queued_Ok _ _ _ Hq Hins)
    as (front & behind & Hold & Hnew & Hbehind & Hlast).
  exists front, behind. repeat split; [done..| |done].
  apply front_all_earlier; [|done].
  rewrite Hold in Hasc. by apply StronglySorted_app in Hasc as (_ & ? & _).
Qed.

(** ** One call of GetUpcomingRealtime *)

Implicit Types (c : call) (tr : list label).

(** All the ways in which a step can have been taken. *)
Ltac step_cases Hstep :=
  unfold step, checkFurthest in Hstep;
  repeat case_match; simplify_eq; simpl in *;
  repeat match goal with
         | Hd : bool_decide _ = true |- _ => apply bool_decide_eq_true in Hd
         end.

Lemma run_app c tr1 tr2 :
  run c (tr1 ++ tr2) = c1 ← run c tr1; run c1 tr2.
Proof.
  revert c. induction tr1 as [|l tr1 IH]; intros c; simpl; [done|].
  destruct (step c l); simpl; [apply IH|done].
Qed.

(** Once the call has returned, its result stays. *)
Lemma step_Returned c l c' round err :
  step c l = Some c' -> caller c = Returned round err ->
  caller c' = Returned round err.
Proof.
  intros Hstep Hret. destruct c as [q pc w s t to cl]. simpl in Hret. subst pc.
  destruct l; step_cases Hstep; done.
Qed.

Lemma run_Returned tr c c' round err :
  run c tr = Some c' -> caller c = Returned round err ->
  caller c' = Returned round err.
Proof.
  revert c. induction tr as [|l tr IH]; intros c Hrun Hret; simpl in Hrun.
  - by injection Hrun as <-.
  - destruct (step c l) as [c1|] eqn:Hstep; [|done].
    eapply IH; [done|]. by eapply step_Returned.
Qed.

Lemma step_errorInv c l c' :
  step c l = Some c' -> timeout c' = timeout c /\ (errorInv c -> errorInv c').
Proof.
  intros Hstep. unfold errorInv. destruct c as [q pc w s t to cl].
  destruct l; step_cases Hstep; (split; [done|]); intros [Hclock Herr];
    (split; [|intros round err Hret; simplify_eq; eauto]).
  all: try done.
  - intros Ht. specialize (Hclock Ht). lia.
  - by destruct (Herr _ _ eq_refl) as (_ & _ & ?).
  - intros _. by apply Hclock.
Qed.

Lemma run_errorInv tr c c' :
  run c tr = Some c' -> errorInv c -> timeout c' = timeout c /\ errorInv c'.
Proof.
  revert c. induction tr as [|l tr IH]; intros c Hrun Hinv; simpl in Hrun.
  - by injection Hrun as <-.
  - destruct (step c l) as [c1|] eqn:Hstep; [|done].
    destruct (step_errorInv _ _ _ Hstep) as [Hto Hpres].
    destruct (IH _ Hrun (Hpres Hinv)) as [Hto' ?]. split; [congruence|done].
Qed.

Lemma step_idleInv c l c' :
  isInsert l = false -> step c l = Some c' -> idleInv c -> idleInv c'.
Proof.
  intros Hl Hstep (Hq & Hw & Hsig & Hpc & Htimer & Hret). unfold idleInv.
  destruct c as [q pc w s t to cl]. simpl in *. subst s.
  destruct l; try discriminate Hl; step_cases Hstep;
    unfold getFurthest in *; simpl in *; simplify_eq;
    repeat split; try done; try (intuition congruence); eauto.
  all: try (by edestruct Hret as [? ?]).
  all: try (rewrite Hq in *; discriminate).
  all: intros Hd; specialize (Htimer Hd); unfold hasReturned in Htimer;
    simpl in Htimer; by destruct pc.
Qed.

Lemma run_idleInv tr c c' :
  noInsert tr -> run c tr = Some c' -> idleInv c -> idleInv c'.
Proof.
  unfold noInsert. revert c.
  induction tr as [|l tr IH]; intros c Hno Hrun Hinv; simpl in *.
  - by injection Hrun as <-.
  - apply andb_prop in Hno as [Hl Hno]. apply negb_true_iff in Hl.
    destruct (step c l) as [c1|] eqn:Hstep; [|done].
    eapply IH; [done..|]. by eapply step_idleInv.
Qed.

(** From a state with an empty queue, a schedule without [Insert] leads
    the call to its timed-out return. *)
Lemma idle_progress c :
  idleInv c ->
  exists tr' c',
    noInsert tr' /\ run c tr' = Some c' /\
    caller c' = Returned None (Some timeOutError).
Proof.
  intros (Hq & Hw & Hsig & Hpc & Htimer & Hret).
  assert (forall c0, caller c0 = AtSelect -> timer c0 <> Drained ->
            exists tr' c', noInsert tr' /\ run c0 tr' = Some c' /\
              caller c' = Returned None (Some timeOutError)) as Hselect.
  { intros c0 Hc0 Ht0. destruct (timer c0) eqn:Ht; [| |done].
    - exists [Tick (Z.max 0 (timeout c0 - clock c0)); TimerFires; SelectTimer].
      eexists. split; [done|]. simpl.
      rewrite bool_decide_true by lia. simpl. rewrite Ht.
      rewrite bool_decide_true by lia. simpl. rewrite Hc0. done.
    - exists [SelectTimer]. eexists. split; [done|]. simpl.
      rewrite Hc0, Ht. done. }
  destruct (caller c) as [| | |round err] eqn:Hc.
  - destruct (Hselect (mkCall (queue c) AtSelect (waiter c) (sig c) (timer c)
                              (timeout c) (clock c)))
      as (tr' & c' & Hno & Hrun & Hdone); [done| |].
    { simpl. intros Hd. specialize (Htimer Hd). unfold hasReturned in Htimer.
      by rewrite Hc in Htimer. }
    exists (CallerCheck :: tr'), c'. split; [done|]. split; [|done].
    simpl. rewrite Hc. simpl. unfold checkFurthest, getFurthest.
    rewrite Hq. done.
  - apply Hselect; [done|]. intros Hd. specialize (Htimer Hd).
    unfold hasReturned in Htimer. by rewrite Hc in Htimer.
  - done.
  - destruct (Hret round err eq_refl) as [-> ->]. by exists [], c.
Qed.

(** C4, as the code has it. (1) If the queue is empty and no round is
    inserted, GetUpcomingRealtime can only return a nil round with the
    timed-out error, and it does return it once the timer has fired.
    (2) Whenever the call returns an error, the error is the timed-out
    error, the round is nil, the timeout has elapsed, and every check of
    the queue that the call made, on entry and after each wake-up, found
    the queue empty; a round inserted since the last check may be in the
    queue at that moment. No other operation of WaitingRounds has an error
    result. *)
Theorem GetUpcomingRealtime_timed_out wr timeout tr c :
  run (GetUpcomingRealtime wr timeout) tr = Some c ->
  (rounds wr = [] -> noInsert tr ->
     (forall round err, caller c = Returned round err ->
        round = None /\ err = Some timeOutError) /\
     (exists tr' c',
        noInsert tr' /\ run c tr' = Some c' /\
        caller c' = Returned None (Some timeOutError))) /\
  (forall round err, caller c = Returned round (Some err) ->
     err = timeOutError /\ round = None /\ (timeout <= clock c)%Z /\
     forall tr1 tr2 c1,
       tr = tr1 ++ CallerCheck :: tr2 ->
       run (GetUpcomingRealtime wr timeout) tr1 = Some c1 ->
       rounds (queue c1) = []).
Proof.
  intros Hrun. split.
  - intros Hempty Hno.
    assert (idleInv c) as Hinv.
    { eapply run_idleInv; [done..|]. unfold idleInv. simpl.
      repeat split; try done; auto. }
    split; [apply Hinv|by apply idle_progress].
  - intros round err Hret.
    destruct (run_errorInv _ _ _ Hrun) as [Hto [Hclock Herr]].
    { split; simpl; [done|]. intros ?? [=]. }
    destruct (Herr _ _ Hret) as (-> & -> & Hdrained).
    repeat split; [|].
    + simpl in Hto. rewrite <- Hto. apply Hclock. by rewrite Hdrained.
    + intros tr1 tr2 c1 -> Hrun1.
      rewrite run_app, Hrun1 in Hrun. simpl in Hrun.
      destruct (isChecking (caller c1)); [|done].
      destruct (rounds (queue c1)) as [|e l] eqn:Hq; [done|]. exfalso.
      destruct (last (e :: l)) as [x|] eqn:Hlast; [|by apply last_None in Hlast].
      eapply run_Returned in Hrun;
        [|simpl; unfold checkFurthest, getFurthest; by rewrite Hq, Hlast].
      congruence.
Qed.

(** A goroutine that enlisted after the broadcast is not woken: with it
    parked, [sig] empty and the caller in its select, no schedule without a
    further [Insert] lets the call return a round; it can only time out. *)
Lemma unwoken_only_times_out tr c c' :
  waiter c = Waiting -> sig c = false -> caller c = AtSelect ->
  noInsert tr -> run c tr = Some c' ->
  caller c' = AtSelect \/ caller c' = Returned None (Some timeOutError).
Proof.
  unfold noInsert. revert c.
  induction tr as [|l tr IH]; intros c Hw Hsig Hpc Hno Hrun; simpl in *.
  - injection Hrun as <-. by left.
  - apply andb_prop in Hno as [Hl Hno]. apply negb_true_iff in Hl.
    destruct (step c l) as [c1|] eqn:Hstep; [|done].
    destruct c as [q pc w s t to cl]. simpl in *. subst pc w s.
    destruct l; try discriminate Hl; step_cases Hstep;
      try (by eapply IH; eauto).
    right. by eapply run_Returned.
Qed.

(** C5. Whenever the queue, as a sequence of Insert calls left it, is not
    empty, the first thing GetUpcomingRealtime does is to return, without
    error, the last element of GetSlice(); every other entry has a
    realtime timestamp no larger than that of the returned round, which is
    thus the one furthest in the future. The call does not wait. *)
Theorem GetUpcomingRealtime_furthest rs wr timeout :
  InsertAll NewWaitingRounds rs = Ok wr -> GetSlice wr <> [] ->
  exists others round c',
    GetSlice wr = others ++ [round] /\
    Forall (fun e => timeLe e round) others /\
    step (GetUpcomingRealtime wr timeout) CallerCheck = Some c' /\
    caller c' = Returned (Some round) None /\
    step (GetUpcomingRealtime wr timeout) SelectTimer = None /\
    step (GetUpcomingRealtime wr timeout) SelectSig = None.
Proof.
  intros Hrun Hne. unfold GetSlice in *.
  destruct (last (rounds wr)) as [round|] eqn:Hlast;
    [|by apply last_None in Hlast].
  pose proof Hlast as [others Hsplit]%last_Some.
  exists others, round. eexists. repeat split; [done| |simpl..].
  - assert (ascending (rounds wr)) as Hasc.
    { eapply InsertAll_ascending; [|done]. constructor. }
    rewrite Hsplit in Hasc.
    apply StronglySorted_app in Hasc as (Hcross & _ & _).
    apply Forall_forall. intros e He. apply Hcross; [done|].
    by apply list_elem_of_singleton.
  - unfold checkFurthest, getFurthest. by rewrite Hlast.
Qed.

(** ** Further properties of the queue *)

(** When the insertion loop panics: some timestamp it had to read is
    missing, that of the new round or that of an entry it reached. *)
Lemma insertLoop_Panic r back :
  insertLoop r back = Panic <->
  back <> [] /\
  (getTime r = Panic \/
   exists seen e rest,
     back = seen ++ e :: rest /\ getTime e = Panic /\ Forall (timeLe r) seen).
Proof.
  induction back as [|e prev IH]; simpl.
  - split; [done|]. by intros [? _].
  - destruct (getTime r) as [tn| |] eqn:Htn; simpl.
    + destruct (getTime e) as [te| |] eqn:Hte; simpl.
      * destruct (te <? tn) eqn:Hcmp.
        -- split; [done|]. intros [_ [?|(seen & e' & rest & Heq & He' & Hseen)]]; [done|].
           destruct seen as [|e0 seen]; simplify_eq/=; [congruence|].
           apply Forall_cons in Hseen as [(tn' & te' & Hn & He & Hle) _].
           apply N.ltb_lt in Hcmp. rewrite Htn in Hn. rewrite Hte in He.
           simplify_eq. lia.
        -- apply N.ltb_ge in Hcmp.
           destruct (insertLoop r prev) as [prev'| |] eqn:Hloop; simpl.
           ++ split; [done|].
              intros [_ [?|(seen & e' & rest & Heq & He' & Hseen)]]; [done|].
              destruct seen as [|e0 seen]; simplify_eq/=; [congruence|].
              apply Forall_cons in Hseen as [_ Hseen].
              assert (Ok prev' = Panic) as Habs; [|done].
              apply IH. split; [by destruct seen|].
              right. by exists seen, e', rest.
           ++ split; [|done]. intros _. split; [done|].
              destruct (proj1 IH eq_refl)
                as [_ [?|(seen & e' & rest & Hprev & He' & Hseen)]]; [done|].
              right. exists (e :: seen), e', rest.
              split; [by rewrite Hprev|]. split; [done|].
              constructor; [|done]. by exists tn, te.
           ++ split; [done|].
              intros [_ [?|(seen & e' & rest & Heq & He' & Hseen)]]; [done|].
              destruct seen as [|e0 seen]; simplify_eq/=; [congruence|].
              apply Forall_cons in Hseen as [_ Hseen].
              assert (@Blocked (list RoundInfo) = Panic) as Habs; [|done].
              apply IH. split; [by destruct seen|].
              right. by exists seen, e', rest.
      * split; [|done]. intros _. split; [done|]. right. by exists [], e, prev.
      * unfold getTime, index in Hte. by destruct (_ !! _).
    + split; [|done]. intros _. split; [done|]. by left.
    + unfold getTime, index in Htn. by destruct (_ !! _).
Qed.

Lemma insertLoop_not_Blocked r back : insertLoop r back <> Blocked.
Proof.
  induction back as [|e prev IH]; simpl; [done|].
  destruct (getTime r) as [tn| |] eqn:Htn; simpl; [|done|].
  - destruct (getTime e) as [te| |] eqn:Hte; simpl; [|done|].
    + destruct (te <? tn); [done|].
      by destruct (insertLoop r prev).
    + unfold getTime, index in Hte. by destruct (_ !! _).
  - unfold getTime, index in Htn. by destruct (_ !! _).
Qed.

(** X1. Insert never blocks, and it panics exactly when the round is
    QUEUED, the queue is not empty, and a realtime timestamp that the loop
    has to read is missing: that of the new round, or that of an entry all
    of whose successors are not earlier than the new round. In particular
    an Insert into the empty queue, and an Insert of a round that is not
    QUEUED, never panic. *)
Theorem Insert_panics wr r :
  Insert wr r <> Blocked /\
  (Insert wr r = Panic <->
   State r = QUEUED /\ rounds wr <> [] /\
   (getTime r = Panic \/
    exists front e behind,
      rounds wr = front ++ e :: behind /\ getTime e = Panic /\
      Forall (timeLe r) behind)).
Proof.
  unfold Insert. destruct (decide (State r = QUEUED)) as [Hq|Hq].
  - rewrite (proj2 (N.eqb_eq _ _) Hq).
    pose proof (insertLoop_Panic r (reverse (rounds wr))) as Hp.
    pose proof (insertLoop_not_Blocked r (reverse (rounds wr))) as Hb.
    destruct (insertLoop r (reverse (rounds wr))) as [back'| |] eqn:Hloop; simpl.
    + split; [done|]. split; [done|].
      intros (_ & Hne & Hmiss). assert (Ok back' = Panic) as Habs; [|done].
      apply Hp. split.
      { intros Hnil. apply Hne. by rewrite <- (reverse_involutive (rounds wr)), Hnil. }
      destruct Hmiss as [?|(front & e & behind & Hold & He & Hall)]; [by left|].
      right. exists (reverse behind), e, (reverse front). repeat split; [|done|].
      * by rewrite Hold, reverse_app, reverse_cons, <- app_assoc.
      * by apply Forall_reverse.
    + split; [done|]. split; [|done]. intros _.
      destruct (proj1 Hp eq_refl) as [Hne Hmiss]. repeat split; [done| |].
      { intros Hnil. apply Hne. by rewrite Hnil. }
      destruct Hmiss as [?|(seen & e & rest & Hback & He & Hall)]; [by left|].
      right. exists (reverse rest), e, (reverse seen). repeat split; [|done|].
      * rewrite <- (reverse_involutive (rounds wr)), Hback.
        by rewrite reverse_app, reverse_cons, <- app_assoc.
      * by apply Forall_reverse.
    + done.
  - rewrite (proj2 (N.eqb_neq _ _) Hq). split; [done|]. split; [done|].
    by intros [? _].
Qed.

Lemma removeLoop_first r back e rest :
  Forall (fun x => ID x <> ID r) back -> ID e = ID r ->
  removeLoop r (back ++ e :: rest) = back ++ rest.
Proof.
  intros Hback He. induction Hback as [|x back Hx _ IH]; simpl.
  - by rewrite (proj2 (N.eqb_eq _ _) He).
  - rewrite (proj2 (N.eqb_neq _ _) Hx). by rewrite IH.
Qed.

(** X2. Insert and removal compose to the identity: after a QUEUED round
    whose id is not in the queue has been inserted, an Insert of a round
    with the same id and any other state gives back the queue as it
    was. *)
Theorem Insert_then_remove wr r wr1 r' :
  State r = QUEUED -> (ID r ∉ ids wr) -> Insert wr r = Ok wr1 ->
  State r' <> QUEUED -> ID r' = ID r ->
  Insert wr1 r' = Ok wr.
Proof.
  intros Hq Hfresh Hins Hq' Hid.
  destruct (Insert_queued_Ok _ _ _ Hq Hins) as (front & behind & Hold & Hnew & _).
  rewrite Insert_not_queued_eq by done. f_equal.
  unfold remove. rewrite Hnew, reverse_app, reverse_cons, <- app_assoc. simpl.
  rewrite removeLoop_first; [| |done].
  - rewrite <- reverse_app, reverse_involutive, <- Hold. by destruct wr.
  - apply Forall_forall. intros x Hx Heq. rewrite elem_of_reverse in Hx.
    apply Hfresh.
    unfold ids. rewrite Hold, fmap_app. apply elem_of_app. right.
    rewrite <- Hid, <- Heq. by apply list_elem_of_fmap_2.
Qed.

(** X3. The furthest round after an Insert of a QUEUED round: the new
    round if the queue was empty or the new round is strictly later than
    the furthest one, and the old furthest round otherwise, a tie
    included. *)
Theorem getFurthest_Insert wr r wr' :
  State r = QUEUED -> Insert wr r = Ok wr' ->
  (getFurthest wr = None -> getFurthest wr' = Some r) /\
  (forall e, getFurthest wr = Some e ->
     (timeLt e r -> getFurthest wr' = Some r) /\
     (timeLe r e -> getFurthest wr' = Some e)).
Proof.
  intros Hq Hins. unfold getFurthest.
  destruct (Insert_queued_Ok _ _ _ Hq Hins)
    as (front & behind & Hold & Hnew & Hbehind & Hlast).
  rewrite Hold, Hnew. split.
  - intros [-> ->]%last_None%app_eq_nil. done.
  - intros e He. destruct behind as [|b behind _] using rev_ind.
    + rewrite app_nil_r in He. rewrite He in Hlast. rewrite last_snoc.
      split; [done|]. intros (tn & te & Hn & Hte & Hle).
      destruct Hlast as (te' & tn' & Hte' & Hn' & Hlt).
      rewrite Hn in Hn'. rewrite Hte in Hte'.
      injection Hn' as <-. injection Hte' as <-. lia.
    + rewrite app_assoc, last_snoc in He. injection He as ->.
      change (front ++ r :: behind ++ [e]) with (front ++ (r :: behind) ++ [e]).
      rewrite app_assoc, last_snoc.
      split; [|done]. intros (te & tn & Hte & Hn & Hlt).
      apply Forall_app in Hbehind as [_ Hb].
      apply Forall_cons in Hb as [(tn' & te' & Hn' & Hte' & Hle) _].
      rewrite Hn in Hn'. rewrite Hte in Hte'.
      injection Hn' as <-. injection Hte' as <-. lia.
Qed.

(** X4. Insert neither drops nor reorders the other entries: after an
    Insert of a QUEUED round the old queue is the new one with the new
    round taken out, and after any other Insert the new queue is a
    subsequence of the old one that keeps every entry of another id. *)
Theorem Insert_keeps_others wr r wr' :
  Insert wr r = Ok wr' ->
  (State r = QUEUED ->
   rounds wr `sublist_of` rounds wr' /\ Len wr' = S (Len wr)) /\
  (State r <> QUEUED ->
   rounds wr' `sublist_of` rounds wr /\
   filter (fun e => ID e <> ID r) (rounds wr') =
   filter (fun e => ID e <> ID r) (rounds wr)).
Proof.
  intros Hins. split; intros Hq.
  - destruct (Insert_queued_Ok _ _ _ Hq Hins) as (front & behind & Hold & Hnew & _).
    unfold Len. rewrite Hold, Hnew. split.
    + apply sublist_app; [done|]. by apply sublist_cons.
    + rewrite !length_app. simpl. lia.
  - rewrite Insert_not_queued_eq in Hins by done. injection Hins as <-.
    destruct (remove_spec wr r) as [[_ ->]|Hrem]; [done|].
    destruct Hrem as (front & e & behind & -> & Hid & _ & ->). simpl. split.
    + apply sublist_app; [done|]. by apply sublist_cons.
    + rewrite !filter_app. f_equal. by rewrite filter_cons_False by tauto.
Qed.

(** X5. An entry without a realtime timestamp is alone: after every
    sequence of Insert calls that does not panic, either every entry of
    the queue has a realtime timestamp or the queue has exactly one entry;
    and while that one entry has none, every Insert of a QUEUED round
    panics. *)
Theorem untimed_entry_alone rs wr :
  InsertAll NewWaitingRounds rs = Ok wr ->
  (allTimed (rounds wr) \/ exists e, rounds wr = [e]) /\
  (forall e r, rounds wr = [e] -> getTime e = Panic -> State r = QUEUED ->
     Insert wr r = Panic).
Proof.
  intros Hrun. split.
  - assert (allTimed (rounds NewWaitingRounds) \/
            exists e, rounds NewWaitingRounds = [e]) as Hinv by (left; constructor).
    revert Hrun Hinv. generalize NewWaitingRounds as wr0.
    induction rs as [|r rs IH]; intros wr0 Hrun Hinv; simpl in Hrun.
    { by injection Hrun as <-. }
    destruct (Insert wr0 r) as [wr1| |] eqn:Hins; simpl in Hrun; try discriminate.
    apply (IH _ Hrun). clear IH Hrun.
    destruct (decide (State r = QUEUED)) as [Hq|Hq].
    + destruct (Insert_queued_Ok _ _ _ Hq Hins)
        as (front & behind & Hold & Hnew & Hbehind & Hlast).
      destruct (rounds wr0) as [|e0 l0] eqn:Hwr0.
      { symmetry in Hold. apply app_eq_nil in Hold as [-> ->].
        right. by exists r. }
      left. unfold allTimed.
      assert (exists t, getTime r = Ok t) as Hr.
      { destruct behind as [|b behind].
        - destruct (last front) as [x|] eqn:Hx.
          + destruct Hlast as (? & tn & _ & ? & _). by exists tn.
          + apply last_None in Hx. subst front. done.
        - apply Forall_cons in Hbehind as [(tn & ? & ? & _) _]. by exists tn. }
      assert (Forall (fun e => exists t, getTime e = Ok t) (e0 :: l0)) as Hall.
      { destruct Hinv as [Hall|[e He]]; [done|]. injection He as -> ->.
        constructor; [|done].
        destruct front as [|f front]; simpl in Hold.
        - subst behind. apply Forall_cons in Hbehind as [(? & te & _ & ? & _) _].
          by exists te.
        - injection Hold as <- Hrest. symmetry in Hrest.
          apply app_eq_nil in Hrest as [-> ->].
          destruct Hlast as (te & ? & ? & _). by exists te. }
      rewrite Hnew. rewrite Hold in Hall. apply Forall_app in Hall as [Hf Hb].
      apply Forall_app. split; [done|]. by constructor.
    + rewrite Insert_not_queued_eq in Hins by done. injection Hins as <-.
      destruct (remove_spec wr0 r) as [[_ ->]|Hrem]; [done|].
      destruct Hrem as (front & e & behind & Hold & _ & _ & ->). simpl.
      destruct Hinv as [Hall|[e0 He0]].
      * left. unfold allTimed in *. rewrite Hold in Hall.
        apply Forall_app in Hall as [Hf Hb]. apply Forall_cons in Hb as [_ Hb].
        by apply Forall_app.
      * rewrite He0 in Hold. left.
        destruct front as [|f front]; simpl in Hold.
        -- injection Hold as _ <-. constructor.
        -- injection Hold as _ Hrest. by destruct front.
  - intros e r He Hpanic Hq. unfold Insert.
    rewrite (proj2 (N.eqb_eq _ _) Hq), He.
    assert (insertLoop r (reverse [e]) = Panic) as ->; [|done].
    apply insertLoop_Panic. split; [done|].
    destruct (getTime r) as [tn| |] eqn:Hr; [|by left|].
    + right. exists [], e, []. repeat split; [done|constructor].
    + unfold getTime, index in Hr. by destruct (_ !! _).
Qed.

(** ** Further properties of a call *)

Lemma step_signals c l c' :
  (waiter c <> Exited -> sig c = false) -> step c l = Some c' ->
  (countOf isSelectSig [l] + signalsLeft c' <= signalsLeft c)%nat /\
  (waiter c' <> Exited -> sig c' = false) /\
  (countOf isCallerCheck [l] + checksDue c' <=
   checksDue c + countOf isSelectSig [l])%nat.
Proof.
  intros Hsig Hstep. destruct c as [q pc w s t to cl]. simpl in Hsig.
  unfold signalsLeft, checksDue, countOf.
  destruct l; step_cases Hstep; repeat split;
    try done; try lia; try (by destruct w; simpl; try lia; auto);
    try (by destruct w, s; simpl; auto; try lia; discriminate (Hsig ltac:(done))).
  all: destruct pc; simpl in *; try done; try lia.
  all: destruct (last (rounds q)); simpl; lia.
Qed.

Lemma run_signals tr c c' :
  (waiter c <> Exited -> sig c = false) -> run c tr = Some c' ->
  (countOf isSelectSig tr + signalsLeft c' <= signalsLeft c)%nat /\
  (countOf isCallerCheck tr + checksDue c' <=
   checksDue c + countOf isSelectSig tr)%nat.
Proof.
  revert c. induction tr as [|l tr IH]; intros c Hsig Hrun; simpl in Hrun.
  - injection Hrun as <-. unfold countOf. simpl. lia.
  - destruct (step c l) as [c1|] eqn:Hstep; [|done].
    destruct (step_signals _ _ _ Hsig Hstep) as (Hs1 & Hsig1 & Hc1).
    destruct (IH _ Hsig1 Hrun) as [Hs Hc].
    unfold countOf in *. simpl in *.
    destruct (isSelectSig l), (isCallerCheck l); simpl in *; lia.
Qed.

(** X6. The goroutine of a call waits on the condition once and sends one
    signal: in every schedule the call takes the sig case of its select at
    most once, and so checks the queue at most twice, on entry and after
    that one signal. *)
Theorem GetUpcomingRealtime_one_signal wr timeout tr c :
  run (GetUpcomingRealtime wr timeout) tr = Some c ->
  (countOf isSelectSig tr <= 1)%nat /\ (countOf isCallerCheck tr <= 2)%nat.
Proof.
  intros Hrun.
  destruct (run_signals tr (GetUpcomingRealtime wr timeout) c) as [Hs Hc];
    [done..|].
  unfold signalsLeft, checksDue in *. simpl in *. lia.
Qed.

Lemma step_returns c l c' :
  hasReturned c = false -> step c l = Some c' -> hasReturned c' = true ->
  (l = SelectTimer /\ caller c' = Returned None (Some timeOutError)) \/
  (l = CallerCheck /\ exists round,
     getFurthest (queue c) = Some round /\
     caller c' = Returned (Some round) None).
Proof.
  intros Hnot Hstep Hret. destruct c as [q pc w s t to cl].
  unfold hasReturned in *. simpl in *.
  destruct l; step_cases Hstep; try (by rewrite Hnot in Hret); auto.
  all: try (right; split; [done|]; simplify_eq; by eexists).
  all: by left.
Qed.

(** X7. What a call can return: the nil round with the timed-out error, or
    without error a round that was the furthest one of the queue at a
    check the call made. It never returns a round together with an error,
    nor a nil round without one. *)
Theorem GetUpcomingRealtime_returns wr timeout tr c round err :
  run (GetUpcomingRealtime wr timeout) tr = Some c ->
  caller c = Returned round err ->
  (round = None /\ err = Some timeOutError) \/
  (err = None /\ exists r tr1 tr2 c1,
     round = Some r /\ tr = tr1 ++ CallerCheck :: tr2 /\
     run (GetUpcomingRealtime wr timeout) tr1 = Some c1 /\
     getFurthest (queue c1) = Some r).
Proof.
  assert (hasReturned (GetUpcomingRealtime wr timeout) = false) as Hnot by done.
  revert Hnot. generalize (GetUpcomingRealtime wr timeout) as c0.
  induction tr as [|l tr IH]; intros c0 Hnot Hrun Hret; simpl in Hrun.
  - injection Hrun as <-. unfold hasReturned in Hnot. by rewrite Hret in Hnot.
  - destruct (step c0 l) as [c1|] eqn:Hstep; [|done].
    destruct (hasReturned c1) eqn:Hc1.
    + destruct (step_returns _ _ _ Hnot Hstep Hc1)
        as [[-> Hto]|[-> (r & Hr & Hround)]].
      * left. rewrite (run_Returned _ _ _ _ _ Hrun Hto) in Hret.
        by injection Hret as <- <-.
      * right. rewrite (run_Returned _ _ _ _ _ Hrun Hround) in Hret.
        injection Hret as <- <-. split; [done|]. by exists r, [], tr, c0.
    + destruct (IH _ Hc1 Hrun Hret)
        as [?|(-> & r & tr1 & tr2 & c2 & -> & -> & Hrun1 & Hr)]; [by left|].
      right. split; [done|]. exists r, (l :: tr1), tr2, c2.
      repeat split; [|done]. simpl. by rewrite Hstep.
Qed.

(** X8. A wake-up that arrives: with the caller in its select and the
    goroutine parked on the condition, an Insert of a QUEUED round wakes
    the goroutine, and once it has sent its signal and the select has
    taken it, the check returns the furthest round of the queue without
    error. *)
Theorem GetUpcomingRealtime_woken c r wr' :
  caller c = AtSelect -> waiter c = Waiting -> sig c = false ->
  State r = QUEUED -> Insert (queue c) r = Ok wr' ->
  exists c' round,
    run c [InsertBy r; WaiterSend; SelectSig; CallerCheck] = Some c' /\
    getFurthest wr' = Some round /\
    caller c' = Returned (Some round) None.
Proof.
  intros Hpc Hw Hsig Hq Hins.
  destruct (Insert_queued_Ok _ _ _ Hq Hins) as (front & behind & _ & Hnew & _).
  destruct (getFurthest wr') as [round|] eqn:Hround.
  - eexists _, round. split; [|split; [done|]].
    + simpl. rewrite Hins. unfold broadcasts.
      rewrite (proj2 (N.eqb_eq _ _) Hq), Hw, Hpc. simpl.
      unfold checkFurthest. rewrite Hround. done.
    + done.
  - unfold getFurthest in Hround. apply last_None in Hround.
    rewrite Hnew in Hround. by destruct front.
Qed.

End WaitingRoundsProperties.

(** * Properties of RoundEvents *)

Section RoundEventsProperties.

Import RoundEvents.
Context `{Primitives}.

Implicit Types (r : RoundEvents) (e x : eventCallback) (st : system).

Lemma index_Ok {A} (xs : list A) i y : index xs i = Ok y <-> xs !! i = Some y.
Proof. unfold index. destruct (xs !! i); split; congruence. Qed.

Lemma bind_Ok {A B} (m : result A) (k : A -> result B) b :
  m ≫= k = Ok b <-> exists a, m = Ok a /\ k a = Ok b.
Proof.
  destruct m as [a| |]; simpl; (split; [|by intros (a' & [= <-] & Hk)]).
  - intros Hk. by exists a.
  - done.
  - done.
Qed.

Lemma bucketOf_absent r rid s :
  callbacks r !! rid = None -> bucketOf r rid s = ∅.
Proof. intros Hnone. unfold bucketOf. rewrite Hnone. simpl. by destruct s. Qed.

Lemma bucketOf_present r rid arr s :
  callbacks r !! rid = Some arr -> bucketOf r rid s = default ∅ (arr !! s).
Proof. intros Hsome. unfold bucketOf. by rewrite Hsome. Qed.

(** ** remove *)

Lemma deleteEvent_Ok rid e r s r' :
  wf r -> deleteEvent rid e r s = Ok r' ->
  (s < NUM_STATES)%nat /\ wf r' /\
  (forall rid', is_Some (callbacks r' !! rid') <-> is_Some (callbacks r !! rid')) /\
  (forall rid' s',
     bucketOf r' rid' s' =
     if decide (rid' = rid /\ s' = s) then delete (addr e) (bucketOf r rid' s')
     else bucketOf r rid' s').
Proof.
  intros Hwf Hdel. unfold deleteEvent in Hdel.
  destruct (callbacks r !! rid) as [arr|] eqn:Harr.
  - apply bind_Ok in Hdel as (m & Hm%index_Ok & [= <-]).
    pose proof (lookup_lt_Some _ _ _ Hm) as Hlt.
    rewrite (Hwf _ _ Harr) in Hlt. split; [done|]. split; [|split].
    + intros rid' arr'. simpl. rewrite lookup_insert.
      case_decide as Hrid; [|by apply Hwf].
      intros [= <-]. rewrite length_insert. by eapply Hwf.
    + intros rid'. simpl. rewrite lookup_insert.
      case_decide as Hrid; [|done]. subst. by rewrite Harr.
    + intros rid' s'. unfold bucketOf at 1. simpl. rewrite lookup_insert.
      case_decide as Hrid; simpl.
      * subst rid'. rewrite (bucketOf_present _ _ _ _ Harr).
        destruct (decide (s' = s)) as [->|Hs].
        -- rewrite decide_True by done.
           rewrite list_lookup_insert_eq by by eapply lookup_lt_Some.
           by rewrite Hm.
        -- rewrite decide_False by (intros [? ?]; congruence).
           by rewrite list_lookup_insert_ne.
      * by rewrite decide_False by (intros [? ?]; congruence).
  - apply bind_Ok in Hdel as (m & Hm%index_Ok & [= <-]).
    apply lookup_replicate in Hm as [_ Hlt]. repeat split; [done..|].
    intros rid' s'. case_decide as Hcase; [|done].
    destruct Hcase as [-> ->]. rewrite (bucketOf_absent _ _ _ Harr).
    by rewrite delete_empty.
Qed.

Lemma deleteEvents_Ok rid e ss r r' :
  wf r -> forEach (deleteEvent rid e) ss r = Ok r' ->
  Forall (fun s => (s < NUM_STATES)%nat) ss /\ wf r' /\
  (forall rid', is_Some (callbacks r' !! rid') <-> is_Some (callbacks r !! rid')) /\
  (forall rid' s',
     bucketOf r' rid' s' =
     if decide (rid' = rid /\ s' ∈ ss) then delete (addr e) (bucketOf r rid' s')
     else bucketOf r rid' s').
Proof.
  revert r. induction ss as [|s ss IH]; intros r Hwf Hrun; simpl in Hrun.
  - injection Hrun as <-. repeat split; [done..|].
    intros rid' s'. rewrite decide_False; [done|].
    intros [_ Hin]. by apply not_elem_of_nil in Hin.
  - apply bind_Ok in Hrun as (r1 & Hdel & Hrun).
    destruct (deleteEvent_Ok _ _ _ _ _ Hwf Hdel) as (Hs & Hwf1 & Hdom1 & Hb1).
    destruct (IH _ Hwf1 Hrun) as (Hss & Hwf' & Hdom' & Hb').
    split; [by constructor|]. split; [done|]. split.
    + intros rid'. by rewrite Hdom', Hdom1.
    + intros rid' s'. rewrite Hb', Hb1.
      destruct (decide (rid' = rid)) as [->|Hrid];
        [|by rewrite !decide_False by (intros [? ?]; congruence)].
      destruct (decide (s' = s)) as [->|Hne].
      * rewrite (decide_True (P := _ /\ s = s)) by done.
        rewrite (decide_True (P := _ /\ s ∈ s :: ss)) by (split; [done|by left]).
        case_decide; [by rewrite delete_delete_eq|done].
      * rewrite (decide_False (P := _ /\ s' = s)) by (intros [? ?]; congruence).
        destruct (decide (s' ∈ ss)) as [Hin|Hnot].
        -- rewrite !decide_True; [done|split; [done|by right]|done].
        -- rewrite !decide_False; [done| |intros [? ?]; congruence].
           intros [_ [?|?]%elem_of_cons]; done.
Qed.

Lemma deleteEvents_total rid e ss r :
  wf r -> Forall (fun s => (s < NUM_STATES)%nat) ss ->
  exists r', forEach (deleteEvent rid e) ss r = Ok r'.
Proof.
  intros Hwf Hss. revert r Hwf.
  induction Hss as [|s ss Hs _ IH]; intros r Hwf; simpl; [by eexists|].
  assert (exists r1, deleteEvent rid e r s = Ok r1) as [r1 Hdel].
  { unfold deleteEvent. destruct (callbacks r !! rid) as [arr|] eqn:Harr.
    - destruct (lookup_lt_is_Some_2 arr s) as [m Hm].
      { by rewrite (Hwf _ _ Harr). }
      apply index_Ok in Hm. rewrite Hm. simpl. by eexists.
    - unfold zeroArray, index. rewrite lookup_replicate_2 by done.
      simpl. by eexists. }
  rewrite Hdel. simpl. apply IH.
  by destruct (deleteEvent_Ok _ _ _ _ _ Hwf Hdel) as (_ & ? & _).
Qed.

Lemma noneLeft_true arr :
  noneLeft arr = true <-> forall s m, arr !! s = Some m -> m = ∅.
Proof.
  unfold noneLeft. rewrite forallb_forall. split.
  - intros Hall s m Hm. apply map_size_empty_inv, Nat.eqb_eq, Hall.
    apply list_elem_of_In. by eapply list_elem_of_lookup_2.
  - intros Hall m [s Hm]%list_elem_of_In%list_elem_of_lookup.
    rewrite (Hall _ _ Hm). by rewrite map_size_empty.
Qed.

Lemma noneLeft_false arr :
  noneLeft arr = false -> exists s m, arr !! s = Some m /\ m <> ∅.
Proof.
  induction arr as [|m arr IH]; simpl; [done|].
  destruct (Nat.eqb (size m) 0) eqn:Hsize; simpl.
  - intros Hrest. destruct (IH Hrest) as (s & m' & Hm' & Hne).
    by exists (S s), m'.
  - intros _. exists 0%nat, m. split; [done|]. intros ->.
    by rewrite map_size_empty in Hsize.
Qed.

Lemma noneLeft_zeroArray : noneLeft zeroArray = true.
Proof.
  apply noneLeft_true. intros s m Hm. unfold zeroArray in Hm.
  by apply lookup_replicate in Hm as [-> _].
Qed.

(** What [remove] has done when it returns: the event is gone from the
    maps of the round under each of its states, nothing else has changed
    in any map, and the round has an entry only if a map of it is not
    empty. *)
Lemma remove_Ok r rid e r' :
  wf r -> remove r rid e = Ok r' ->
  bounded e /\ wf r' /\
  (forall rid', rid' <> rid ->
     is_Some (callbacks r' !! rid') <-> is_Some (callbacks r !! rid')) /\
  (is_Some (callbacks r' !! rid) -> exists s, bucketOf r' rid s <> ∅) /\
  (forall rid' s',
     bucketOf r' rid' s' =
     if decide (rid' = rid /\ s' ∈ states e)
     then delete (addr e) (bucketOf r rid' s')
     else bucketOf r rid' s').
Proof.
  intros Hwf Hrem. unfold remove in Hrem.
  apply bind_Ok in Hrem as (r1 & Hdel & Hrem).
  destruct (deleteEvents_Ok _ _ _ _ _ Hwf Hdel) as (Hss & Hwf1 & Hdom1 & Hb1).
  split; [done|].
  destruct (noneLeft (default zeroArray (callbacks r1 !! rid))) eqn:Hnone;
    injection Hrem as <-.
  - split; [|split; [|split]].
    + intros rid' arr. simpl. rewrite lookup_delete_Some. intros [_ ?].
      by eapply Hwf1.
    + intros rid' Hne. simpl. rewrite lookup_delete_ne by done. apply Hdom1.
    + simpl. rewrite lookup_delete_eq. by intros [? ?].
    + intros rid' s'. rewrite <- Hb1. unfold bucketOf at 1. simpl.
      destruct (decide (rid' = rid)) as [->|Hne];
        [|by rewrite lookup_delete_ne by done].
      rewrite lookup_delete_eq. simpl.
      destruct (callbacks r1 !! rid) as [arr|] eqn:Harr;
        [|by rewrite bucketOf_absent].
      rewrite (bucketOf_present _ _ _ _ Harr). simpl in Hnone.
      destruct (arr !! s') as [m|] eqn:Hm; [|done]. simpl.
      symmetry. by eapply noneLeft_true.
  - split; [done|]. split; [intros; apply Hdom1|]. split; [|done].
    intros [arr Harr]. rewrite Harr in Hnone. simpl in Hnone.
    destruct (noneLeft_false _ Hnone) as (s & m & Hm & Hne).
    exists s. by rewrite (bucketOf_present _ _ _ _ Harr), Hm.
Qed.

Lemma remove_total r rid e :
  wf r -> bounded e -> exists r', remove r rid e = Ok r'.
Proof.
  intros Hwf Hb. unfold remove.
  destruct (deleteEvents_total rid e (states e) r Hwf Hb) as [r1 ->]. simpl.
  destruct (noneLeft _); by eexists.
Qed.

(** ** register *)

Lemma addEvents_Ok e ss arr arr' :
  forEach (addEvent e) ss arr = Ok arr' ->
  Forall (fun s => (s < length arr)%nat) ss /\ length arr' = length arr /\
  (forall s',
     default ∅ (arr' !! s') =
     if decide (s' ∈ ss) then <[addr e := e]> (default ∅ (arr !! s'))
     else default ∅ (arr !! s')).
Proof.
  revert arr. induction ss as [|s ss IH]; intros arr Hrun; simpl in Hrun.
  - injection Hrun as <-. split; [constructor|]. split; [done|].
    intros s'. rewrite decide_False; [done|apply not_elem_of_nil].
  - apply bind_Ok in Hrun as (arr1 & Hadd & Hrun). unfold addEvent in Hadd.
    apply bind_Ok in Hadd as (m & Hm%index_Ok & [= <-]).
    destruct (IH _ Hrun) as (Hss & Hlen & Hlook).
    rewrite length_insert in Hss, Hlen.
    pose proof (lookup_lt_Some _ _ _ Hm) as Hlt.
    split; [by constructor|]. split; [done|].
    intros s'. rewrite Hlook. destruct (decide (s' = s)) as [->|Hne].
    + rewrite list_lookup_insert_eq by done. simpl. rewrite Hm. simpl.
      rewrite (decide_True (P := s ∈ s :: ss)) by by left.
      case_decide; [by rewrite insert_insert_eq|done].
    + rewrite list_lookup_insert_ne by done.
      destruct (decide (s' ∈ ss)) as [Hin|Hnot].
      * by rewrite decide_True by by right.
      * rewrite decide_False; [done|]. by intros [?|?]%elem_of_cons.
Qed.

Lemma addEvents_total e ss arr :
  Forall (fun s => (s < length arr)%nat) ss ->
  exists arr', forEach (addEvent e) ss arr = Ok arr'.
Proof.
  revert arr. induction ss as [|s ss IH]; intros arr Hss; [by eexists|].
  apply Forall_cons in Hss as [Hs Hss].
  destruct (lookup_lt_is_Some_2 arr s Hs) as [m Hm].
  assert (addEvent e arr s = Ok (<[s := <[addr e := e]> m]> arr)) as Hadd.
  { unfold addEvent. apply index_Ok in Hm. by rewrite Hm. }
  cbn [forEach]. rewrite Hadd. simpl. apply IH. by rewrite length_insert.
Qed.

Lemma length_zeroArray : length zeroArray = NUM_STATES.
Proof. apply length_replicate. Qed.

Lemma length_registry_array r rid :
  wf r -> length (default zeroArray (callbacks r !! rid)) = NUM_STATES.
Proof.
  intros Hwf. destruct (callbacks r !! rid) as [arr|] eqn:Harr; simpl.
  - by eapply Hwf.
  - apply length_zeroArray.
Qed.

Lemma bucketOf_registry_array r rid s :
  default ∅ (default zeroArray (callbacks r !! rid) !! s) = bucketOf r rid s.
Proof.
  destruct (callbacks r !! rid) as [arr|] eqn:Harr; simpl.
  - by rewrite (bucketOf_present _ _ _ _ Harr).
  - rewrite (bucketOf_absent _ _ _ Harr). unfold zeroArray.
    destruct (replicate NUM_STATES ∅ !! s) as [m|] eqn:Hm; [|done].
    by apply lookup_replicate in Hm as [-> _].
Qed.

(** What the second half of [AddRoundEvent] has done when it returns. *)
Lemma register_Ok r rid e r' :
  wf r -> register r rid e = Ok r' ->
  bounded e /\ wf r' /\
  (forall rid' s',
     bucketOf r' rid' s' =
     if decide (rid' = rid /\ s' ∈ states e)
     then <[addr e := e]> (bucketOf r rid' s')
     else bucketOf r rid' s').
Proof.
  intros Hwf Hreg. unfold register in Hreg.
  apply bind_Ok in Hreg as (arr & Hadd & [= <-]).
  destruct (addEvents_Ok _ _ _ _ Hadd) as (Hss & Hlen & Hlook).
  rewrite length_registry_array in Hss, Hlen by done.
  split; [done|]. split.
  - intros rid' arr'. simpl. rewrite lookup_insert.
    case_decide; [by intros [= <-]|by apply Hwf].
  - intros rid' s'. unfold bucketOf at 1. simpl. rewrite lookup_insert.
    case_decide as Hrid; simpl.
    + subst rid'. rewrite Hlook, bucketOf_registry_array.
      destruct (decide (s' ∈ states e)).
      * by rewrite decide_True.
      * rewrite decide_False; [done|intros [? ?]; congruence].
    + rewrite decide_False; [done|intros [? ?]; congruence].
Qed.

Lemma register_total r rid e :
  wf r -> bounded e -> exists r', register r rid e = Ok r'.
Proof.
  intros Hwf Hb. unfold register.
  destruct (addEvents_total e (states e) (default zeroArray (callbacks r !! rid)))
    as [arr ->]; [by rewrite length_registry_array|].
  simpl. by eexists.
Qed.

(** ** TriggerRoundEvent *)

Lemma sends_Ok ri xs chans chans' :
  forEach (send ri) xs chans = Ok chans' ->
  forall a,
    chans' !! a = if decide (a ∈ addr <$> xs) then Some ri else chans !! a.
Proof.
  revert chans. induction xs as [|x xs IH]; intros chans Hrun a; simpl in Hrun.
  - injection Hrun as <-. rewrite decide_False; [done|apply not_elem_of_nil].
  - apply bind_Ok in Hrun as (chans1 & Hsend & Hrun). unfold send in Hsend.
    destruct (chans !! addr x) eqn:Hx; [done|]. injection Hsend as <-.
    rewrite (IH _ Hrun a), fmap_cons.
    destruct (decide (a ∈ addr <$> xs)) as [Hin|Hnot].
    + by rewrite decide_True by by right.
    + rewrite lookup_insert. destruct (decide (addr x = a)) as [<-|Hne].
      * by rewrite decide_True by by left.
      * rewrite decide_False; [done|]. by intros [?|?]%elem_of_cons.
Qed.

Lemma sends_total ri xs chans :
  NoDup (addr <$> xs) -> (forall x, x ∈ xs -> chans !! addr x = None) ->
  exists chans', forEach (send ri) xs chans = Ok chans'.
Proof.
  revert chans. induction xs as [|x xs IH]; intros chans Hnd Hfree; simpl.
  - by eexists.
  - rewrite fmap_cons in Hnd. apply NoDup_cons in Hnd as [Hx Hnd].
    assert (send ri chans x = Ok (<[addr x := ri]> chans)) as ->.
    { unfold send. by rewrite Hfree by by left. }
    simpl. apply IH; [done|]. intros y Hy. rewrite lookup_insert_ne.
    + apply Hfree. by right.
    + intros Heq. apply Hx. rewrite Heq. by apply list_elem_of_fmap_2.
Qed.

(** The events removed one after the other, as [TriggerRoundEvent] does. *)
Lemma removes_Ok rid xs r r' :
  wf r -> forEach (fun r x => remove r rid x) xs r = Ok r' ->
  Forall bounded xs /\ wf r' /\
  (forall rid', rid' <> rid ->
     is_Some (callbacks r' !! rid') <-> is_Some (callbacks r !! rid')) /\
  (xs <> [] -> is_Some (callbacks r' !! rid) -> exists s, bucketOf r' rid s <> ∅) /\
  (forall rid' s' a,
     bucketOf r' rid' s' !! a =
     if decide (rid' = rid /\ Exists (fun x => addr x = a /\ s' ∈ states x) xs)
     then None else bucketOf r rid' s' !! a).
Proof.
  revert r. induction xs as [|x xs IH]; intros r Hwf Hrun; simpl in Hrun.
  - injection Hrun as <-. split; [constructor|]. repeat split; [done..|].
    intros rid' s' a. rewrite decide_False; [done|].
    intros [_ Hex]. by apply Exists_nil in Hex.
  - apply bind_Ok in Hrun as (r1 & Hrem & Hrun).
    destruct (remove_Ok _ _ _ _ Hwf Hrem) as (Hb & Hwf1 & Hdom1 & Hpr1 & Hb1).
    destruct (IH _ Hwf1 Hrun) as (Hbs & Hwf' & Hdom' & Hpr' & Hb').
    split; [by constructor|]. split; [done|]. split; [|split].
    + intros rid' Hne. by rewrite Hdom', Hdom1.
    + intros _ Hsome. destruct xs as [|y xs]; [|by apply Hpr'].
      simpl in Hrun. injection Hrun as <-. by apply Hpr1.
    + intros rid' s' a. rewrite Hb', Hb1.
      destruct (decide (rid' = rid)) as [->|Hrid];
        [|by rewrite !decide_False by (intros [? ?]; congruence)].
      destruct (decide (Exists (fun y => addr y = a /\ s' ∈ states y) xs))
        as [Hex|Hnex].
      * rewrite !decide_True; [done|split; [done|by right]|done].
      * rewrite (decide_False (P := _ /\ Exists _ xs)) by (intros [? ?]; congruence).
        destruct (decide (s' ∈ states x)) as [Hs|Hs].
        -- rewrite (decide_True (P := _ /\ s' ∈ states x)) by done.
           rewrite lookup_delete. destruct (decide (addr x = a)) as [Ha|Ha].
           ++ rewrite decide_True; [done|]. split; [done|]. by left.
           ++ rewrite decide_False; [done|].
              intros [_ [[? ?]|?]%Exists_cons]; done.
        -- rewrite (decide_False (P := _ /\ s' ∈ states x)) by (intros [? ?]; congruence).
           rewrite decide_False; [done|].
           intros [_ [[? ?]|?]%Exists_cons]; done.
Qed.

Lemma removes_total rid xs r :
  wf r -> Forall bounded xs ->
  exists r', forEach (fun r x => remove r rid x) xs r = Ok r'.
Proof.
  intros Hwf Hbs. revert r Hwf.
  induction Hbs as [|x xs Hb _ IH]; intros r Hwf; simpl; [by eexists|].
  destruct (remove_total r rid x Hwf Hb) as [r1 Hrem]. rewrite Hrem. simpl.
  apply IH. by destruct (remove_Ok _ _ _ _ Hwf Hrem) as (_ & ? & _).
Qed.

Lemma TriggerRoundEvent_Ok r chans ri r' chans' :
  TriggerRoundEvent r chans ri = Ok (r', chans') ->
  (r' = r /\ chans' = chans /\
   bucketOf r (ID ri) (N.to_nat (State ri)) = ∅) \/
  (exists xs,
     xs = (map_to_list (bucketOf r (ID ri) (N.to_nat (State ri)))).*2 /\
     xs <> [] /\
     forEach (send ri) xs chans = Ok chans' /\
     forEach (fun r x => remove r (ID ri) x) xs r = Ok r').
Proof.
  unfold TriggerRoundEvent. intros Hrun.
  destruct (callbacks r !! ID ri) as [arr|] eqn:Harr.
  - apply bind_Ok in Hrun as (m & Hm%index_Ok & Hrun).
    rewrite (bucketOf_present _ _ _ _ Harr), Hm. simpl.
    destruct (Nat.eqb (size m) 0) eqn:Hsize.
    + injection Hrun as <- <-. left. repeat split.
      by apply map_size_empty_inv, Nat.eqb_eq.
    + apply bind_Ok in Hrun as (chans1 & Hsend & Hrun).
      apply bind_Ok in Hrun as (r1 & Hrem & [= <- <-]).
      right. eexists. split; [done|]. split; [|done].
      intros Hnil%fmap_nil_inv%map_to_list_empty_iff. subst m.
      by rewrite map_size_empty in Hsize.
  - injection Hrun as <- <-. left. repeat split. by apply bucketOf_absent.
Qed.

Lemma elem_of_bucket_list (m : gmap nat eventCallback) x :
  x ∈ (map_to_list m).*2 <-> exists a, m !! a = Some x.
Proof.
  rewrite list_elem_of_fmap. split.
  - intros ([a y] & -> & Hin%elem_of_map_to_list). by exists a.
  - intros [a Ha]. exists (a, x). split; [done|]. by apply elem_of_map_to_list.
Qed.

(** ** The invariant *)

Lemma waiterOf_mono st st' rid e :
  (forall a w, waiters st !! a = Some w ->
     exists w', waiters st' !! a = Some w' /\
       w_event w' = w_event w /\ w_rid w' = w_rid w) ->
  waiterOf st rid e -> waiterOf st' rid e.
Proof.
  intros Hmono (w & Hw & He & Hr). destruct (Hmono _ _ Hw) as (w' & Hw' & He' & Hr').
  exists w'. repeat split; congruence.
Qed.

Lemma invariant_initial : invariant initial.
Proof.
  constructor; simpl.
  - intros rid arr. unfold NewRoundEvents. simpl. by rewrite lookup_empty.
  - intros rid s a e. by rewrite bucketOf_absent, lookup_empty.
  - intros rid e Hin. by apply not_elem_of_nil in Hin.
  - constructor.
  - intros rid e Hin. by apply not_elem_of_nil in Hin.
  - intros a w. by rewrite lookup_empty.
  - intros a. rewrite lookup_empty. by intros [? ?].
  - intros a. rewrite lookup_empty. by intros [? ?].
  - intros a w. by rewrite lookup_empty.
  - intros a. by rewrite lookup_empty.
Qed.

Lemma invariant_Tick st d :
  invariant st ->
  invariant (mkSystem (r st) (chans st) (waiters st) (adding st)
               (removing st) (calls st) (next st) (now st + d)).
Proof. intros [? ? ? ? ? ? ? ? ? ?]. by constructor. Qed.

Lemma invariant_start st rid callback timeout validStates :
  invariant st -> invariant (start st rid callback timeout validStates).
Proof.
  intros [Hwf Hreg Hadd Hnd Hrem Hbd Hch Hfr Hwt Hcalls].
  assert (waiters st !! next st = None) as Hnew.
  { destruct (waiters st !! next st) eqn:Hw; [|done].
    specialize (Hfr (next st)). rewrite Hw in Hfr.
    specialize (Hfr (ltac:(by eexists))). lia. }
  assert (forall rid0 e0, waiterOf st rid0 e0 ->
            waiterOf (start st rid callback timeout validStates) rid0 e0)
    as Hmono.
  { intros rid0 e0. apply waiterOf_mono. intros a w Hw. exists w.
    simpl. rewrite lookup_insert_ne by congruence. done. }
  assert (forall rid0 e0, waiterOf st rid0 e0 -> addr e0 <> next st) as Hold.
  { intros rid0 e0 (w & Hw & _) Heq. rewrite Heq in Hw. congruence. }
  constructor; simpl.
  - done.
  - intros rid0 s a e Hb. destruct (Hreg _ _ _ _ Hb) as (? & ? & ? & ? & ?).
    repeat split; [done..|]. by apply Hmono.
  - intros rid0 e0 [Hin|Heq%list_elem_of_singleton]%elem_of_app.
    + destruct (Hadd _ _ Hin) as (? & ? & ?). repeat split; [done..|].
      by apply Hmono.
    + injection Heq as -> ->. repeat split.
      * intros rid0 s. simpl. destruct (bucketOf (r st) rid0 s !! next st) as [x|] eqn:Hx; [|done].
        destruct (Hreg _ _ _ _ Hx) as (Hax & _ & _ & _ & Hwx).
        by destruct (Hold _ _ Hwx).
      * simpl. destruct (chans st !! next st) eqn:Hc; [|done].
        specialize (Hch (next st)). rewrite Hc, Hnew in Hch.
        by destruct Hch as [? ?]; [eexists|].
      * eexists. simpl. rewrite lookup_insert_eq. done.
  - rewrite fmap_app. apply NoDup_app. split; [done|]. split.
    + intros a Ha Heq'%list_elem_of_singleton. subst a.
      apply list_elem_of_fmap in Ha as ([rid0 e0] & Heq & Hin). simpl in Heq.
      destruct (Hadd _ _ Hin) as (_ & _ & Hw). by destruct (Hold _ _ Hw).
    + apply NoDup_singleton.
  - intros rid0 e0 Hin. by apply Hmono, Hrem.
  - intros a w. rewrite lookup_insert. case_decide as Ha.
    + intros [= <-]. simpl. right. exists rid. apply elem_of_app. right.
      by apply list_elem_of_singleton.
    + intros Hw. destruct (Hbd _ _ Hw) as [?|[rid0 Hin]]; [by left|].
      right. exists rid0. apply elem_of_app. by left.
  - intros a Hc. rewrite lookup_insert_is_Some. destruct (decide (next st = a)); auto.
  - intros a [Heq|[_ Hw]]%lookup_insert_is_Some; [lia|].
    specialize (Hfr _ Hw). lia.
  - intros a w. rewrite lookup_insert. case_decide; [by intros [= <-]|apply Hwt].
  - intros a. unfold callsOf in *. simpl. rewrite lookup_insert.
    case_decide as Ha; [|apply Hcalls]. subst a. simpl.
    specialize (Hcalls (next st)). by rewrite Hnew in Hcalls.
Qed.

Lemma delete_elem_of {A} (l : list A) i (x y : A) :
  l !! i = Some x -> y ∈ l <-> y = x \/ y ∈ delete i l.
Proof.
  intros Hi. rewrite (delete_Permutation l i x Hi) at 1. apply elem_of_cons.
Qed.

Lemma delete_NoDup_fmap {A B} (f : A -> B) (l : list A) i (x : A) :
  l !! i = Some x -> NoDup (f <$> l) ->
  NoDup (f <$> delete i l) /\ forall y, y ∈ delete i l -> f y <> f x.
Proof.
  intros Hi Hnd. rewrite (delete_Permutation l i x Hi), fmap_cons in Hnd.
  apply NoDup_cons in Hnd as [Hx Hnd]. split; [done|].
  intros y Hy Heq. apply Hx. rewrite <- Heq. by apply list_elem_of_fmap_2.
Qed.

Lemma invariant_Register st i rid e r' :
  invariant st -> adding st !! i = Some (rid, e) ->
  register (r st) rid e = Ok r' ->
  invariant (mkSystem r' (chans st) (waiters st) (delete i (adding st))
               (removing st) (calls st) (next st) (now st)).
Proof.
  intros [Hwf Hreg Hadd Hnd Hrem Hbd Hch Hfr Hwt Hcalls] Hi Hregister.
  destruct (register_Ok _ _ _ _ Hwf Hregister) as (Hb & Hwf' & Hbk).
  pose proof (list_elem_of_lookup_2 _ _ _ Hi) as Hin.
  destruct (Hadd _ _ Hin) as (Hun & Hce & Hwe).
  destruct (delete_NoDup_fmap (fun p => addr p.2) _ _ _ Hi Hnd) as [Hnd' Hother].
  constructor; simpl.
  - done.
  - intros rid0 s a x. rewrite Hbk. case_decide as Hcase; [|apply Hreg].
    destruct Hcase as [-> Hs]. rewrite lookup_insert.
    case_decide as Ha; [|apply Hreg]. intros [= <-]. subst a. by repeat split.
  - intros rid0 e0 Hin0.
    destruct (Hadd rid0 e0) as (Hun0 & ? & ?).
    { apply (delete_elem_of _ _ _ _ Hi). by right. }
    repeat split; [|done..].
    intros rid1 s. rewrite Hbk. case_decide; [|apply Hun0].
    rewrite lookup_insert_ne; [apply Hun0|].
    intros Heq. by apply (Hother _ Hin0).
  - done.
  - done.
  - intros a w Hw. destruct (Hbd _ _ Hw) as [?|[rid0 Hin0]]; [by left|].
    apply (delete_elem_of _ _ _ _ Hi) in Hin0 as [[= _ ->]|Hin0]; [by left|].
    right. by exists rid0.
  - done.
  - done.
  - done.
  - apply Hcalls.
Qed.

Lemma invariant_Trigger st ri r' chans' :
  invariant st -> TriggerRoundEvent (r st) (chans st) ri = Ok (r', chans') ->
  invariant (mkSystem r' chans' (waiters st) (adding st) (removing st)
               (calls st) (next st) (now st)).
Proof.
  intros Hinv Htrig.
  apply TriggerRoundEvent_Ok in Htrig
    as [(-> & -> & _)|(xs & Hxs & _ & Hsend & Hrems)]; [by destruct Hinv; constructor|].
  destruct Hinv as [Hwf Hreg Hadd Hnd Hrem Hbd Hch Hfr Hwt Hcalls].
  destruct (removes_Ok _ _ _ _ Hwf Hrems) as (_ & Hwf' & _ & _ & Hbk).
  pose proof (sends_Ok _ _ _ _ Hsend) as Hch'.
  set (s0 := N.to_nat (State ri)) in *.
  assert (forall a, a ∈ addr <$> xs ->
            exists x, bucketOf (r st) (ID ri) s0 !! a = Some x /\ x ∈ xs)
    as Hsent.
  { intros a (x & -> & Hx)%list_elem_of_fmap. exists x. split; [|done].
    rewrite Hxs in Hx. apply elem_of_bucket_list in Hx as [a Ha].
    by destruct (Hreg _ _ _ _ Ha) as (<- & _). }
  constructor; simpl.
  - done.
  - intros rid s a x. rewrite Hbk. case_decide as Hcase; [done|]. intros Hx.
    destruct (Hreg _ _ _ _ Hx) as (Ha & Hs & Hb & Hc & Hw).
    repeat split; [done..| |done].
    rewrite Hch'. case_decide as Hin; [|done]. exfalso.
    destruct (Hsent _ Hin) as (y & Hy & Hyin).
    destruct (Hreg _ _ _ _ Hy) as (Hay & _ & _ & _ & Hwy).
    destruct Hw as (w & Hw & <- & <-). destruct Hwy as (w' & Hw' & <- & Hrid).
    rewrite Hay, <- Ha, Hw in Hw'. injection Hw' as <-.
    apply Hcase. split; [done|]. apply Exists_exists. by exists (w_event w).
  - intros rid e Hin. destruct (Hadd _ _ Hin) as (Hun & Hc & Hw).
    repeat split; [| |done].
    + intros rid0 s. rewrite Hbk. case_decide; [done|apply Hun].
    + rewrite Hch'. case_decide as Hin'; [|done]. exfalso.
      destruct (Hsent _ Hin') as (y & Hy & _). by rewrite Hun in Hy.
  - done.
  - done.
  - done.
  - intros a. rewrite Hch'. case_decide as Hin; [|apply Hch]. intros _.
    destruct (Hsent _ Hin) as (y & Hy & _).
    destruct (Hreg _ _ _ _ Hy) as (<- & _ & _ & _ & (w & Hw & _)). by eexists.
  - done.
  - done.
  - apply Hcalls.
Qed.

Lemma invariant_finish st a w (c : invocation) chans' removing' :
  invariant st -> waiters st !! a = Some w -> w_done w = false ->
  by_event c = a ->
  (forall a', chans st !! a' = None -> chans' !! a' = None) ->
  (forall rid e, (rid, e) ∈ removing' ->
     (rid, e) ∈ removing st \/ (rid, e) = (w_rid w, w_event w)) ->
  invariant (mkSystem (r st) chans'
               (<[a := mkWaiter (w_rid w) (w_callback w) (w_event w)
                         (w_deadline w) true]> (waiters st))
               (adding st) removing' (calls st ++ [c]) (next st) (now st)).
Proof.
  intros [Hwf Hreg Hadd Hnd Hrem Hbd Hch Hfr Hwt Hcalls] Hw Hdone Hc Hchans Hremoving.
  set (st' := mkSystem _ _ _ _ _ _ _ _).
  assert (forall rid0 e0, waiterOf st rid0 e0 -> waiterOf st' rid0 e0) as Hmono.
  { intros rid0 e0. apply waiterOf_mono. intros a' w' Hw'. simpl.
    rewrite lookup_insert. case_decide as Ha; [|by exists w'].
    subst a'. rewrite Hw in Hw'. injection Hw' as <-. by eexists. }
  constructor; simpl.
  - done.
  - intros rid s a' x Hx. destruct (Hreg _ _ _ _ Hx) as (? & ? & ? & ? & ?).
    repeat split; [done..|by apply Hchans|by apply Hmono].
  - intros rid e Hin. destruct (Hadd _ _ Hin) as (? & ? & ?).
    repeat split; [done|by apply Hchans|by apply Hmono].
  - done.
  - intros rid e [Hin|[= -> ->]]%Hremoving; [by apply Hmono, Hrem|].
    eexists. rewrite (Hwt _ _ Hw). simpl. rewrite lookup_insert_eq. done.
  - intros a' w'. rewrite lookup_insert. case_decide as Ha; [|apply Hbd].
    intros [= <-]. simpl. by eapply Hbd.
  - intros a' [ri' Hri']. rewrite lookup_insert_is_Some.
    destruct (decide (a = a')); [by left|]. right. split; [done|].
    apply Hch. destruct (chans st !! a') eqn:Hold; [done|].
    by rewrite (Hchans _ Hold) in Hri'.
  - intros a' [->|[_ Hw']]%lookup_insert_is_Some; apply Hfr; [by eexists|done].
  - intros a' w'. rewrite lookup_insert. case_decide as Ha; [|apply Hwt].
    intros [= <-]. simpl. subst a'. by eapply Hwt.
  - intros a'. unfold callsOf in *. simpl. rewrite filter_app, length_app.
    rewrite lookup_insert. specialize (Hcalls a'). case_decide as Ha.
    + subst a'. rewrite Hw, Hdone in Hcalls. simpl.
      rewrite filter_cons_True by done. rewrite Hcalls. done.
    + rewrite filter_cons_False by congruence. simpl. lia.
Qed.

Lemma invariant_RunRemove st i rid e r' :
  invariant st -> removing st !! i = Some (rid, e) ->
  remove (r st) rid e = Ok r' ->
  invariant (mkSystem r' (chans st) (waiters st) (adding st)
               (delete i (removing st)) (calls st) (next st) (now st)).
Proof.
  intros [Hwf Hreg Hadd Hnd Hrem Hbd Hch Hfr Hwt Hcalls] Hi Hremove.
  destruct (remove_Ok _ _ _ _ Hwf Hremove) as (_ & Hwf' & _ & _ & Hbk).
  constructor; simpl.
  - done.
  - intros rid0 s a x. rewrite Hbk. case_decide; [|apply Hreg].
    intros [_ Hx]%lookup_delete_Some. by apply Hreg.
  - intros rid0 e0 Hin. destruct (Hadd _ _ Hin) as (Hun & ? & ?).
    repeat split; [|done..].
    intros rid1 s. rewrite Hbk. case_decide; [|apply Hun].
    apply lookup_delete_None. right. apply Hun.
  - done.
  - intros rid0 e0 Hin. apply Hrem. apply (delete_elem_of _ _ _ _ Hi). by right.
  - done.
  - done.
  - done.
  - done.
  - apply Hcalls.
Qed.

(** Every action keeps the invariant. *)
Lemma step_invariant st l st' :
  invariant st -> step st l = Ok st' -> invariant st'.
Proof.
  intros Hinv Hstep. destruct l as [d|rid cb timeout vs|i|ri|a|a|i]; simpl in Hstep.
  - case_bool_decide; [|done]. injection Hstep as <-. by apply invariant_Tick.
  - injection Hstep as <-. by apply invariant_start.
  - destruct (adding st !! i) as [[rid e]|] eqn:Hi; [|done].
    apply bind_Ok in Hstep as (r' & Hreg & [= <-]).
    by eapply invariant_Register.
  - apply bind_Ok in Hstep as ([r' chans'] & Htrig & [= <-]).
    by eapply invariant_Trigger.
  - destruct (waiters st !! a) as [w|] eqn:Hw; [|done].
    destruct (w_done w) eqn:Hdone; [done|]. simpl in Hstep.
    case_bool_decide; [|done]. injection Hstep as <-.
    apply invariant_finish; [done..|].
    intros rid e [?|?%list_elem_of_singleton]%elem_of_app; auto.
  - destruct (waiters st !! a) as [w|] eqn:Hw; [|done].
    destruct (chans st !! a) as [ri|] eqn:Hri; [|done].
    destruct (w_done w) eqn:Hdone; [done|]. simpl in Hstep.
    injection Hstep as <-. apply invariant_finish; [done..| |auto].
    intros a' Ha'. apply lookup_delete_None. by right.
  - destruct (removing st !! i) as [[rid e]|] eqn:Hi; [|done].
    apply bind_Ok in Hstep as (r' & Hrem & [= <-]).
    by eapply invariant_RunRemove.
Qed.

Lemma run_invariant tr st st' :
  invariant st -> run st tr = Ok st' -> invariant st'.
Proof.
  revert st. induction tr as [|l tr IH]; intros st Hinv Hrun; simpl in Hrun.
  - by injection Hrun as <-.
  - apply bind_Ok in Hrun as (st1 & Hstep & Hrun).
    eapply IH; [|done]. by eapply step_invariant.
Qed.

Lemma reachable_invariant tr st : run initial tr = Ok st -> invariant st.
Proof. apply run_invariant, invariant_initial. Qed.

(** ** What the actions do to the record of calls and to the goroutines *)

Lemma step_calls st l st' :
  step st l = Ok st' -> exists more, calls st' = calls st ++ more.
Proof.
  intros Hstep. destruct l as [d|rid cb timeout vs|i|ri|a|a|i]; simpl in Hstep.
  - case_bool_decide; [|done]. injection Hstep as <-. exists []. by rewrite app_nil_r.
  - injection Hstep as <-. exists []. by rewrite app_nil_r.
  - destruct (adding st !! i) as [[rid e]|]; [|done].
    apply bind_Ok in Hstep as (r' & _ & [= <-]). exists []. by rewrite app_nil_r.
  - apply bind_Ok in Hstep as ([r' chans'] & _ & [= <-]).
    exists []. by rewrite app_nil_r.
  - destruct (waiters st !! a) as [w|]; [|done].
    destruct (negb (w_done w) && _); [|done]. injection Hstep as <-.
    by eexists.
  - destruct (waiters st !! a) as [w|]; [|done].
    destruct (chans st !! a) as [ri|]; [|done].
    destruct (negb (w_done w)); [|done]. injection Hstep as <-. by eexists.
  - destruct (removing st !! i) as [[rid e]|]; [|done].
    apply bind_Ok in Hstep as (r' & _ & [= <-]). exists []. by rewrite app_nil_r.
Qed.

Lemma run_calls tr st st' :
  run st tr = Ok st' -> exists more, calls st' = calls st ++ more.
Proof.
  revert st. induction tr as [|l tr IH]; intros st Hrun; simpl in Hrun.
  - injection Hrun as <-. exists []. by rewrite app_nil_r.
  - apply bind_Ok in Hrun as (st1 & Hstep & Hrun).
    destruct (step_calls _ _ _ Hstep) as [more1 Hc1].
    destruct (IH _ Hrun) as [more2 Hc2].
    exists (more1 ++ more2). by rewrite Hc2, Hc1, app_assoc.
Qed.

(** A goroutine that has made its call makes no other, whatever follows. *)
Lemma callsOf_final tr st st' a c :
  invariant st -> callsOf a st = [c] -> run st tr = Ok st' ->
  callsOf a st' = [c].
Proof.
  intros Hinv Hone Hrun.
  pose proof (run_invariant _ _ _ Hinv Hrun) as Hinv'.
  destruct (run_calls _ _ _ Hrun) as [more Hmore].
  pose proof (inv_calls _ Hinv' a) as Hlen.
  unfold callsOf in *. rewrite Hmore, filter_app, Hone in *.
  destruct (filter _ more) as [|c' rest]; [done|].
  simpl in Hlen. destruct (waiters st' !! a) as [w|]; [|done].
  destruct (w_done w); done.
Qed.


(** ** Events that are registered *)

Lemma registered_unique st rid rid' s s' e y :
  invariant st -> registered (r st) rid s e ->
  bucketOf (r st) rid' s' !! addr e = Some y ->
  y = e /\ rid' = rid /\ s' ∈ states e.
Proof.
  intros Hinv Hreg Hy.
  destruct (inv_reg _ Hinv _ _ _ _ Hreg) as (_ & _ & _ & _ & (w & Hw & He & Hr)).
  destruct (inv_reg _ Hinv _ _ _ _ Hy) as (Ha & Hs & _ & _ & (w' & Hw' & He' & Hr')).
  rewrite Ha, Hw in Hw'. injection Hw' as <-.
  rewrite He in He'. subst y. repeat split; [congruence|done].
Qed.

Lemma waiterOf_unique st rid rid' s' e y :
  invariant st -> waiterOf st rid e ->
  bucketOf (r st) rid' s' !! addr e = Some y ->
  y = e /\ rid' = rid /\ s' ∈ states e.
Proof.
  intros Hinv (w & Hw & He & Hr) Hy.
  destruct (inv_reg _ Hinv _ _ _ _ Hy) as (Ha & Hs & _ & _ & (w' & Hw' & He' & Hr')).
  rewrite Ha, Hw in Hw'. injection Hw' as <-.
  rewrite He in He'. subst y. repeat split; [congruence|done].
Qed.

Lemma bucket_addrs st rid s :
  invariant st ->
  addr <$> (map_to_list (bucketOf (r st) rid s)).*2 =
  (map_to_list (bucketOf (r st) rid s)).*1.
Proof.
  intros Hinv.
  assert (Forall (fun p => addr p.2 = p.1) (map_to_list (bucketOf (r st) rid s)))
    as Hall.
  { apply Forall_forall. intros [a x] Hin%elem_of_map_to_list. simpl.
    by destruct (inv_reg _ Hinv _ _ _ _ Hin) as (? & _). }
  induction Hall as [|[a x] l Hax _ IH]; [done|]. simpl in *. by f_equal.
Qed.

(** [TriggerRoundEvent] returns for every round whose state is a state. *)
Lemma Trigger_total st ri :
  invariant st -> (N.to_nat (State ri) < NUM_STATES)%nat ->
  exists st', step st (Trigger ri) = Ok st'.
Proof.
  intros Hinv Hs. simpl. unfold TriggerRoundEvent.
  destruct (callbacks (r st) !! ID ri) as [arr|] eqn:Harr; [|by eexists].
  destruct (lookup_lt_is_Some_2 arr (N.to_nat (State ri))) as [m Hm].
  { by rewrite (inv_wf _ Hinv _ _ Harr). }
  pose proof Hm as ->%index_Ok. simpl.
  destruct (Nat.eqb (size m) 0); [by eexists|].
  assert (bucketOf (r st) (ID ri) (N.to_nat (State ri)) = m) as Hbk.
  { by rewrite (bucketOf_present _ _ _ _ Harr), Hm. }
  destruct (sends_total ri (map_to_list m).*2 (chans st)) as [chans' ->].
  { rewrite <- Hbk, bucket_addrs by done. apply NoDup_fst_map_to_list. }
  { intros x [a Ha]%elem_of_bucket_list. rewrite <- Hbk in Ha.
    by destruct (inv_reg _ Hinv _ _ _ _ Ha) as (<- & _ & _ & ? & _). }
  destruct (removes_total (ID ri) (map_to_list m).*2 (r st)) as [r' ->].
  { apply Hinv. }
  { apply Forall_forall. intros x [a Ha]%elem_of_bucket_list. rewrite <- Hbk in Ha.
    by destruct (inv_reg _ Hinv _ _ _ _ Ha) as (_ & _ & ? & _). }
  simpl. by eexists.
Qed.

(** With nothing registered for the round and the state,
    [TriggerRoundEvent] changes nothing and sends nothing. *)
Lemma Trigger_nothing st ri :
  invariant st -> (N.to_nat (State ri) < NUM_STATES)%nat ->
  bucketOf (r st) (ID ri) (N.to_nat (State ri)) = ∅ ->
  step st (Trigger ri) = Ok st.
Proof.
  intros Hinv Hs Hempty. simpl. unfold TriggerRoundEvent.
  destruct (callbacks (r st) !! ID ri) as [arr|] eqn:Harr; [|by destruct st].
  destruct (lookup_lt_is_Some_2 arr (N.to_nat (State ri))) as [m Hm].
  { by rewrite (inv_wf _ Hinv _ _ Harr). }
  pose proof Hm as ->%index_Ok. simpl.
  rewrite (bucketOf_present _ _ _ _ Harr), Hm in Hempty. simpl in Hempty.
  subst m. rewrite map_size_empty. simpl. by destruct st.
Qed.

(** What [TriggerRoundEvent] does to an event registered for the round and
    the state. *)
Lemma Trigger_registered st ri e st' :
  invariant st -> registered (r st) (ID ri) (N.to_nat (State ri)) e ->
  step st (Trigger ri) = Ok st' ->
  chans st' !! addr e = Some ri /\ unregistered (r st') e /\
  bucketOf (r st') (ID ri) (N.to_nat (State ri)) = ∅ /\
  pruned (r st') (ID ri) /\
  waiters st' = waiters st /\ calls st' = calls st /\ now st' = now st /\
  adding st' = adding st.
Proof.
  intros Hinv Hreg Hstep.
  pose proof (step_invariant _ _ _ Hinv Hstep) as Hinv'.
  simpl in Hstep. apply bind_Ok in Hstep as ([r' chans'] & Htrig & [= <-]).
  simpl in *.
  apply TriggerRoundEvent_Ok in Htrig
    as [(_ & _ & Hempty)|(xs & Hxs & Hne & Hsend & Hrems)].
  { unfold registered in Hreg. by rewrite Hempty, lookup_empty in Hreg. }
  set (s0 := N.to_nat (State ri)) in *.
  destruct (removes_Ok _ _ _ _ (inv_wf _ Hinv) Hrems) as (_ & _ & _ & Hpr & Hbk).
  assert (forall a x, bucketOf (r st) (ID ri) s0 !! a = Some x ->
            Exists (fun y => addr y = a /\ s0 ∈ states y) xs) as Hall.
  { intros a x Hx. apply Exists_exists. exists x.
    destruct (inv_reg _ Hinv _ _ _ _ Hx) as (Ha & Hs & _).
    split; [|done]. rewrite Hxs. apply elem_of_bucket_list. by exists a. }
  repeat split.
  - rewrite (sends_Ok _ _ _ _ Hsend). rewrite decide_True; [done|].
    apply list_elem_of_fmap_2. rewrite Hxs. apply elem_of_bucket_list.
    by exists (addr e).
  - intros rid' s'. rewrite Hbk. case_decide as Hcase; [done|].
    destruct (bucketOf (r st) rid' s' !! addr e) as [y|] eqn:Hy; [|done].
    destruct (registered_unique _ _ _ _ _ _ _ Hinv Hreg Hy) as (-> & -> & Hs').
    destruct Hcase. split; [done|]. apply Exists_exists. exists e.
    split; [|done]. rewrite Hxs. apply elem_of_bucket_list. by exists (addr e).
  - apply map_empty. intros a. rewrite Hbk. case_decide as Hcase; [done|].
    destruct (bucketOf (r st) (ID ri) s0 !! a) as [x|] eqn:Hx; [|done].
    destruct Hcase. split; [done|]. by eapply Hall.
  - intros Hsome. destruct (Hpr Hne Hsome) as [s Hs].
    apply map_choose in Hs as (a & x & Hx). exists s, x. unfold registered.
    by destruct (inv_reg _ Hinv' _ _ _ _ Hx) as (-> & _).
Qed.

(** ** Events whose registration is over *)

Lemma step_waiters st l st' a w :
  step st l = Ok st' -> waiters st !! a = Some w ->
  (forall b, is_Some (waiters st !! b) -> (b < next st)%nat) ->
  exists w', waiters st' !! a = Some w' /\
    w_event w' = w_event w /\ w_rid w' = w_rid w.
Proof.
  intros Hstep Hw Hfr.
  destruct l as [d|rid cb timeout vs|i|ri|b|b|i]; simpl in Hstep.
  - case_bool_decide; [|done]. injection Hstep as <-. by exists w.
  - injection Hstep as <-. exists w. simpl. rewrite lookup_insert_ne; [done|].
    intros <-. specialize (Hfr (next st) (ltac:(by eexists))). lia.
  - destruct (adding st !! i) as [[rid e]|]; [|done].
    apply bind_Ok in Hstep as (r' & _ & [= <-]). by exists w.
  - apply bind_Ok in Hstep as ([r' chans'] & _ & [= <-]). by exists w.
  - destruct (waiters st !! b) as [wb|] eqn:Hwb; [|done].
    destruct (negb (w_done wb) && _); [|done]. injection Hstep as <-. simpl.
    rewrite lookup_insert. case_decide; [|by exists w].
    subst b. rewrite Hw in Hwb. injection Hwb as <-. by eexists.
  - destruct (waiters st !! b) as [wb|] eqn:Hwb; [|done].
    destruct (chans st !! b) as [ri|]; [|done].
    destruct (negb (w_done wb)); [|done]. injection Hstep as <-. simpl.
    rewrite lookup_insert. case_decide; [|by exists w].
    subst b. rewrite Hw in Hwb. injection Hwb as <-. by eexists.
  - destruct (removing st !! i) as [[rid e]|]; [|done].
    apply bind_Ok in Hstep as (r' & _ & [= <-]). by exists w.
Qed.

Lemma step_waiterOf st l st' rid e :
  invariant st -> step st l = Ok st' -> waiterOf st rid e -> waiterOf st' rid e.
Proof.
  intros Hinv Hstep. apply waiterOf_mono. intros a w Hw.
  eapply step_waiters; [done..|]. apply Hinv.
Qed.

(** Once [AddRoundEvent] has returned for an event, the event is not being
    added again. *)
Lemma step_not_adding st l st' rid e :
  invariant st -> step st l = Ok st' -> waiterOf st rid e ->
  (forall rid', (rid', e) ∉ adding st) -> forall rid', (rid', e) ∉ adding st'.
Proof.
  intros Hinv Hstep (w & Hw & _) Hnot rid'.
  destruct l as [d|rid0 cb timeout vs|i|ri|b|b|i]; simpl in Hstep.
  - case_bool_decide; [|done]. injection Hstep as <-. apply Hnot.
  - injection Hstep as <-. simpl.
    intros [Hin|[= _ ->]%list_elem_of_singleton]%elem_of_app; [by eapply Hnot|].
    simpl in Hw. pose proof (inv_fresh _ Hinv (next st) (ltac:(by eexists))). lia.
  - destruct (adding st !! i) as [[rid1 e1]|] eqn:Hi; [|done].
    apply bind_Ok in Hstep as (r' & _ & [= <-]). simpl.
    intros Hin. apply (Hnot rid'). apply (delete_elem_of _ _ _ _ Hi). by right.
  - apply bind_Ok in Hstep as ([r' chans'] & _ & [= <-]). apply Hnot.
  - destruct (waiters st !! b) as [wb|]; [|done].
    destruct (negb (w_done wb) && _); [|done]. injection Hstep as <-. apply Hnot.
  - destruct (waiters st !! b) as [wb|]; [|done].
    destruct (chans st !! b) as [ri|]; [|done].
    destruct (negb (w_done wb)); [|done]. injection Hstep as <-. apply Hnot.
  - destruct (removing st !! i) as [[rid1 e1]|]; [|done].
    apply bind_Ok in Hstep as (r' & _ & [= <-]). apply Hnot.
Qed.

(** Such an event, once under no round and no state, stays so. *)
Lemma step_unregistered st l st' rid e :
  invariant st -> step st l = Ok st' -> waiterOf st rid e ->
  (forall rid', (rid', e) ∉ adding st) ->
  unregistered (r st) e -> unregistered (r st') e.
Proof.
  intros Hinv Hstep Hwe Hnot Hun.
  destruct l as [d|rid0 cb timeout vs|i|ri|b|b|i]; simpl in Hstep.
  - case_bool_decide; [|done]. by injection Hstep as <-.
  - by injection Hstep as <-.
  - destruct (adding st !! i) as [[rid1 e1]|] eqn:Hi; [|done].
    apply bind_Ok in Hstep as (r' & Hreg & [= <-]). simpl.
    destruct (register_Ok _ _ _ _ (inv_wf _ Hinv) Hreg) as (_ & _ & Hbk).
    intros rid' s. rewrite Hbk. case_decide; [|apply Hun].
    rewrite lookup_insert_ne; [apply Hun|]. intros Heq.
    pose proof (list_elem_of_lookup_2 _ _ _ Hi) as Hin.
    destruct (inv_adding _ Hinv _ _ Hin) as (_ & _ & (w1 & Hw1 & He1 & _)).
    destruct Hwe as (w & Hw & He & _).
    rewrite Heq, Hw in Hw1. injection Hw1 as <-.
    apply (Hnot rid1). congruence.
  - apply bind_Ok in Hstep as ([r' chans'] & Htrig & [= <-]). simpl.
    apply TriggerRoundEvent_Ok in Htrig
      as [(-> & _)|(xs & _ & _ & _ & Hrems)]; [done|].
    destruct (removes_Ok _ _ _ _ (inv_wf _ Hinv) Hrems) as (_ & _ & _ & _ & Hbk).
    intros rid' s. rewrite Hbk. case_decide; [done|apply Hun].
  - destruct (waiters st !! b) as [wb|]; [|done].
    destruct (negb (w_done wb) && _); [|done]. by injection Hstep as <-.
  - destruct (waiters st !! b) as [wb|]; [|done].
    destruct (chans st !! b) as [ri|]; [|done].
    destruct (negb (w_done wb)); [|done]. by injection Hstep as <-.
  - destruct (removing st !! i) as [[rid1 e1]|]; [|done].
    apply bind_Ok in Hstep as (r' & Hrem & [= <-]). simpl.
    destruct (remove_Ok _ _ _ _ (inv_wf _ Hinv) Hrem) as (_ & _ & _ & _ & Hbk).
    intros rid' s. rewrite Hbk. case_decide; [|apply Hun].
    apply lookup_delete_None. right. apply Hun.
Qed.

Lemma run_settled tr st st' rid e :
  invariant st -> run st tr = Ok st' -> waiterOf st rid e ->
  (forall rid', (rid', e) ∉ adding st) ->
  waiterOf st' rid e /\ (forall rid', (rid', e) ∉ adding st') /\
  (unregistered (r st) e -> unregistered (r st') e).
Proof.
  revert st. induction tr as [|l tr IH]; intros st Hinv Hrun Hwe Hnot;
    simpl in Hrun.
  - by injection Hrun as <-.
  - apply bind_Ok in Hrun as (st1 & Hstep & Hrun).
    destruct (IH st1) as (Hwe' & Hnot' & Hun'); [by eapply step_invariant|done|..].
    + by eapply step_waiterOf.
    + by eapply step_not_adding.
    + repeat split; [done..|]. intros Hun. apply Hun'.
      by eapply step_unregistered.
Qed.

(** The [Remove] started by a timed-out goroutine, when it runs. *)
Lemma RunRemove_unregisters st i rid e :
  invariant st -> removing st !! i = Some (rid, e) ->
  (forall rid', (rid', e) ∉ adding st) ->
  exists st', step st (RunRemove i) = Ok st' /\ unregistered (r st') e.
Proof.
  intros Hinv Hi Hnot.
  pose proof (inv_removing _ Hinv _ _ (list_elem_of_lookup_2 _ _ _ Hi)) as Hwe.
  assert (bounded e) as Hb.
  { destruct Hwe as (w & Hw & <- & _).
    destruct (inv_bounded _ Hinv _ _ Hw) as [?|[rid' Hin]]; [done|].
    by destruct (Hnot rid'). }
  destruct (remove_total (r st) rid e (inv_wf _ Hinv) Hb) as [r' Hrem].
  simpl. rewrite Hi. unfold Remove. rewrite Hrem. simpl.
  eexists. split; [done|]. simpl.
  destruct (remove_Ok _ _ _ _ (inv_wf _ Hinv) Hrem) as (_ & _ & _ & _ & Hbk).
  intros rid' s. rewrite Hbk. case_decide as Hcase.
  - by rewrite lookup_delete_eq.
  - destruct (bucketOf (r st) rid' s !! addr e) as [y|] eqn:Hy; [|done].
    destruct (waiterOf_unique _ _ _ _ _ _ Hinv Hwe Hy) as (-> & -> & Hs).
    by destruct Hcase.
Qed.

(** ** AddRoundEvent *)

(** [AddRoundEvent] with states that are states returns, and leaves the new
    event under each of them with its goroutine waiting. *)
Lemma AddRoundEvent_registers st rid callback timeout validStates :
  invariant st ->
  Forall (fun s => (s < NUM_STATES)%nat) validStates ->
  let e := mkEventCallback (next st) validStates in
  exists st',
    AddRoundEvent st rid callback timeout validStates = Ok (st', e) /\
    run st [Start rid callback timeout validStates;
            Register (length (adding st))] = Ok st' /\
    (forall s, s ∈ validStates -> registered (r st') rid s e) /\
    waiters st' !! addr e =
      Some (mkWaiter rid callback e (now st + timeout) false) /\
    now st' = now st.
Proof.
  intros Hinv Hvs e.
  pose proof (invariant_start st rid callback timeout validStates Hinv) as Hinv1.
  destruct (register_total (r st) rid e (inv_wf _ Hinv) Hvs) as [r' Hreg].
  assert (step (start st rid callback timeout validStates)
               (Register (length (adding st))) =
          Ok (mkSystem r' (chans st)
                (<[next st := mkWaiter rid callback e (now st + timeout) false]>
                   (waiters st))
                (delete (length (adding st)) (adding st ++ [(rid, e)]))
                (removing st) (calls st) (S (next st)) (now st))) as Hstep.
  { simpl. rewrite list_lookup_middle by done. fold e. rewrite Hreg. done. }
  eexists. split; [unfold AddRoundEvent; by rewrite Hstep|]. split.
  { change (run st [Start rid callback timeout validStates;
                    Register (length (adding st))])
      with (step (start st rid callback timeout validStates)
                 (Register (length (adding st))) ≫= fun st2 => Ok st2).
    by rewrite Hstep. }
  simpl. repeat split; [|by rewrite lookup_insert_eq].
  intros s Hs. unfold registered.
  destruct (register_Ok _ _ _ _ (inv_wf _ Hinv) Hreg) as (_ & _ & Hbk).
  rewrite Hbk, decide_True by done. by rewrite lookup_insert_eq.
Qed.


(** The timeout case of a goroutine. In every state the system reaches, a
    goroutine that still waits, whose channel holds no signal and whose
    timeout has elapsed can only take the timeout case; there it calls the
    callback with timedOut=true and a round info of which only the ID is
    set, the round id given to AddRoundEvent; this is the only call it ever
    makes; and it starts a Remove of its event. If the registration of the
    event is done by then, that Remove, whenever it runs, returns and
    leaves the event under no round and no state, for good. Without that
    condition the Remove can run before the registration, which it then
    does not undo. *)
Lemma AddRoundEvent_timeout tr st a w :
  run initial tr = Ok st ->
  waiters st !! a = Some w -> w_done w = false ->
  chans st !! a = None -> (w_deadline w <= now st)%Z ->
  let c := mkInvocation a (w_callback w) (mkRoundInfo (w_rid w) 0 []) true in
  step st (WaiterSignal a) = Blocked /\
  exists st1,
    step st (WaiterTimeout a) = Ok st1 /\
    calls st1 = calls st ++ [c] /\ callsOf a st1 = [c] /\
    (forall tr' st', run st1 tr' = Ok st' -> callsOf a st' = [c]) /\
    removing st1 = removing st ++ [(w_rid w, w_event w)] /\
    ((forall rid, (rid, w_event w) ∉ adding st) ->
     forall tr' st' i,
       run st1 tr' = Ok st' ->
       removing st' !! i = Some (w_rid w, w_event w) ->
       exists st2,
         step st' (RunRemove i) = Ok st2 /\
         unregistered (r st2) (w_event w) /\
         forall tr2 st3, run st2 tr2 = Ok st3 -> unregistered (r st3) (w_event w)).
Proof.
  intros Hrun Hw Hdone Hchan Hdl c.
  pose proof (reachable_invariant _ _ Hrun) as Hinv.
  split; [by simpl; rewrite Hw, Hchan|].
  assert (step st (WaiterTimeout a) =
          Ok (mkSystem (r st) (chans st)
                (<[a := mkWaiter (w_rid w) (w_callback w) (w_event w)
                          (w_deadline w) true]> (waiters st))
                (adding st) (removing st ++ [(w_rid w, w_event w)])
                (calls st ++ [c]) (next st) (now st))) as Hstep.
  { simpl. rewrite Hw, Hdone. simpl. by rewrite bool_decide_true. }
  pose proof (step_invariant _ _ _ Hinv Hstep) as Hinv1.
  eexists. split; [exact Hstep|]. simpl.
  assert (callsOf a
            (mkSystem (r st) (chans st)
               (<[a := mkWaiter (w_rid w) (w_callback w) (w_event w)
                         (w_deadline w) true]> (waiters st))
               (adding st) (removing st ++ [(w_rid w, w_event w)])
               (calls st ++ [c]) (next st) (now st)) = [c]) as Hone.
  { pose proof (inv_calls _ Hinv a) as Hlen. rewrite Hw, Hdone in Hlen.
    apply nil_length_inv in Hlen. unfold callsOf in *. simpl.
    rewrite filter_app, Hlen. simpl. by rewrite filter_cons_True. }
  split; [done|]. split; [done|]. split.
  { intros tr' st' Hrun'. by eapply callsOf_final. }
  split; [done|]. intros Hnot tr' st' i Hrun' Hi.
  assert (waiterOf
            (mkSystem (r st) (chans st)
               (<[a := mkWaiter (w_rid w) (w_callback w) (w_event w)
                         (w_deadline w) true]> (waiters st))
               (adding st) (removing st ++ [(w_rid w, w_event w)])
               (calls st ++ [c]) (next st) (now st))
            (w_rid w) (w_event w)) as Hwe.
  { apply (inv_removing _ Hinv1). simpl. apply elem_of_app. right.
    by apply list_elem_of_singleton. }
  destruct (run_settled _ _ _ _ _ Hinv1 Hrun' Hwe Hnot) as (Hwe' & Hnot' & _).
  pose proof (run_invariant _ _ _ Hinv1 Hrun') as Hinv'.
  destruct (RunRemove_unregisters _ _ _ _ Hinv' Hi Hnot') as (st2 & Hstep2 & Hun).
  exists st2. split; [done|]. split; [done|]. intros tr2 st3 Hrun2.
  eapply run_settled; [by eapply step_invariant|done| | |done].
  - by eapply step_waiterOf.
  - by eapply step_not_adding.
Qed.

(** C9. Dispatcher pruning. In every state the system reaches, after a
    removal, be it the Remove started by a timed-out goroutine or the
    removals of a TriggerRoundEvent that found events to signal, the
    registry has an entry for the round id only if some event is still
    registered for it under some state; with no event left registered for
    the round id, the registry has no entry for it. Both removals return:
    the first once AddRoundEvent has returned for the event, the second for
    every round whose state is a state. *)
Theorem remove_prunes_round tr st :
  run initial tr = Ok st ->
  (forall i rid e,
     removing st !! i = Some (rid, e) ->
     (forall st', step st (RunRemove i) = Ok st' ->
        pruned (r st') rid /\
        ((forall s x, ~ registered (r st') rid s x) ->
         callbacks (r st') !! rid = None)) /\
     ((forall rid', (rid', e) ∉ adding st) ->
      exists st', step st (RunRemove i) = Ok st')) /\
  (forall ri,
     (forall e st',
        registered (r st) (ID ri) (N.to_nat (State ri)) e ->
        step st (Trigger ri) = Ok st' ->
        pruned (r st') (ID ri) /\
        ((forall s x, ~ registered (r st') (ID ri) s x) ->
         callbacks (r st') !! ID ri = None)) /\
     ((N.to_nat (State ri) < NUM_STATES)%nat ->
      exists st', step st (Trigger ri) = Ok st')).
Proof.
  intros Hrun. pose proof (reachable_invariant _ _ Hrun) as Hinv.
  assert (forall r0 rid, pruned r0 rid ->
            (forall s x, ~ registered r0 rid s x) ->
            callbacks r0 !! rid = None) as Hnone.
  { intros r0 rid Hpr Hno. destruct (callbacks r0 !! rid) eqn:Hr0; [|done].
    destruct Hpr as (s & x & Hx); [by rewrite Hr0|]. by destruct (Hno s x). }
  split.
  - intros i rid e Hi. split.
    + intros st' Hstep.
      pose proof (step_invariant _ _ _ Hinv Hstep) as Hinv'.
      assert (pruned (r st') rid) as Hpr; [|by split; [|apply Hnone]].
      simpl in Hstep. rewrite Hi in Hstep.
      apply bind_Ok in Hstep as (r' & Hrem & [= <-]). simpl in *.
      destruct (remove_Ok _ _ _ _ (inv_wf _ Hinv) Hrem) as (_ & _ & _ & Hpr & _).
      intros Hsome. destruct (Hpr Hsome) as [s Hs].
      apply map_choose in Hs as (b & x & Hx). exists s, x. unfold registered.
      by destruct (inv_reg _ Hinv' _ _ _ _ Hx) as (-> & _).
    + intros Hnot.
      destruct (RunRemove_unregisters _ _ _ _ Hinv Hi Hnot) as (st' & ? & _).
      by exists st'.
  - intros ri. split.
    + intros e st' Hreg Hstep.
      destruct (Trigger_registered _ _ _ _ Hinv Hreg Hstep) as (_ & _ & _ & Hpr & _).
      split; [done|by apply Hnone].
    + by apply Trigger_total.
Qed.

(** ** Further properties of the registry *)

(** X9. When TriggerRoundEvent panics. In every state the system reaches,
    it panics exactly when the state of the round is not below NUM_STATES
    while the registry has an entry for the round id; with no entry for
    the id it returns at once, whatever the state, and changes nothing.
    (Nothing is said here of a send that blocks: that depends on what
    other calls of TriggerRoundEvent do at the same time, which the read
    lock allows and the actions of this system leave out.) *)
Theorem TriggerRoundEvent_panics tr st ri :
  run initial tr = Ok st ->
  (step st (Trigger ri) = Panic <->
   (NUM_STATES <= N.to_nat (State ri))%nat /\
   is_Some (callbacks (r st) !! ID ri)) /\
  (callbacks (r st) !! ID ri = None -> step st (Trigger ri) = Ok st).
Proof.
  intros Hrun. pose proof (reachable_invariant _ _ Hrun) as Hinv. split.
  - destruct (decide (N.to_nat (State ri) < NUM_STATES)%nat) as [Hs|Hs].
    + destruct (Trigger_total st ri Hinv Hs) as [st' ->].
      split; [done|]. intros [? _]. lia.
    + simpl. unfold TriggerRoundEvent.
      destruct (callbacks (r st) !! ID ri) as [arr|] eqn:Harr; simpl.
      * assert (index arr (N.to_nat (State ri)) = Panic) as ->.
        { unfold index. rewrite lookup_ge_None_2; [done|].
          rewrite (inv_wf _ Hinv _ _ Harr). lia. }
        simpl. split; [|done]. intros _. split; [lia|by eexists].
      * split; [done|]. by intros [_ [? ?]].
  - intros Hnone. simpl. unfold TriggerRoundEvent. rewrite Hnone. simpl.
    by destruct st.
Qed.

Lemma addEvents_not_Blocked e ss arr : forEach (addEvent e) ss arr <> Blocked.
Proof.
  revert arr. induction ss as [|s ss IH]; intros arr; [done|].
  cbn [forEach]. destruct (addEvent e arr s) as [arr1| |] eqn:Hadd; simpl.
  - apply IH.
  - done.
  - unfold addEvent, index in Hadd. by destruct (arr !! s).
Qed.

(** X10. AddRoundEvent panics exactly when one of the states given is not
    below NUM_STATES, and never blocks; the goroutine of the event has
    been started by then, the registry not yet written. *)
Theorem AddRoundEvent_panics tr st rid callback timeout validStates :
  run initial tr = Ok st ->
  AddRoundEvent st rid callback timeout validStates <> Blocked /\
  (AddRoundEvent st rid callback timeout validStates = Panic <->
   exists s, s ∈ validStates /\ (NUM_STATES <= s)%nat) /\
  is_Some (waiters (start st rid callback timeout validStates) !! next st) /\
  r (start st rid callback timeout validStates) = r st.
Proof.
  intros Hrun. pose proof (reachable_invariant _ _ Hrun) as Hinv.
  split; [|split; [|split; [by simpl; rewrite lookup_insert_eq|done]]].
  - unfold AddRoundEvent. simpl. rewrite list_lookup_middle by done.
    unfold register.
    pose proof (addEvents_not_Blocked
                  (mkEventCallback (next st) validStates) validStates
                  (default zeroArray (callbacks (r st) !! rid))) as Hnb.
    simpl in *. by destruct (forEach _ _ _).
  - destruct (decide (Forall (fun s => (s < NUM_STATES)%nat) validStates))
      as [Hvs|Hvs].
    + destruct (AddRoundEvent_registers st rid callback timeout validStates Hinv Hvs)
        as (st' & -> & _).
      split; [done|]. intros (s & Hin & Hge).
      eapply Forall_forall in Hvs; [|done]. simpl in Hvs. lia.
    + split.
      * intros _. apply not_Forall_Exists in Hvs; [|intros ?; apply _].
        apply Exists_exists in Hvs as (s & Hin & Hge). simpl in Hge.
        exists s. split; [done|lia].
      * intros _. unfold AddRoundEvent. simpl.
        rewrite list_lookup_middle by done.
        destruct (register (r st) rid (mkEventCallback (next st) validStates))
          as [r'| |] eqn:Hreg; simpl; [|done|].
        -- by destruct (register_Ok _ _ _ _ (inv_wf _ Hinv) Hreg) as (? & _).
        -- unfold register in Hreg.
           pose proof (addEvents_not_Blocked
                         (mkEventCallback (next st) validStates) validStates
                         (default zeroArray (callbacks (r st) !! rid))) as Hnb.
           simpl in *. by destruct (forEach _ _ _).
Qed.

(** X11. AddRoundEvent with no state at all, for a round id without entry,
    leaves an entry for the id with every map empty: an entry without
    subscription, which no TriggerRoundEvent can signal or remove. *)
Theorem AddRoundEvent_no_states tr st rid callback timeout :
  run initial tr = Ok st -> callbacks (r st) !! rid = None ->
  exists st' e,
    AddRoundEvent st rid callback timeout [] = Ok (st', e) /\
    callbacks (r st') !! rid = Some zeroArray /\
    ~ pruned (r st') rid /\
    (forall ri, ID ri = rid -> (N.to_nat (State ri) < NUM_STATES)%nat ->
       step st' (Trigger ri) = Ok st').
Proof.
  intros Hrun Hnone. pose proof (reachable_invariant _ _ Hrun) as Hinv.
  set (st1 := mkSystem (mkRoundEvents (<[rid := zeroArray]> (callbacks (r st))))
                (chans st)
                (<[next st := mkWaiter rid callback (mkEventCallback (next st) [])
                                (now st + timeout) false]> (waiters st))
                (delete (length (adding st))
                   (adding st ++ [(rid, mkEventCallback (next st) [])]))
                (removing st) (calls st) (S (next st)) (now st)).
  assert (step (start st rid callback timeout []) (Register (length (adding st)))
          = Ok st1) as Hstep.
  { simpl. rewrite list_lookup_middle by done. unfold register. simpl.
    by rewrite Hnone. }
  assert (invariant st1) as Hinv1.
  { eapply step_invariant; [|exact Hstep]. by apply invariant_start. }
  assert (forall s, bucketOf (r st1) rid s = ∅) as Hempty.
  { intros s. rewrite (bucketOf_present _ _ zeroArray)
      by (subst st1; simpl; by rewrite lookup_insert_eq).
    unfold zeroArray. destruct (replicate NUM_STATES ∅ !! s) as [m|] eqn:Hm; [|done].
    by apply lookup_replicate in Hm as [-> _]. }
  exists st1, (mkEventCallback (next st) []). split.
  { unfold AddRoundEvent. by rewrite Hstep. }
  split; [subst st1; simpl; by rewrite lookup_insert_eq|]. split.
  - intros Hpr. destruct Hpr as (s & x & Hx).
    { subst st1. simpl. by rewrite lookup_insert_eq. }
    unfold registered in Hx. by rewrite Hempty, lookup_empty in Hx.
  - intros ri <- Hs. apply Trigger_nothing; [done..|]. apply Hempty.
Qed.

Lemma awaited_same w w' ri :
  w_rid w' = w_rid w -> w_event w' = w_event w ->
  awaited w ri -> awaited w' ri.
Proof. unfold awaited. by intros -> ->. Qed.

Lemma callOf_same w w' c :
  w_rid w' = w_rid w -> w_event w' = w_event w -> w_callback w' = w_callback w ->
  callOf w c -> callOf w' c.
Proof. unfold callOf, awaited. by intros -> -> ->. Qed.

Lemma sound_finish st a w (c : invocation) chans' removing' :
  invariant st -> sound st -> waiters st !! a = Some w ->
  by_event c = a -> callOf w c ->
  (forall b ri, chans' !! b = Some ri -> chans st !! b = Some ri) ->
  sound (mkSystem (r st) chans'
           (<[a := mkWaiter (w_rid w) (w_callback w) (w_event w)
                     (w_deadline w) true]> (waiters st))
           (adding st) removing' (calls st ++ [c]) (next st) (now st)).
Proof.
  intros Hinv [Hch Hcalls] Hw Hc Hcall Hsub.
  assert (forall b wb, waiters st !! b = Some wb ->
            exists wb', (<[a := mkWaiter (w_rid w) (w_callback w) (w_event w)
                                 (w_deadline w) true]> (waiters st)) !! b = Some wb' /\
              w_rid wb' = w_rid wb /\ w_event wb' = w_event wb /\
              w_callback wb' = w_callback wb) as Hmono.
  { intros b wb Hwb. rewrite lookup_insert. case_decide as Hab; [|by exists wb].
    subst b. rewrite Hw in Hwb. injection Hwb as <-. by eexists. }
  split; simpl.
  - intros b ri Hri. destruct (Hch _ _ (Hsub _ _ Hri)) as (wb & Hwb & Haw).
    destruct (Hmono _ _ Hwb) as (wb' & Hwb' & ? & ? & ?).
    exists wb'. split; [done|]. by eapply awaited_same.
  - intros c' [Hin|Heq%list_elem_of_singleton]%elem_of_app; [|subst c'].
    + destruct (Hcalls _ Hin) as (wb & Hwb & Hcb).
      destruct (Hmono _ _ Hwb) as (wb' & Hwb' & ? & ? & ?).
      exists wb'. split; [done|]. by eapply callOf_same.
    + destruct (Hmono _ _ Hw) as (wb' & Hwb' & ? & ? & ?).
      exists wb'. rewrite Hc. split; [done|]. by eapply callOf_same.
Qed.

Lemma step_sound st l st' :
  invariant st -> sound st -> step st l = Ok st' -> sound st'.
Proof.
  intros Hinv Hsound Hstep.
  destruct l as [d|rid cb timeout vs|i|ri|a|a|i]; simpl in Hstep.
  - case_bool_decide; [|done]. by injection Hstep as <-.
  - injection Hstep as <-. destruct Hsound as [Hch Hcalls].
    assert (forall b wb, waiters st !! b = Some wb ->
              waiters (start st rid cb timeout vs) !! b = Some wb) as Hmono.
    { intros b wb Hwb. simpl. rewrite lookup_insert_ne; [done|]. intros <-.
      pose proof (inv_fresh _ Hinv (next st) (ltac:(by eexists))). lia. }
    split; simpl.
    + intros b ri Hri. destruct (Hch _ _ Hri) as (wb & Hwb & ?).
      exists wb. split; [by apply Hmono|done].
    + intros c Hin. destruct (Hcalls _ Hin) as (wb & Hwb & ?).
      exists wb. split; [by apply Hmono|done].
  - destruct (adding st !! i) as [[rid e]|]; [|done].
    by apply bind_Ok in Hstep as (r' & _ & [= <-]).
  - apply bind_Ok in Hstep as ([r' chans'] & Htrig & [= <-]).
    destruct Hsound as [Hch Hcalls]. split; simpl; [|done].
    apply TriggerRoundEvent_Ok in Htrig
      as [(-> & -> & _)|(xs & Hxs & _ & Hsend & _)]; [done|].
    intros b ri' Hri'. rewrite (sends_Ok _ _ _ _ Hsend) in Hri'.
    case_decide as Hin; [|by apply Hch]. injection Hri' as <-.
    apply list_elem_of_fmap in Hin as (x & -> & Hx). rewrite Hxs in Hx.
    apply elem_of_bucket_list in Hx as [b Hb].
    destruct (inv_reg _ Hinv _ _ _ _ Hb) as (_ & Hs & _ & _ & (w & Hw & He & Hr)).
    exists w. split; [done|]. split; [done|]. by rewrite He.
  - destruct (waiters st !! a) as [w|] eqn:Hw; [|done].
    destruct (negb (w_done w) && _); [|done]. injection Hstep as <-.
    by apply sound_finish.
  - destruct (waiters st !! a) as [w|] eqn:Hw; [|done].
    destruct (chans st !! a) as [ri|] eqn:Hri; [|done].
    destruct (negb (w_done w)); [|done]. injection Hstep as <-.
    apply sound_finish; [done..| |].
    + split; [done|]. simpl. destruct Hsound as [Hch _].
      destruct (Hch _ _ Hri) as (w' & Hw' & Haw). by simplify_eq.
    + intros b ri' [_ ?]%lookup_delete_Some. done.
  - destruct (removing st !! i) as [[rid e]|]; [|done].
    by apply bind_Ok in Hstep as (r' & _ & [= <-]).
Qed.

Lemma reachable_sound tr st : run initial tr = Ok st -> sound st.
Proof.
  assert (invariant initial /\ sound initial) as Hinit.
  { split; [apply invariant_initial|]. split; simpl.
    - intros a ri. by rewrite lookup_empty.
    - intros c Hc. by apply not_elem_of_nil in Hc. }
  revert Hinit. generalize initial as st0.
  induction tr as [|l tr IH]; intros st0 [Hinv Hsound] Hrun; simpl in Hrun.
  - by injection Hrun as <-.
  - apply bind_Ok in Hrun as (st1 & Hstep & Hrun). apply (IH st1); [|done].
    split; [by eapply step_invariant|by eapply step_sound].
Qed.

(** X12. Nothing is delivered that was not subscribed. In every state the
    system reaches, a round info waiting in the signal channel of an event
    has the round id the event was added for and is in one of the states
    of the event; and every call made was made by the goroutine of an
    event, of the callback given to AddRoundEvent, either with
    timedOut=true and a round info of which only that round id is set, or
    with timedOut=false and a round info of that round id in one of the
    states of the event. *)
Theorem callbacks_as_subscribed tr st :
  run initial tr = Ok st ->
  (forall a ri, chans st !! a = Some ri ->
     exists w, waiters st !! a = Some w /\
       ID ri = w_rid w /\ N.to_nat (State ri) ∈ states (w_event w)) /\
  (forall c, c ∈ calls st ->
     exists w, waiters st !! by_event c = Some w /\
       callee c = w_callback w /\
       (arg_timedOut c = true -> arg_ri c = mkRoundInfo (w_rid w) 0 []) /\
       (arg_timedOut c = false ->
        ID (arg_ri c) = w_rid w /\
        N.to_nat (State (arg_ri c)) ∈ states (w_event w))).
Proof.
  intros Hrun. destruct (reachable_sound _ _ Hrun) as [Hch Hcalls]. split.
  - intros a ri Hri. destruct (Hch _ _ Hri) as (w & Hw & Haw). by exists w.
  - intros c Hc. destruct (Hcalls _ Hc) as (w & Hw & Hcallee & Harg).
    exists w. split; [done|]. split; [done|].
    destruct (arg_timedOut c); split; done.
Qed.

(** X13. TriggerRoundEvent touches only what it signals: an event that is
    registered, under any round and state, but not under the id and the
    state of the round triggered, stays registered where it was, and its
    channel stays empty. *)
Theorem TriggerRoundEvent_frame tr st ri st' rid s x :
  run initial tr = Ok st -> step st (Trigger ri) = Ok st' ->
  registered (r st) rid s x ->
  ~ registered (r st) (ID ri) (N.to_nat (State ri)) x ->
  registered (r st') rid s x /\ chans st' !! addr x = None.
Proof.
  intros Hrun Hstep Hreg Hnot.
  pose proof (reachable_invariant _ _ Hrun) as Hinv.
  destruct (inv_reg _ Hinv _ _ _ _ Hreg) as (_ & _ & _ & Hchan & _).
  simpl in Hstep. apply bind_Ok in Hstep as ([r' chans'] & Htrig & [= <-]).
  simpl. apply TriggerRoundEvent_Ok in Htrig
    as [(-> & -> & _)|(xs & Hxs & _ & Hsend & Hrems)]; [done|].
  destruct (removes_Ok _ _ _ _ (inv_wf _ Hinv) Hrems) as (_ & _ & _ & _ & Hbk).
  assert (forall y, y ∈ xs -> addr y = addr x -> False) as Hother.
  { intros y Hy Ha. rewrite Hxs in Hy.
    apply elem_of_bucket_list in Hy as [b Hb].
    destruct (inv_reg _ Hinv _ _ _ _ Hb) as (Hby & _).
    rewrite <- Hby, Ha in Hb.
    destruct (registered_unique _ _ _ _ _ _ _ Hinv Hreg Hb) as (-> & _).
    by apply Hnot. }
  split.
  - unfold registered. rewrite Hbk. rewrite decide_False; [done|].
    intros [_ (y & Hy & Ha & _)%Exists_exists]. by eapply Hother.
  - rewrite (sends_Ok _ _ _ _ Hsend). rewrite decide_False; [done|].
    intros (y & Ha & Hy)%list_elem_of_fmap. by eapply Hother.
Qed.

Lemma deleteEvents_absent rid e ss r :
  wf r -> Forall (fun s => (s < NUM_STATES)%nat) ss ->
  (forall s, s ∈ ss -> bucketOf r rid s !! addr e = None) ->
  forEach (deleteEvent rid e) ss r = Ok r.
Proof.
  intros Hwf Hss. induction Hss as [|s ss Hs _ IH]; intros Habs; simpl; [done|].
  assert (deleteEvent rid e r s = Ok r) as ->.
  { unfold deleteEvent. destruct (callbacks r !! rid) as [arr|] eqn:Harr.
    - destruct (lookup_lt_is_Some_2 arr s) as [m Hm].
      { by rewrite (Hwf _ _ Harr). }
      pose proof Hm as ->%index_Ok. simpl.
      specialize (Habs s (ltac:(by left))).
      rewrite (bucketOf_present _ _ _ _ Harr), Hm in Habs.
      simpl in Habs. rewrite delete_id by done.
      rewrite list_insert_id by done. rewrite insert_id by done. by destruct r.
    - unfold zeroArray, index. by rewrite lookup_replicate_2. }
  simpl. apply IH. intros s' Hs'. apply Habs. by right.
Qed.

(** X15. Remove is idempotent: once it has returned for an event and a
    round id, a second Remove of the same event for the same id returns
    and changes nothing in the registry. *)
Theorem remove_idempotent r rid e r1 :
  wf r -> remove r rid e = Ok r1 -> remove r1 rid e = Ok r1.
Proof.
  intros Hwf Hrem.
  destruct (remove_Ok _ _ _ _ Hwf Hrem) as (Hb & Hwf1 & _ & Hpr & Hbk).
  unfold remove. rewrite deleteEvents_absent; [|done..|].
  - simpl. destruct (callbacks r1 !! rid) as [arr|] eqn:Harr; simpl.
    + destruct (Hpr (ltac:(by eexists))) as [s Hs].
      rewrite (bucketOf_present _ _ _ _ Harr) in Hs.
      destruct (noneLeft arr) eqn:Hnone; [|done].
      destruct (arr !! s) as [m|] eqn:Hm; [|done]. simpl in Hs.
      by rewrite (proj1 (noneLeft_true arr) Hnone _ _ Hm) in Hs.
    + rewrite noneLeft_zeroArray, delete_id by done. by destruct r1.
  - intros s Hs. rewrite Hbk, decide_True by done. by rewrite lookup_delete_eq.
Qed.


(** X14. Each subscription ends in one call. In every state the system
    reaches, a goroutine that has left its select has made exactly one
    call, of its callback, and never makes another; one that still waits
    has made none, and is not stuck: once its deadline has passed it can
    take the timeout case, which is then its one call. *)
Theorem callback_exactly_once tr st a w :
  run initial tr = Ok st -> waiters st !! a = Some w ->
  (w_done w = true ->
   exists c, callsOf a st = [c] /\ callee c = w_callback w /\
     forall tr' st', run st tr' = Ok st' -> callsOf a st' = [c]) /\
  (w_done w = false ->
   callsOf a st = [] /\
   exists st',
     run st [Tick (Z.max 0 (w_deadline w - now st)); WaiterTimeout a] = Ok st' /\
     callsOf a st' =
       [mkInvocation a (w_callback w) (mkRoundInfo (w_rid w) 0 []) true]).
Proof.
  intros Hrun Hw. pose proof (reachable_invariant _ _ Hrun) as Hinv.
  pose proof (inv_calls _ Hinv a) as Hlen. rewrite Hw in Hlen. split.
  - intros Hdone. rewrite Hdone in Hlen.
    destruct (callsOf a st) as [|c [|c' rest]] eqn:Hc; try done.
    exists c. split; [done|]. split.
    + assert (c ∈ callsOf a st) as Hin by (rewrite Hc; left).
      apply list_elem_of_filter in Hin as [Hby Hin].
      destruct (reachable_sound _ _ Hrun) as [_ Hcalls].
      destruct (Hcalls _ Hin) as (w' & Hw' & Hcallee & _).
      rewrite Hby, Hw in Hw'. by injection Hw' as <-.
    + intros tr' st' Hrun'. by eapply callsOf_final.
  - intros Hdone. rewrite Hdone in Hlen.
    destruct (callsOf a st) as [|c rest] eqn:Hc; [|done].
    split; [done|]. cbn [run].
    assert (step st (Tick (Z.max 0 (w_deadline w - now st))) =
            Ok (mkSystem (r st) (chans st) (waiters st) (adding st)
                  (removing st) (calls st) (next st)
                  (now st + Z.max 0 (w_deadline w - now st)))) as ->.
    { simpl. by rewrite bool_decide_eq_true_2 by lia. }
    cbn. rewrite Hw, Hdone. cbn.
    rewrite bool_decide_eq_true_2 by lia.
    eexists. split; [done|]. unfold callsOf in *. cbn [calls].
    rewrite filter_app, Hc. cbn.
    by rewrite decide_True.
Qed.

End RoundEventsProperties.

(** * Circuit *)

Section CircuitProperties.

Import Circuit.

Context {Node : Type} `{Countable Node} {Host : Type}.

Local Open Scope Z_scope.

Implicit Types (c ci : @Circuit.Circuit Node _ _ Host) (n m : Node)
  (nids : list (option Node)).

(** ** [New] *)

Lemma indexed_absent c n :
  indexed c -> nodeIndexes c !! n = None <-> n ∉ nodes c.
Proof.
  intros Hidx. split.
  - intros Hnone [i Hi]%list_elem_of_lookup.
    assert (nodeIndexes c !! n = Some (Z.of_nat i)) as Hsome.
    { apply Hidx. split; [lia|]. by rewrite Nat2Z.id. }
    congruence.
  - intros Hnot. destruct (nodeIndexes c !! n) as [z|] eqn:Hz; [|done].
    apply Hidx in Hz as [_ Hz]. destruct Hnot. by eapply list_elem_of_lookup_2.
Qed.

Lemma indexed_step c n :
  indexed c -> n ∉ nodes c ->
  indexed (mkCircuit (nodes c ++ [n])
             (<[n := Z.of_nat (length (nodes c))]> (nodeIndexes c)) (hosts c)).
Proof.
  intros Hidx Hnot n' z. cbn [nodes nodeIndexes].
  rewrite lookup_insert_Some, lookup_app_Some, list_lookup_singleton_Some.
  rewrite (Hidx n' z). split.
  - intros [[<- <-]|[Hne [Hz Hl]]].
    + split; [lia|]. right. rewrite Nat2Z.id. split; [lia|]. split; [lia|done].
    + split; [done|]. by left.
  - intros [Hz [Hl|[Hge [Hk <-]]]].
    + right. split; [|done]. intros ->. destruct Hnot.
      by eapply list_elem_of_lookup_2.
    + left. split; [done|]. lia.
Qed.

Lemma newLoop_spec rest : forall c,
  indexed c -> NoDup (nodes c) ->
  newLoop c (Z.of_nat (length (nodes c))) rest <> Blocked /\
  (forall c', newLoop c (Z.of_nat (length (nodes c))) rest = Ok c' ->
     Some <$> nodes c' = (Some <$> nodes c) ++ rest /\
     NoDup (nodes c') /\ indexed c' /\ hosts c' = hosts c) /\
  (forall l, rest = Some <$> l -> NoDup (nodes c ++ l) ->
     exists c', newLoop c (Z.of_nat (length (nodes c))) rest = Ok c').
Proof.
  induction rest as [|[nid|] rest IH]; intros c Hidx Hnd; cbn [newLoop].
  - split; [done|]. split.
    + intros c' [= <-]. by rewrite app_nil_r.
    + intros l _ _. by eexists.
  - destruct (nodeIndexes c !! nid) as [z|] eqn:Hz.
    + split; [done|]. split; [done|].
      intros [|n l] [= ]. subst. intros Hnd'.
      apply Hidx in Hz as [_ Hz%list_elem_of_lookup_2].
      apply NoDup_app in Hnd' as (_ & Hdis & _).
      destruct (Hdis _ Hz). by left.
    + apply indexed_absent in Hz; [|done].
      set (c1 := mkCircuit (nodes c ++ [nid])
                   (<[nid := Z.of_nat (length (nodes c))]> (nodeIndexes c))
                   (hosts c)).
      assert (Z.of_nat (length (nodes c)) + 1 = Z.of_nat (length (nodes c1)))
        as ->.
      { cbn [c1 nodes]. rewrite length_app. simpl. lia. }
      destruct (IH c1) as (Hnb & Hok & Hex).
      { by apply indexed_step. }
      { cbn [c1 nodes]. apply NoDup_app. split; [done|].
        split; [|apply NoDup_singleton].
        intros x Hx ->%list_elem_of_singleton. done. }
      split; [done|]. split.
      * intros c' Hc'. destruct (Hok _ Hc') as (Hn & Hnd' & Hidx' & Hh).
        split; [|done]. rewrite Hn. cbn [c1 nodes].
        by rewrite fmap_app, <- app_assoc.
      * intros [|n l] [= ]. subst. intros Hnd'.
        apply (Hex l); [done|]. cbn [c1 nodes]. by rewrite <- app_assoc.
  - split; [done|]. split; [done|]. by intros [|n l] [= ].
Qed.

Lemma New_Ok nids c :
  New nids = Ok c ->
  Some <$> nodes c = nids /\ hosts c = [] /\ wellFormed c.
Proof.
  unfold New. case_bool_decide as Hlen; [done|]. intros Hc.
  pose (c0 := @mkCircuit Node _ _ Host [] ∅ []).
  destruct (newLoop_spec nids c0) as (_ & Hok & _).
  { intros n z. cbn. rewrite lookup_empty. split; [done|]. by intros [_ ?]. }
  { constructor. }
  destruct (Hok _ Hc) as (Hn & Hnd & Hidx & Hh).
  split; [done|]. split; [done|]. split; [|done].
  intros Hnil. rewrite Hnil in Hn. cbn in Hn. by subst nids.
Qed.

Lemma New_exists (l : list Node) :
  l <> [] -> NoDup l -> exists c, New (Host := Host) (Some <$> l) = Ok c.
Proof.
  intros Hne Hnd.
  pose (c0 := @mkCircuit Node _ _ Host [] ∅ []).
  destruct (newLoop_spec (Some <$> l) c0) as (_ & _ & Hex).
  { intros n z. cbn. rewrite lookup_empty. split; [done|]. by intros [_ ?]. }
  { constructor. }
  unfold New. rewrite bool_decide_eq_false_2 by (by destruct l).
  by apply (Hex l).
Qed.

(** X16. [New] never blocks; it returns a circuit exactly when the list is
    not empty and holds distinct nodes, none of the pointers being nil;
    the circuit then has these nodes in their order, no host, and its map
    gives each node its index. *)
Theorem New_circuit nids :
  New (Host := Host) nids <> Blocked /\
  ((exists c, New nids = Ok c) <->
   nids <> [] /\ exists l, nids = Some <$> l /\ NoDup l) /\
  (forall c, New nids = Ok c ->
     Some <$> nodes c = nids /\ hosts c = [] /\ wellFormed c).
Proof.
  pose (c0 := @mkCircuit Node _ _ Host [] ∅ []).
  destruct (newLoop_spec nids c0) as (Hnb & Hok & Hex).
  { intros n z. cbn. rewrite lookup_empty. split; [done|]. by intros [_ ?]. }
  { constructor. }
  split; [|split].
  - unfold New. by case_bool_decide.
  - split.
    + intros [c Hc]. destruct (New_Ok _ _ Hc) as (Hn & _ & Hne & Hnd & _).
      split; [|by exists (nodes c)].
      intros ->. by destruct (nodes c).
    + intros (Hne & l & -> & Hnd). unfold New.
      rewrite bool_decide_eq_false_2; [by apply (Hex l)|].
      by destruct l.
  - apply New_Ok.
Qed.


(** ** Locations *)

Lemma at_Ok {A} (xs : list A) (k : nat) (x : A) :
  xs !! k = Some x -> at_ xs (Z.of_nat k) = Ok x.
Proof.
  intros Hk. unfold at_, index.
  rewrite bool_decide_eq_false_2 by lia. by rewrite Nat2Z.id, Hk.
Qed.

Lemma at_Ok_inv {A} (xs : list A) (i : Z) (x : A) :
  at_ xs i = Ok x -> 0 <= i < Z.of_nat (length xs) /\ xs !! Z.to_nat i = Some x.
Proof.
  unfold at_, index. case_bool_decide; [done|].
  destruct (xs !! Z.to_nat i) as [y|] eqn:Hy; [|done]. intros [= <-].
  apply lookup_lt_Some in Hy as Hlt. split; [lia|done].
Qed.

Lemma location_of c n (k : nat) :
  wellFormed c -> nodes c !! k = Some n -> GetNodeLocation c n = Z.of_nat k.
Proof.
  intros (_ & _ & Hidx) Hk. unfold GetNodeLocation.
  assert (nodeIndexes c !! n = Some (Z.of_nat k)) as ->; [|done].
  apply Hidx. split; [lia|]. by rewrite Nat2Z.id.
Qed.

Lemma location_absent c n :
  wellFormed c -> n ∉ nodes c -> GetNodeLocation c n = -1.
Proof.
  intros (_ & _ & Hidx) Hn. unfold GetNodeLocation.
  by apply (indexed_absent _ _ Hidx) in Hn as ->.
Qed.

Lemma location_present c n :
  wellFormed c -> n ∈ nodes c ->
  exists k : nat, nodes c !! k = Some n /\ GetNodeLocation c n = Z.of_nat k /\
                  Z.of_nat k < Len c.
Proof.
  intros Hwf [k Hk]%list_elem_of_lookup. exists k.
  split; [done|]. split; [by apply location_of|].
  apply lookup_lt_Some in Hk. unfold Len. lia.
Qed.

(** X17. In a circuit made by [New], [GetNodeLocation] is -1 exactly for
    the nodes that are not in it; for a node of the circuit it is the index
    at which [GetNodeAtIndex] gives the node back, and the location of the
    node at an index is that index. [GetNodeAtIndex] panics exactly out of
    range. *)
Theorem GetNodeLocation_GetNodeAtIndex c :
  wellFormed c ->
  (forall n, GetNodeLocation c n = -1 <-> n ∉ nodes c) /\
  (forall n, n ∈ nodes c ->
     0 <= GetNodeLocation c n < Len c /\
     GetNodeAtIndex c (GetNodeLocation c n) = Ok n) /\
  (forall i n, GetNodeAtIndex c i = Ok n -> GetNodeLocation c n = i) /\
  (forall i, GetNodeAtIndex c i = Panic <-> i < 0 \/ Len c <= i).
Proof.
  intros Hwf. split; [|split; [|split]].
  - intros n. split; [|by apply location_absent].
    intros Hloc Hin. destruct (location_present c n) as (k & _ & Hk & _); [done..|].
    lia.
  - intros n Hin. destruct (location_present c n) as (k & Hk & -> & Hlt); [done..|].
    split; [lia|]. unfold GetNodeAtIndex.
    rewrite bool_decide_eq_false_2 by lia. by apply at_Ok.
  - intros i n. unfold GetNodeAtIndex. case_bool_decide; [done|].
    intros [Hi Hn]%at_Ok_inv. rewrite (location_of c n (Z.to_nat i)); [lia|done..].
  - intros i. unfold GetNodeAtIndex. case_bool_decide as Hi; [done|].
    split; [|done]. unfold at_, index. rewrite bool_decide_eq_false_2 by lia.
    destruct (nodes c !! Z.to_nat i) eqn:Hl; [done|].
    apply lookup_ge_None in Hl. unfold Len in Hi. lia.
Qed.

(** ** Neighbours *)

Lemma GetNextNode_at c n (k : nat) :
  wellFormed c -> nodes c !! k = Some n ->
  GetNextNode c n = at_ (nodes c)
    (if bool_decide (Z.of_nat k + 1 < Len c) then Z.of_nat k + 1 else 0).
Proof.
  intros Hwf Hk. unfold GetNextNode. rewrite (location_of c n k) by done.
  apply lookup_lt_Some in Hk as Hlt.
  rewrite bool_decide_eq_false_2 by lia.
  rewrite bool_decide_eq_false_2 by (unfold Len; lia).
  f_equal. case_bool_decide as Hlast.
  - apply Z.rem_small. lia.
  - assert (Z.of_nat k + 1 = Len c) as -> by (unfold Len in *; lia).
    apply Z.rem_same. unfold Len. lia.
Qed.

Lemma GetPrevNode_at c n (k : nat) :
  wellFormed c -> nodes c !! k = Some n ->
  GetPrevNode c n = at_ (nodes c)
    (if bool_decide (k = 0%nat) then Len c - 1 else Z.of_nat k - 1).
Proof.
  intros Hwf Hk. unfold GetPrevNode. rewrite (location_of c n k) by done.
  rewrite bool_decide_eq_false_2 by lia.
  f_equal. repeat case_bool_decide; lia.
Qed.

(** X18. In a circuit made by [New], a node of the circuit has a next and
    a previous node, both in the circuit, and each of the two steps undoes
    the other; for a node that is not in the circuit both panic. *)
Theorem GetNextNode_GetPrevNode c n :
  wellFormed c ->
  (n ∈ nodes c ->
   exists m p, GetNextNode c n = Ok m /\ GetPrevNode c m = Ok n /\
               GetPrevNode c n = Ok p /\ GetNextNode c p = Ok n /\
               m ∈ nodes c /\ p ∈ nodes c) /\
  (n ∉ nodes c -> GetNextNode c n = Panic /\ GetPrevNode c n = Panic).
Proof.
  intros Hwf. split.
  - intros [k Hk]%list_elem_of_lookup.
    apply lookup_lt_Some in Hk as Hlt.
    set (j := if bool_decide (S k < length (nodes c))%nat then S k else 0%nat).
    set (i := if bool_decide (k = 0%nat) then (length (nodes c) - 1)%nat
              else (k - 1)%nat).
    destruct (lookup_lt_is_Some_2 (nodes c) j) as [m Hm].
    { unfold j. case_bool_decide; lia. }
    destruct (lookup_lt_is_Some_2 (nodes c) i) as [p Hp].
    { unfold i. case_bool_decide; lia. }
    exists m, p.
    rewrite (GetNextNode_at c n k), (GetPrevNode_at c m j) by done.
    rewrite (GetPrevNode_at c n k), (GetNextNode_at c p i) by done.
    unfold Len.
    assert ((if bool_decide (Z.of_nat k + 1 < Z.of_nat (length (nodes c)))
             then Z.of_nat k + 1 else 0) = Z.of_nat j) as ->.
    { unfold j. repeat case_bool_decide; lia. }
    assert ((if bool_decide (j = 0%nat) then Z.of_nat (length (nodes c)) - 1
             else Z.of_nat j - 1) = Z.of_nat k) as ->.
    { unfold j. repeat case_bool_decide; lia. }
    assert ((if bool_decide (k = 0%nat) then Z.of_nat (length (nodes c)) - 1
             else Z.of_nat k - 1) = Z.of_nat i) as ->.
    { unfold i. repeat case_bool_decide; lia. }
    assert ((if bool_decide (Z.of_nat i + 1 < Z.of_nat (length (nodes c)))
             then Z.of_nat i + 1 else 0) = Z.of_nat k) as ->.
    { unfold i. repeat case_bool_decide; lia. }
    rewrite (at_Ok _ _ _ Hm), (at_Ok _ _ _ Hp), (at_Ok _ _ _ Hk).
    repeat split; by eapply list_elem_of_lookup_2.
  - intros Hn. unfold GetNextNode, GetPrevNode.
    rewrite (location_absent c n) by done. by rewrite !bool_decide_eq_true_2.
Qed.

(** X19. In a circuit made by [New], [IsFirstNode] holds of the first node
    of the list alone and [IsLastNode] of the last alone; the node after
    the last is the first, and the node before the first is the last. *)
Theorem IsFirstNode_IsLastNode c n :
  wellFormed c ->
  (IsFirstNode c n = true <-> head (nodes c) = Some n) /\
  (IsLastNode c n = true <-> last (nodes c) = Some n) /\
  (IsLastNode c n = true ->
   exists m, GetNextNode c n = Ok m /\ IsFirstNode c m = true) /\
  (IsFirstNode c n = true ->
   exists p, GetPrevNode c n = Ok p /\ IsLastNode c p = true).
Proof.
  intros Hwf.
  assert (forall x, IsFirstNode c x = true <-> nodes c !! 0%nat = Some x) as Hfirst.
  { intros x. unfold IsFirstNode. rewrite bool_decide_eq_true. split.
    - intros Hloc. destruct (decide (x ∈ nodes c)) as [Hin|Hout].
      + destruct (location_present c x) as (k & Hk & Hk' & _); [done..|].
        by replace k with 0%nat in Hk by lia.
      + rewrite (location_absent c x) in Hloc by done. lia.
    - intros Hx. by rewrite (location_of c x 0). }
  assert (forall x, IsLastNode c x = true <->
                    nodes c !! (length (nodes c) - 1)%nat = Some x) as Hlast.
  { intros x. unfold IsLastNode, Len. rewrite bool_decide_eq_true.
    destruct Hwf as (Hne & Hwf'). assert (0 < length (nodes c))%nat as Hpos.
    { destruct (nodes c); [done|simpl; lia]. }
    assert (wellFormed c) as Hwf by done. split.
    - intros Hloc. destruct (decide (x ∈ nodes c)) as [Hin|Hout].
      + destruct (location_present c x) as (k & Hk & Hk' & _); [done..|].
        by replace (length (nodes c) - 1)%nat with k by lia.
      + rewrite (location_absent c x) in Hloc by done. lia.
    - intros Hx. rewrite (location_of c x _ Hwf Hx). lia. }
  assert (0 < length (nodes c))%nat as Hpos.
  { destruct Hwf as (Hne & _). destruct (nodes c); [done|simpl; lia]. }
  split; [|split; [|split]].
  - rewrite Hfirst. by rewrite head_lookup.
  - rewrite Hlast. by rewrite last_lookup, Nat.sub_1_r.
  - intros Hn%Hlast. destruct (lookup_lt_is_Some_2 (nodes c) 0) as [m Hm]; [lia|].
    exists m. split; [|by apply Hfirst].
    rewrite (GetNextNode_at c n _ Hwf Hn). unfold Len.
    rewrite bool_decide_eq_false_2 by lia. by apply (at_Ok _ 0%nat).
  - intros Hn%Hfirst.
    destruct (lookup_lt_is_Some_2 (nodes c) (length (nodes c) - 1)) as [p Hp];
      [lia|].
    exists p. split; [|by apply Hlast].
    rewrite (GetPrevNode_at c n _ Hwf Hn). rewrite bool_decide_eq_true_2 by done.
    unfold Len.
    replace (Z.of_nat (length (nodes c)) - 1)
      with (Z.of_nat (length (nodes c) - 1)) by lia.
    by apply at_Ok.
Qed.


(** ** Orderings *)

Lemma shiftLoop_rotation (k : nat) : forall l : list (option Node),
  (k <= length l)%nat -> shiftLoop l k = Ok (drop k l ++ take k l).
Proof.
  induction k as [|k IH]; intros l Hk; cbn [shiftLoop].
  - by rewrite drop_0, take_0, app_nil_r.
  - destruct l as [|x tl]; [simpl in Hk; lia|]. simpl in Hk.
    rewrite IH by (rewrite length_app; simpl; lia).
    rewrite drop_app_le, take_app_le by lia. cbn [drop take].
    by rewrite <- app_assoc.
Qed.

Lemma orderings_spec c (turns : list nat) :
  wellFormed c ->
  Forall (fun i => i < length (nodes c))%nat turns ->
  exists cs, orderings (Some <$> nodes c) turns = Ok cs /\
    Forall2 (fun i ci => nodes ci = drop i (nodes c) ++ take i (nodes c) /\
                         hosts ci = [] /\ wellFormed ci) turns cs.
Proof.
  intros Hwf. induction turns as [|i turns IH]; intros Hall; cbn [orderings].
  - exists []. split; [done|constructor].
  - apply Forall_cons in Hall as [Hi Hall]. destruct (IH Hall) as (cs & -> & Hcs).
    unfold shiftLeft. rewrite Nat2Z.id.
    rewrite shiftLoop_rotation by (rewrite length_fmap; lia).
    rewrite <- fmap_drop, <- fmap_take, <- fmap_app.
    destruct Hwf as (Hne & Hnd & Hidx).
    destruct (New_exists (drop i (nodes c) ++ take i (nodes c))) as [ci Hci].
    { intros Hnil. apply (f_equal length) in Hnil.
      rewrite length_app, length_drop, length_take in Hnil. simpl in Hnil. lia. }
    { rewrite NoDup_app in *. rewrite <- (take_drop i (nodes c)) in Hnd.
      apply NoDup_app in Hnd as (Ht & Hdis & Hd).
      split; [done|]. split; [|done]. intros x Hx Hx'. by apply (Hdis x). }
    cbn. rewrite Hci. cbn.
    exists (ci :: cs). split; [done|]. constructor; [|done].
    destruct (New_Ok _ _ Hci) as (Hn & Hh & Hwfi).
    split; [|done]. by apply (inj (fmap Some)).
Qed.

Lemma GetNodeAtIndex_index c (k : nat) :
  (k < length (nodes c))%nat -> GetNodeAtIndex c (Z.of_nat k) = index (nodes c) k.
Proof.
  intros Hk. unfold GetNodeAtIndex, Len, at_.
  rewrite !bool_decide_eq_false_2 by lia. by rewrite Nat2Z.id.
Qed.

(** X20. For a circuit made by [New], [GetOrdering] returns as many
    circuits as there are nodes. The circuit of index [i] holds the same
    nodes shifted left by [i]: its node at [j] is the node of the original
    at [(i + j) mod Len]. Each is a circuit of its own as [New] makes it,
    and has no host, whatever hosts the original has. *)
Theorem GetOrdering_rotations c :
  wellFormed c ->
  exists cs, GetOrdering c = Ok cs /\
    length cs = length (nodes c) /\
    forall (i : nat) ci, cs !! i = Some ci ->
      nodes ci = drop i (nodes c) ++ take i (nodes c) /\
      hosts ci = [] /\ wellFormed ci /\
      forall j, 0 <= j < Len c ->
        GetNodeAtIndex ci j = GetNodeAtIndex c ((Z.of_nat i + j) `mod` Len c).
Proof.
  intros Hwf. unfold GetOrdering.
  destruct (orderings_spec c (seq 0 (length (nodes c))) Hwf) as (cs & -> & Hcs).
  { apply Forall_seq. intros j Hj. lia. }
  exists cs. split; [done|].
  apply Forall2_length in Hcs as Hlen. rewrite length_seq in Hlen.
  split; [done|]. intros i ci Hi.
  destruct (Forall2_lookup_r _ _ _ _ _ Hcs Hi) as (t & Ht & Hn & Hh & Hwfi).
  apply lookup_seq in Ht as [-> Hlt]. simpl in Hn.
  split; [done|]. split; [done|]. split; [done|].
  intros j Hj. unfold Len in *. set (len := length (nodes c)) in *.
  assert (length (nodes ci) = len) as Hleni.
  { rewrite Hn, length_app, length_drop, length_take. lia. }
  replace j with (Z.of_nat (Z.to_nat j)) by lia.
  set (k := Z.to_nat j). assert (k < len)%nat as Hk by lia.
  rewrite (GetNodeAtIndex_index ci k) by lia. unfold index. rewrite Hn.
  destruct (decide (i + k < len)%nat) as [Hlow|Hhigh].
  - rewrite Z.mod_small by lia.
    replace (Z.of_nat i + Z.of_nat k) with (Z.of_nat (i + k)) by lia.
    rewrite (GetNodeAtIndex_index c (i + k)) by done. unfold index.
    rewrite lookup_app_l by (rewrite length_drop; lia).
    by rewrite lookup_drop.
  - replace (Z.of_nat i + Z.of_nat k)
      with (Z.of_nat (i + k - len) + 1 * Z.of_nat len) by lia.
    rewrite Z.mod_add by lia. rewrite Z.mod_small by lia.
    rewrite (GetNodeAtIndex_index c (i + k - len)) by (fold len; lia).
    unfold index.
    rewrite lookup_app_r by (rewrite length_drop; fold len; lia).
    rewrite length_drop. fold len.
    rewrite lookup_take_lt by lia.
    by replace (k - (len - i))%nat with (i + k - len)%nat by lia.
Qed.

(** ** Hosts *)

(** X21. [AddHost] puts the host at the end: [GetHostAtIndex] gives it at
    the index that was the number of hosts, and what it gave before at the
    lower ones; it panics exactly out of range. The nodes and their
    locations are as before. *)
Theorem AddHost_GetHostAtIndex c (newHost : Host) :
  GetHostAtIndex (AddHost c newHost) (Z.of_nat (length (hosts c))) = Ok newHost /\
  (forall i, 0 <= i < Z.of_nat (length (hosts c)) ->
     GetHostAtIndex (AddHost c newHost) i = GetHostAtIndex c i /\
     exists h, GetHostAtIndex c i = Ok h) /\
  (forall i, GetHostAtIndex c i = Panic <->
             i < 0 \/ Z.of_nat (length (hosts c)) <= i) /\
  (forall n, GetNodeLocation (AddHost c newHost) n = GetNodeLocation c n) /\
  (forall i, GetNodeAtIndex (AddHost c newHost) i = GetNodeAtIndex c i) /\
  (wellFormed c -> wellFormed (AddHost c newHost)).
Proof.
  split; [|split; [|split; [|split; [|split]]]]; try done.
  - unfold GetHostAtIndex, AddHost, at_, index. cbn [hosts].
    rewrite length_app. simpl.
    rewrite !bool_decide_eq_false_2 by lia.
    rewrite Nat2Z.id, lookup_app_r by lia. by rewrite Nat.sub_diag.
  - intros i Hi. unfold GetHostAtIndex, AddHost, at_, index. cbn [hosts].
    rewrite length_app. simpl.
    rewrite !bool_decide_eq_false_2 by lia.
    rewrite lookup_app_l by lia.
    destruct (lookup_lt_is_Some_2 (hosts c) (Z.to_nat i)) as [h ->]; [lia|].
    split; [done|]. by exists h.
  - intros i. unfold GetHostAtIndex. case_bool_decide as Hi; [done|].
    split; [|done]. unfold at_, index. rewrite bool_decide_eq_false_2 by lia.
    destruct (hosts c !! Z.to_nat i) eqn:Hl; [done|].
    apply lookup_ge_None in Hl. lia.
Qed.

End CircuitProperties.

(** ** [shiftLeft] on slices *)

Section ShiftLeft.

Import Circuit.

Context {Node : Type}.

Implicit Types (h : list (list (option Node))) (s cur : slice)
  (x : option Node).

Lemma cell_array h s k :
  (s_arr s < length h)%nat -> cell h (s_arr s) k = array_of h s !! k.
Proof.
  intros Hs. unfold cell, array_of.
  by destruct (lookup_lt_is_Some_2 h (s_arr s) Hs) as [arr ->].
Qed.

(** One turn of the loop. *)
Lemma shift_turn spare h cur x tl :
  valid h cur -> view h cur = x :: tl ->
  exists h' cur',
    append spare h (mkSlice (s_arr cur) (S (s_off cur)) (s_len cur - 1)) x
      = (h', cur') /\
    view h' cur' = tl ++ [x] /\ valid h' cur' /\ s_len cur' = s_len cur /\
    (length h <= length h')%nat /\ untouched h h' cur /\
    (s_arr cur' = s_arr cur /\ s_off cur' = S (s_off cur) \/
     (length h <= s_arr cur')%nat) /\
    (forall s0, valid h s0 -> valid h' s0).
Proof.
  intros [Harr Hlen] Hview. unfold view in Hview.
  set (arr := array_of h cur) in *. set (off := s_off cur) in *.
  destruct (s_len cur) as [|n] eqn:Hn; [done|].
  destruct (drop off arr) as [|x' d'] eqn:Hd; [done|].
  cbn [take] in Hview. injection Hview as -> Htl.
  assert (length arr = (off + S (length d'))%nat) as Hlarr.
  { apply (f_equal length) in Hd. rewrite length_drop in Hd. simpl in Hd. lia. }
  assert (drop (S off) arr = d') as Hd'.
  { replace (S off) with (off + 1)%nat by lia.
    by rewrite <- drop_drop, Hd. }
  assert (length tl = n) as Hltl.
  { rewrite <- Htl, length_take. lia. }
  set (newList := mkSlice (s_arr cur) (S off) (S n - 1)).
  assert (array_of h newList = arr) as Harr' by done.
  assert (view h newList = tl) as Hnew.
  { unfold view. cbn [newList s_len s_off]. rewrite Harr', Hd'.
    by replace (S n - 1)%nat with n by lia. }
  unfold append. rewrite Hnew.
  assert (cap h newList = length d') as ->.
  { unfold cap. rewrite Harr'. cbn [newList s_off]. lia. }
  cbn [newList s_len s_off s_arr]. rewrite Harr'.
  replace (S n - 1)%nat with n by lia.
  case_bool_decide as Hcap.
  - eexists _, _. split; [done|].
    assert (array_of (<[s_arr cur := <[(S off + n)%nat := x]> arr]> h)
              (mkSlice (s_arr cur) (S off) (S n))
            = <[(S off + n)%nat := x]> arr) as Harr''.
    { unfold array_of. cbn [s_arr]. by rewrite list_lookup_insert_eq. }
    split; [|split; [|split; [|split; [|split; [|split]]]]].
    + unfold view. rewrite Harr''. cbn [s_len s_off].
      rewrite drop_insert_ge by lia. rewrite Hd'.
      replace (S off + n - S off)%nat with n by lia.
      rewrite (take_S_r _ _ x) by (apply list_lookup_insert_eq; lia).
      by rewrite take_insert_ge, Htl by lia.
    + split; [by rewrite length_insert|]. rewrite Harr''. cbn [s_off s_len].
      rewrite length_insert. lia.
    + done.
    + by rewrite length_insert.
    + intros a k Ha Hk. unfold cell.
      destruct (decide (a = s_arr cur)) as [->|Hne].
      * rewrite list_lookup_insert_eq by done.
        fold (cell h (s_arr cur) k). rewrite (cell_array h cur) by done.
        fold arr. cbn. apply list_lookup_insert_ne. lia.
      * by rewrite list_lookup_insert_ne.
    + by left.
    + intros s0 [Ha0 Hle0]. split; [by rewrite length_insert|].
      unfold array_of in *.
      destruct (decide (s_arr s0 = s_arr cur)) as [Heq|Hne].
      * rewrite Heq in *. rewrite list_lookup_insert_eq by done.
        fold (array_of h cur) in Hle0. fold arr in Hle0. cbn.
        by rewrite length_insert.
      * by rewrite list_lookup_insert_ne.
  - eexists _, _. split; [done|].
    set (fresh := tl ++ [x] ++ replicate (spare (length d') (S n)) None).
    assert (array_of (h ++ [fresh]) (mkSlice (length h) 0 (S n)) = fresh)
      as Harr''.
    { unfold array_of. cbn [s_arr].
      by rewrite lookup_app_r, Nat.sub_diag by lia. }
    split; [|split; [|split; [|split; [|split; [|split]]]]].
    + unfold view. rewrite Harr''. cbn [s_len s_off]. rewrite drop_0.
      unfold fresh. rewrite app_assoc.
      apply take_app_length'. rewrite length_app. simpl. lia.
    + split; [rewrite length_app; simpl; lia|]. rewrite Harr''.
      cbn [s_off s_len]. unfold fresh. rewrite !length_app. simpl. lia.
    + done.
    + rewrite length_app. lia.
    + intros a k Ha _. unfold cell. by rewrite lookup_app_l.
    + right. cbn. lia.
    + intros s0 [Ha0 Hle0]. split; [rewrite length_app; lia|].
      unfold array_of in *. by rewrite lookup_app_l.
Qed.

Lemma shiftLoopH_spec spare size (turns : nat) : forall h cur,
  valid h cur -> s_len cur = size ->
  match shiftLoop (view h cur) turns with
  | Ok l' =>
      exists h' res, shiftLoopH spare size h cur turns = Ok (h', res) /\
        view h' res = l' /\ valid h' res /\
        (length h <= length h')%nat /\ untouched h h' cur /\
        (forall s0, valid h s0 -> valid h' s0)
  | Panic => shiftLoopH spare size h cur turns = Panic
  | Blocked => False
  end.
Proof.
  induction turns as [|turns IH]; intros h cur Hvalid Hsize;
    cbn [shiftLoop shiftLoopH].
  - exists h, cur. split; [done|]. split; [done|]. split; [done|].
    split; [done|]. split; [by intros a k _ _|done].
  - assert (length (view h cur) = size) as Hlv.
    { destruct Hvalid as [_ Hle]. unfold view.
      rewrite length_take, length_drop. lia. }
    destruct (view h cur) as [|x tl] eqn:Hview.
    + simpl in Hlv. subst size. rewrite <- Hlv.
      by rewrite bool_decide_eq_false_2 by lia.
    + simpl in Hlv. rewrite bool_decide_eq_true_2.
      2:{ destruct Hvalid as [_ Hle]. unfold cap. lia. }
      cbn.
      destruct (shift_turn spare h cur x tl Hvalid Hview)
        as (h1 & cur1 & Happ & Hv1 & Hvalid1 & Hlen1 & Hh1 & Hun1 & Hwhere & Hk1).
      rewrite Hsize in Happ. rewrite Happ.
      specialize (IH h1 cur1 Hvalid1 (eq_trans Hlen1 Hsize)).
      rewrite Hv1 in IH.
      destruct (shiftLoop (tl ++ [x]) turns) as [l'| |]; [|done..].
      destruct IH as (h' & res & -> & Hv & Hvalid' & Hh' & Hun' & Hk').
      exists h', res. split; [done|]. split; [done|]. split; [done|].
      split; [lia|]. split; [|by intros s0 Hs0; apply Hk', Hk1].
      intros a k Ha Hk.
      rewrite Hun'; [by apply Hun1| lia |].
      destruct Hwhere as [[-> ->]|Hfresh]; [|left; lia].
      destruct Hk as [Hk|Hk]; [by left|right; lia].
Qed.

Lemma shiftLoop_Panic (k : nat) : forall l : list (option Node),
  shiftLoop l k = Panic <-> l = [] /\ (0 < k)%nat.
Proof.
  induction k as [|k IH]; intros l; cbn [shiftLoop].
  - split; [done|]. intros [_ ?]. lia.
  - destruct l as [|x tl].
    + split; [|done]. intros _. split; [done|lia].
    + rewrite IH. split; [|by intros [? _]]. intros [Hnil _].
      by destruct tl.
Qed.

(** X22. [shiftLeft] on slices: it panics exactly when an empty list is
    to be shifted at least once, and otherwise returns a slice that shows
    the elements shifted as [shiftLeft] on the elements gives them. Of the
    arrays there were it writes only the one of its argument, and there
    only cells past the end of the argument: the list passed in shows the
    same elements afterwards. *)
Theorem shiftLeft_slices spare h s (rotation : Z) :
  valid h s ->
  shiftLeftH spare h s rotation <> Blocked /\
  (shiftLeftH spare h s rotation = Panic <->
   view h s = [] /\ (0 < rotation)%Z) /\
  (forall l', shiftLeft (view h s) rotation = Ok l' ->
     exists h' res, shiftLeftH spare h s rotation = Ok (h', res) /\
       view h' res = l' /\ valid h' res /\
       untouched h h' s /\ valid h' s /\ view h' s = view h s).
Proof.
  intros Hvalid. unfold shiftLeft, shiftLeftH.
  pose proof (shiftLoopH_spec spare (s_len s) (Z.to_nat rotation) h s Hvalid
                eq_refl) as Hspec.
  pose proof (shiftLoop_Panic (Z.to_nat rotation) (view h s)) as Hpanic.
  destruct (shiftLoop (view h s) (Z.to_nat rotation)) as [l| |]; [| |done].
  2:{ rewrite Hspec. split; [done|]. split; [|done]. split; [|done].
      intros _.
      destruct (proj1 Hpanic eq_refl) as [Hnil Hpos]. split; [done|lia]. }
  destruct Hspec as (h' & res & Hrun & Hv & Hvalid' & Hh' & Hun & Hkeep).
  split; [by rewrite Hrun|]. split.
  { rewrite Hrun. split; [done|]. intros [Hnil Hpos].
    assert (@Ok (list (option Node)) l = Panic) as Habs; [|done].
    apply Hpanic. split; [done|lia]. }
  intros l' [= <-]. exists h', res. split; [done|]. split; [done|].
  split; [done|]. split; [done|]. split; [by apply Hkeep|].
  apply list_eq. intros k. unfold view.
  destruct Hvalid as [Ha Hle].
  destruct (decide (k < s_len s)%nat) as [Hk|Hk].
  - rewrite !lookup_take_lt, !lookup_drop by done.
    assert (s_arr s < length h')%nat as Ha' by lia.
    rewrite <- (cell_array h' s), <- (cell_array h s) by done.
    apply Hun; [done|]. right. lia.
  - by rewrite !lookup_take_ge by lia.
Qed.

End ShiftLeft.

(** * Ndf *)

Section NdfProperties.

Import Ndf.

Context {NetworkDefinition NDF : Type}.
Variable DecodeNDF : NDF -> option NetworkDefinition.
Variable Marshal : NetworkDefinition -> option (list Byte.byte).
Variable sha256 : list Byte.byte -> list Byte.byte.

Implicit Types (file : @Ndf.Ndf NetworkDefinition NDF) (m : NDF).

(** X23. The hash and the protobuf form follow the definition. After
    [NewNdf] and any calls of [Update], failed ones included: the hash
    held is the SHA-256 sum of the marshalled definition held, or empty if
    that definition does not marshal; and the protobuf form held is nil
    with the definition still the one given to [NewNdf], or one of those
    passed to [Update], which decodes to the definition held. So
    [CompareHash] accepts exactly that hash. *)
Theorem Update_keeps_hash definition file0 (ms : list NDF) :
  NewNdf Marshal sha256 definition = Some file0 ->
  let file := updates DecodeNDF Marshal sha256 file0 ms in
  (generateHash Marshal sha256 (Get file) = Some (GetHash file) \/
   generateHash Marshal sha256 (Get file) = None /\ GetHash file = []) /\
  (GetPb file = None /\ Get file = definition \/
   exists m, GetPb file = Some m /\ m ∈ ms /\ DecodeNDF m = Some (Get file)) /\
  (forall h, CompareHash file h = true <->
     h = default [] (generateHash Marshal sha256 (Get file))).
Proof.
  intros Hnew. cbn zeta.
  assert ((generateHash Marshal sha256 (Get file0) = Some (GetHash file0) \/
           generateHash Marshal sha256 (Get file0) = None /\ GetHash file0 = []) /\
          (GetPb file0 = None /\ Get file0 = definition \/
           exists m, GetPb file0 = Some m /\ m ∈ @nil NDF /\
                     DecodeNDF m = Some (Get file0))) as Hinit.
  { unfold NewNdf in Hnew.
    destruct (generateHash Marshal sha256 definition) as [h|] eqn:Hh; [|done].
    injection Hnew as <-. cbn. split; left; done. }
  assert (forall ms0 file,
    (generateHash Marshal sha256 (Get file) = Some (GetHash file) \/
     generateHash Marshal sha256 (Get file) = None /\ GetHash file = []) ->
    (GetPb file = None /\ Get file = definition \/
     exists m, GetPb file = Some m /\ m ∈ ms0 /\ DecodeNDF m = Some (Get file)) ->
    let file' := updates DecodeNDF Marshal sha256 file ms in
    (generateHash Marshal sha256 (Get file') = Some (GetHash file') \/
     generateHash Marshal sha256 (Get file') = None /\ GetHash file' = []) /\
    (GetPb file' = None /\ Get file' = definition \/
     exists m, GetPb file' = Some m /\ m ∈ ms0 ++ ms /\
               DecodeNDF m = Some (Get file'))) as Hstep.
  { clear. induction ms as [|m ms IH]; intros ms0 file Hh Hp; cbn [updates].
    - split; [done|]. rewrite app_nil_r. done.
    - replace (ms0 ++ m :: ms) with ((ms0 ++ [m]) ++ ms)
        by (by rewrite <- app_assoc).
      apply IH; unfold Update.
      + destruct (DecodeNDF m) as [decoded|]; [|done].
        destruct (generateHash Marshal sha256 decoded) eqn:Hd; cbn; auto.
      + destruct (DecodeNDF m) as [decoded|] eqn:Hm.
        * right. exists m. split.
          { by destruct (generateHash Marshal sha256 decoded). }
          split; [apply elem_of_app; right; left|].
          by destruct (generateHash Marshal sha256 decoded).
        * cbn. destruct Hp as [Hp|(m' & Hm' & Hin & Hdec)]; [by left|].
          right. exists m'. split; [done|]. split; [|done].
          apply elem_of_app. by left. }
  destruct Hinit as [Hh Hp]. destruct (Hstep [] file0 Hh Hp) as [Hh' Hp'].
  split; [done|]. split; [done|].
  intros h. unfold CompareHash. rewrite bool_decide_eq_true.
  unfold GetHash in *.
  destruct Hh' as [->|[-> ->]]; cbn; split; congruence.
Qed.

End NdfProperties.

(** * Host *)

Section HostProperties.

Import Host.

Local Open Scope Z_scope.

(** X24. The time allowed to a connection attempt is between 2 and 15
    seconds and never shrinks from one attempt to the next; it is 15
    exactly from the attempt of number 112 on, so that with the 100
    attempts of a host with time-outs no attempt gets more than 14
    seconds. *)
Theorem backoffTime_bounds (numRetries : Z) :
  0 <= numRetries ->
  2 <= backoffTime numRetries <= 15 /\
  (forall later, numRetries <= later ->
     backoffTime numRetries <= backoffTime later) /\
  (backoffTime numRetries = 15 <-> 112 <= numRetries) /\
  (numRetries < maxRetries false -> backoffTime numRetries <= 14).
Proof.
  intros Hn.
  assert (forall n, 0 <= n ->
            backoffTime n = if bool_decide (n < 112) then 2 * (n / 16 + 1) else 15)
    as Heq.
  { intros n Hpos. unfold backoffTime. rewrite Z.quot_div_nonneg by lia.
    pose proof (Z.div_mod n 16). pose proof (Z.mod_pos_bound n 16).
    repeat case_bool_decide; lia. }
  rewrite Heq by done. unfold maxRetries.
  pose proof (Z.div_mod numRetries 16). pose proof (Z.mod_pos_bound numRetries 16).
  split; [|split; [|split]].
  - case_bool_decide; lia.
  - intros later Hlater. rewrite Heq by lia.
    pose proof (Z.div_mod later 16). pose proof (Z.mod_pos_bound later 16).
    repeat case_bool_decide; lia.
  - case_bool_decide; lia.
  - intros Hlt. rewrite bool_decide_eq_true_2 by lia. lia.
Qed.

End HostProperties.

(** * The statements at concrete rounds, with the constants of primitives *)

Section Examples.

Import WaitingRounds.
#[local] Existing Instance xx_primitives.

(** Against C1 as stated: inserting the same QUEUED round twice leaves two
    entries with its id; the queue does not hold at most one entry per
    round id. *)
Lemma Insert_requeued_twice :
  InsertAll NewWaitingRounds [queuedAt 7 100; queuedAt 7 100] =
    Ok {| rounds := [queuedAt 7 100; queuedAt 7 100] |} /\
  entriesFor 7 {| rounds := [queuedAt 7 100; queuedAt 7 100] |} = 2%nat /\
  ~ NoDup (ids {| rounds := [queuedAt 7 100; queuedAt 7 100] |}).
Proof.
  split; [reflexivity|]. split; [reflexivity|].
  intros Hnd. apply NoDup_cons in Hnd as [Hnot _]. apply Hnot. by left.
Qed.

Lemma Insert_entries_per_id_witness :
  (noRequeue NewWaitingRounds [queuedAt 1 100; queuedAt 2 50] ->
   NoDup (ids {| rounds := [queuedAt 2 50; queuedAt 1 100] |})) /\
  (forall r wr',
     State r = QUEUED ->
     Insert {| rounds := [queuedAt 2 50; queuedAt 1 100] |} r = Ok wr' ->
     rounds wr' ≡ₚ r :: [queuedAt 2 50; queuedAt 1 100] /\
     entriesFor (ID r) wr' =
     S (entriesFor (ID r) {| rounds := [queuedAt 2 50; queuedAt 1 100] |})).
Proof.
  apply (Insert_entries_per_id [queuedAt 1 100; queuedAt 2 50]). reflexivity.
Defined.

Lemma GetSlice_ascending_witness :
  exists wr,
    InsertAll NewWaitingRounds [queuedAt 1 100; queuedAt 2 50; queuedAt 3 100] =
      Ok wr /\
    ascending (GetSlice wr).
Proof.
  apply GetSlice_ascending. intros r Hr _.
  repeat (apply elem_of_cons in Hr as [->|Hr]); [by eexists..|].
  by apply not_elem_of_nil in Hr.
Defined.

Lemma Insert_not_queued_removes_witness :
  ((7 ∉ ids {| rounds := [queuedAt 2 50; queuedAt 7 100] |}) ->
   Insert {| rounds := [queuedAt 2 50; queuedAt 7 100] |} (mkRoundInfo 7 4 []) =
   Ok {| rounds := [queuedAt 2 50; queuedAt 7 100] |}) /\
  ((7 ∈ ids {| rounds := [queuedAt 2 50; queuedAt 7 100] |}) ->
   exists wr' front e behind,
     Insert {| rounds := [queuedAt 2 50; queuedAt 7 100] |} (mkRoundInfo 7 4 []) =
       Ok wr' /\
     [queuedAt 2 50; queuedAt 7 100] = front ++ e :: behind /\ ID e = 7 /\
     (7 ∉ (ID <$> behind)) /\
     rounds wr' = front ++ behind /\
     S (Len wr') = 2%nat).
Proof.
  apply (Insert_not_queued_removes
           {| rounds := [queuedAt 2 50; queuedAt 7 100] |} (mkRoundInfo 7 4 [])).
  vm_compute. discriminate.
Defined.

(** Against C10 as stated: of two QUEUED rounds of the same timestamp, the
    one that arrives second is placed in front of the first, not after
    it. *)
Lemma Insert_tie_goes_in_front :
  Insert {| rounds := [queuedAt 1 100] |} (queuedAt 2 100) =
    Ok {| rounds := [queuedAt 2 100; queuedAt 1 100] |} /\
  getTime (queuedAt 1 100) = getTime (queuedAt 2 100).
Proof. split; reflexivity. Qed.

Lemma Insert_queued_position_witness :
  exists front behind,
    [queuedAt 1 100] = front ++ behind /\
    GetSlice {| rounds := [queuedAt 2 100; queuedAt 1 100] |} =
      front ++ queuedAt 2 100 :: behind /\
    Forall (fun e => timeLt e (queuedAt 2 100)) front /\
    Forall (fun e => timeLe (queuedAt 2 100) e) behind.
Proof.
  apply (Insert_queued_position {| rounds := [queuedAt 1 100] |}).
  - repeat constructor.
  - reflexivity.
  - reflexivity.
Defined.

(** Against C4 as stated: the timer fires while the signal of an Insert
    waits in [sig]; the select may take the timer case, and the call
    returns the timed-out error although a round is in the queue. *)
Lemma GetUpcomingRealtime_error_beside_round :
  run (GetUpcomingRealtime NewWaitingRounds 5)
      [CallerCheck; WaiterWait; InsertBy (queuedAt 1 100); WaiterSend;
       Tick 5; TimerFires; SelectTimer] =
    Some (mkCall {| rounds := [queuedAt 1 100] |}
                 (Returned None (Some timeOutError)) Exited true Drained 5 5) /\
  getFurthest {| rounds := [queuedAt 1 100] |} = Some (queuedAt 1 100).
Proof. split; reflexivity. Qed.

Lemma GetUpcomingRealtime_timed_out_witness :
  (rounds NewWaitingRounds = [] ->
   noInsert [CallerCheck; Tick 5; TimerFires; SelectTimer] ->
   (forall round err,
      Returned None (Some timeOutError) = Returned round err ->
      round = None /\ err = Some timeOutError) /\
   (exists tr' c',
      noInsert tr' /\
      run (mkCall NewWaitingRounds (Returned None (Some timeOutError))
                  Spawned false Drained 5 5) tr' = Some c' /\
      caller c' = Returned None (Some timeOutError))) /\
  (forall round err,
     Returned None (Some timeOutError) = Returned round (Some err) ->
     err = timeOutError /\ round = None /\ (5 <= 5)%Z /\
     forall tr1 tr2 c1,
       [CallerCheck; Tick 5; TimerFires; SelectTimer] =
         tr1 ++ CallerCheck :: tr2 ->
       run (GetUpcomingRealtime NewWaitingRounds 5) tr1 = Some c1 ->
       rounds (queue c1) = []).
Proof.
  apply (GetUpcomingRealtime_timed_out NewWaitingRounds 5
           [CallerCheck; Tick 5; TimerFires; SelectTimer]
           (mkCall NewWaitingRounds (Returned None (Some timeOutError))
                   Spawned false Drained 5 5)).
  reflexivity.
Defined.

Lemma GetUpcomingRealtime_furthest_witness :
  exists others round c',
    GetSlice {| rounds := [queuedAt 2 50; queuedAt 1 100] |} = others ++ [round] /\
    Forall (fun e => timeLe e round) others /\
    step (GetUpcomingRealtime {| rounds := [queuedAt 2 50; queuedAt 1 100] |} 5)
         CallerCheck = Some c' /\
    caller c' = Returned (Some round) None /\
    step (GetUpcomingRealtime {| rounds := [queuedAt 2 50; queuedAt 1 100] |} 5)
         SelectTimer = None /\
    step (GetUpcomingRealtime {| rounds := [queuedAt 2 50; queuedAt 1 100] |} 5)
         SelectSig = None.
Proof.
  apply (GetUpcomingRealtime_furthest [queuedAt 1 100; queuedAt 2 50]).
  - reflexivity.
  - discriminate.
Defined.

(** C6. A wake-up that is lost. The call finds the queue empty and blocks
    in its select; a QUEUED round is inserted, at time 0 of a timeout of 5,
    before the goroutine of the call has reached wr.c.Wait(): the
    broadcast wakes nobody, the goroutine then waits for a broadcast that
    does not come, and the call returns the timed-out error with the round
    in the queue. *)
Theorem GetUpcomingRealtime_lost_wakeup :
  run (GetUpcomingRealtime NewWaitingRounds 5)
      [CallerCheck; InsertBy (queuedAt 1 100); WaiterWait;
       Tick 5; TimerFires; SelectTimer] =
    Some (mkCall {| rounds := [queuedAt 1 100] |}
                 (Returned None (Some timeOutError)) Waiting false Drained 5 5).
Proof. reflexivity. Qed.


Lemma Insert_then_remove_witness :
  Insert {| rounds := [queuedAt 2 50; queuedAt 7 100] |} (mkRoundInfo 7 4 []) =
    Ok {| rounds := [queuedAt 2 50] |}.
Proof.
  apply (Insert_then_remove {| rounds := [queuedAt 2 50] |} (queuedAt 7 100)
           {| rounds := [queuedAt 2 50; queuedAt 7 100] |} (mkRoundInfo 7 4 [])).
  - reflexivity.
  - vm_compute. intros Hin. apply list_elem_of_singleton in Hin. discriminate.
  - reflexivity.
  - vm_compute. discriminate.
  - reflexivity.
Defined.

Lemma getFurthest_Insert_witness :
  (getFurthest {| rounds := [queuedAt 2 50] |} = None ->
   getFurthest {| rounds := [queuedAt 2 50; queuedAt 1 100] |} =
     Some (queuedAt 1 100)) /\
  (forall e, getFurthest {| rounds := [queuedAt 2 50] |} = Some e ->
     (timeLt e (queuedAt 1 100) ->
      getFurthest {| rounds := [queuedAt 2 50; queuedAt 1 100] |} =
        Some (queuedAt 1 100)) /\
     (timeLe (queuedAt 1 100) e ->
      getFurthest {| rounds := [queuedAt 2 50; queuedAt 1 100] |} = Some e)).
Proof.
  apply (getFurthest_Insert {| rounds := [queuedAt 2 50] |} (queuedAt 1 100)
           {| rounds := [queuedAt 2 50; queuedAt 1 100] |}).
  - reflexivity.
  - reflexivity.
Defined.

Lemma Insert_keeps_others_witness :
  (State (mkRoundInfo 7 4 []) = QUEUED ->
   [queuedAt 2 50; queuedAt 7 100] `sublist_of` [queuedAt 2 50] /\
   Len {| rounds := [queuedAt 2 50] |} =
     S (Len {| rounds := [queuedAt 2 50; queuedAt 7 100] |})) /\
  (State (mkRoundInfo 7 4 []) <> QUEUED ->
   [queuedAt 2 50] `sublist_of` [queuedAt 2 50; queuedAt 7 100] /\
   filter (fun e => ID e <> ID (mkRoundInfo 7 4 [])) [queuedAt 2 50] =
   filter (fun e => ID e <> ID (mkRoundInfo 7 4 []))
     [queuedAt 2 50; queuedAt 7 100]).
Proof.
  apply (Insert_keeps_others {| rounds := [queuedAt 2 50; queuedAt 7 100] |}
           (mkRoundInfo 7 4 []) {| rounds := [queuedAt 2 50] |}).
  reflexivity.
Defined.

Lemma untimed_entry_alone_witness :
  (allTimed [mkRoundInfo 1 3 []] \/ exists e, [mkRoundInfo 1 3 []] = [e]) /\
  (forall e r, [mkRoundInfo 1 3 []] = [e] -> getTime e = Panic ->
     State r = QUEUED -> Insert {| rounds := [mkRoundInfo 1 3 []] |} r = Panic).
Proof.
  apply (untimed_entry_alone [mkRoundInfo 1 3 []]
           {| rounds := [mkRoundInfo 1 3 []] |}).
  reflexivity.
Defined.

Lemma GetUpcomingRealtime_one_signal_witness :
  (countOf isSelectSig
     [CallerCheck; WaiterWait; InsertBy (queuedAt 1 100); WaiterSend;
      SelectSig; CallerCheck] <= 1)%nat /\
  (countOf isCallerCheck
     [CallerCheck; WaiterWait; InsertBy (queuedAt 1 100); WaiterSend;
      SelectSig; CallerCheck] <= 2)%nat.
Proof.
  apply (GetUpcomingRealtime_one_signal NewWaitingRounds 5
           [CallerCheck; WaiterWait; InsertBy (queuedAt 1 100); WaiterSend;
            SelectSig; CallerCheck]
           (mkCall {| rounds := [queuedAt 1 100] |}
                   (Returned (Some (queuedAt 1 100)) None) Exited false Armed
                   5 0)).
  reflexivity.
Defined.

Lemma GetUpcomingRealtime_returns_witness :
  (Some (queuedAt 1 100) = None /\ @None string = Some timeOutError) \/
  (@None string = None /\ exists r tr1 tr2 c1,
     Some (queuedAt 1 100) = Some r /\
     [CallerCheck; WaiterWait; InsertBy (queuedAt 1 100); WaiterSend;
      SelectSig; CallerCheck] = tr1 ++ CallerCheck :: tr2 /\
     run (GetUpcomingRealtime NewWaitingRounds 5) tr1 = Some c1 /\
     getFurthest (queue c1) = Some r).
Proof.
  apply (GetUpcomingRealtime_returns NewWaitingRounds 5
           [CallerCheck; WaiterWait; InsertBy (queuedAt 1 100); WaiterSend;
            SelectSig; CallerCheck]
           (mkCall {| rounds := [queuedAt 1 100] |}
                   (Returned (Some (queuedAt 1 100)) None) Exited false Armed
                   5 0)).
  - reflexivity.
  - reflexivity.
Defined.

Lemma GetUpcomingRealtime_woken_witness :
  exists c' round,
    run (mkCall NewWaitingRounds AtSelect Waiting false Armed 5 0)
        [InsertBy (queuedAt 1 100); WaiterSend; SelectSig; CallerCheck] =
      Some c' /\
    getFurthest {| rounds := [queuedAt 1 100] |} = Some round /\
    caller c' = Returned (Some round) None.
Proof.
  apply (GetUpcomingRealtime_woken
           (mkCall NewWaitingRounds AtSelect Waiting false Armed 5 0)
           (queuedAt 1 100) {| rounds := [queuedAt 1 100] |});
    reflexivity.
Defined.

End Examples.

Section DispatcherExamples.

Import RoundEvents.
#[local] Existing Instance xx_primitives.

Lemma subscribe10_run : run initial subscribe10 = Ok (subscribed 0).
Proof. vm_compute. reflexivity. Qed.


Lemma subscribe10_wait_run :
  run initial (subscribe10 ++ [Tick 50]) = Ok (subscribed 50).
Proof. vm_compute. reflexivity. Qed.

Lemma AddRoundEvent_timeout_witness :
  step (subscribed 50) (WaiterSignal 0) = Blocked /\
  exists st1,
    step (subscribed 50) (WaiterTimeout 0) = Ok st1 /\
    calls st1 =
      calls (subscribed 50) ++ [mkInvocation 0 1 (mkRoundInfo 10 0 []) true] /\
    callsOf 0 st1 = [mkInvocation 0 1 (mkRoundInfo 10 0 []) true] /\
    (forall tr' st', run st1 tr' = Ok st' ->
       callsOf 0 st' = [mkInvocation 0 1 (mkRoundInfo 10 0 []) true]) /\
    removing st1 = removing (subscribed 50) ++ [(10, event0)] /\
    ((forall rid, (rid, event0) ∉ adding (subscribed 50)) ->
     forall tr' st' i,
       run st1 tr' = Ok st' ->
       removing st' !! i = Some (10, event0) ->
       exists st2,
         step st' (RunRemove i) = Ok st2 /\
         unregistered (r st2) event0 /\
         forall tr2 st3, run st2 tr2 = Ok st3 -> unregistered (r st3) event0).
Proof.
  apply (AddRoundEvent_timeout (subscribe10 ++ [Tick 50]) (subscribed 50) 0%nat
           (waiter0 false) subscribe10_wait_run).
  - vm_compute. reflexivity.
  - reflexivity.
  - vm_compute. reflexivity.
  - vm_compute. discriminate.
Defined.

Lemma subscribe10_timeout_run :
  run initial (subscribe10 ++ [Tick 50; WaiterTimeout 0]) = Ok timedOut.
Proof. vm_compute. reflexivity. Qed.

Lemma remove_prunes_round_witness :
  (forall i rid e,
     removing timedOut !! i = Some (rid, e) ->
     (forall st', step timedOut (RunRemove i) = Ok st' ->
        pruned (r st') rid /\
        ((forall s x, ~ registered (r st') rid s x) ->
         callbacks (r st') !! rid = None)) /\
     ((forall rid', (rid', e) ∉ adding timedOut) ->
      exists st', step timedOut (RunRemove i) = Ok st')) /\
  (forall ri,
     (forall e st',
        registered (r timedOut) (ID ri) (N.to_nat (State ri)) e ->
        step timedOut (Trigger ri) = Ok st' ->
        pruned (r st') (ID ri) /\
        ((forall s x, ~ registered (r st') (ID ri) s x) ->
         callbacks (r st') !! ID ri = None)) /\
     ((N.to_nat (State ri) < NUM_STATES)%nat ->
      exists st', step timedOut (Trigger ri) = Ok st')).
Proof.
  apply (remove_prunes_round (subscribe10 ++ [Tick 50; WaiterTimeout 0]) timedOut).
  apply subscribe10_timeout_run.
Defined.

(** The removal of the example, run: the registry has no entry left. *)
Lemma timedOut_removed :
  step timedOut (RunRemove 0) =
  Ok (mkSystem (mkRoundEvents ∅) ∅ {[ 0%nat := waiter0 true ]} [] []
        [mkInvocation 0 1 (mkRoundInfo 10 0 []) true] 1 50).
Proof. vm_compute. reflexivity. Qed.

(** C8. A timeout that leaves the subscription in the registry.
    AddRoundEvent(10, callback 1, timeout 0, QUEUED) on a new registry
    starts the goroutine at line 67, before it takes the lock at line 78.
    The goroutine times out and calls the callback with timedOut=true, and
    the Remove it starts runs and finds nothing to remove; only then does
    AddRoundEvent register the event, at lines 78-92. In the state
    reached the callback has been called once, with timedOut=true and a
    round info of which only the id is set; the goroutine has finished and
    no Remove is pending or can be started by it; and the event is
    registered for round 10 under QUEUED: the subscription has timed out
    and has not been removed. *)
Theorem Remove_before_registration :
  run initial [Start 10 1 0 [3%nat]; WaiterTimeout 0; RunRemove 0; Register 0] =
    Ok registeredLate /\
  calls registeredLate = [mkInvocation 0 1 (mkRoundInfo 10 0 []) true] /\
  waiters registeredLate !! 0%nat = Some (mkWaiter 10 1 event0 0 true) /\
  registered (r registeredLate) 10 3 event0 /\
  adding registeredLate = [] /\ removing registeredLate = [] /\
  (forall i, step registeredLate (RunRemove i) = Blocked) /\
  step registeredLate (WaiterTimeout 0) = Blocked /\
  step registeredLate (WaiterSignal 0) = Blocked.
Proof.
  split; [vm_compute; reflexivity|].
  split; [reflexivity|]. split; [reflexivity|]. split; [reflexivity|].
  split; [reflexivity|]. split; [reflexivity|].
  split; [|split; reflexivity].
  intros i. by destruct i.
Qed.


Lemma TriggerRoundEvent_panics_witness :
  (step (subscribed 0) (Trigger (mkRoundInfo 10 9 [])) = Panic <->
   (NUM_STATES <= N.to_nat (State (mkRoundInfo 10 9 [])))%nat /\
   is_Some (callbacks (r (subscribed 0)) !! ID (mkRoundInfo 10 9 []))) /\
  (callbacks (r (subscribed 0)) !! ID (mkRoundInfo 10 9 []) = None ->
   step (subscribed 0) (Trigger (mkRoundInfo 10 9 [])) = Ok (subscribed 0)).
Proof.
  apply (TriggerRoundEvent_panics subscribe10 (subscribed 0)
           (mkRoundInfo 10 9 []) subscribe10_run).
Defined.

Lemma AddRoundEvent_panics_witness :
  AddRoundEvent (subscribed 0) 11 2 50 [3%nat; 9%nat] <> Blocked /\
  (AddRoundEvent (subscribed 0) 11 2 50 [3%nat; 9%nat] = Panic <->
   exists s, s ∈ [3%nat; 9%nat] /\ (NUM_STATES <= s)%nat) /\
  is_Some (waiters (start (subscribed 0) 11 2 50 [3%nat; 9%nat])
             !! next (subscribed 0)) /\
  r (start (subscribed 0) 11 2 50 [3%nat; 9%nat]) = r (subscribed 0).
Proof.
  apply (AddRoundEvent_panics subscribe10 (subscribed 0) 11 2 50
           [3%nat; 9%nat] subscribe10_run).
Defined.

Lemma AddRoundEvent_no_states_witness :
  exists st' e,
    AddRoundEvent (subscribed 0) 11 2 50 [] = Ok (st', e) /\
    callbacks (r st') !! 11 = Some zeroArray /\
    ~ pruned (r st') 11 /\
    (forall ri, ID ri = 11 -> (N.to_nat (State ri) < NUM_STATES)%nat ->
       step st' (Trigger ri) = Ok st').
Proof.
  apply (AddRoundEvent_no_states subscribe10 (subscribed 0) 11 2 50
           subscribe10_run).
  vm_compute. reflexivity.
Defined.

Lemma callbacks_as_subscribed_witness :
  (forall a ri, chans timedOut !! a = Some ri ->
     exists w, waiters timedOut !! a = Some w /\
       ID ri = w_rid w /\ N.to_nat (State ri) ∈ states (w_event w)) /\
  (forall c, c ∈ calls timedOut ->
     exists w, waiters timedOut !! by_event c = Some w /\
       callee c = w_callback w /\
       (arg_timedOut c = true -> arg_ri c = mkRoundInfo (w_rid w) 0 []) /\
       (arg_timedOut c = false ->
        ID (arg_ri c) = w_rid w /\
        N.to_nat (State (arg_ri c)) ∈ states (w_event w))).
Proof.
  apply (callbacks_as_subscribed (subscribe10 ++ [Tick 50; WaiterTimeout 0])
           timedOut subscribe10_timeout_run).
Defined.

Lemma TriggerRoundEvent_frame_witness :
  registered (r (subscribed 0)) 10 3 event0 /\
  chans (subscribed 0) !! addr event0 = None.
Proof.
  apply (TriggerRoundEvent_frame subscribe10 (subscribed 0)
           (mkRoundInfo 10 4 []) (subscribed 0) 10 3%nat event0
           subscribe10_run).
  - vm_compute. reflexivity.
  - vm_compute. reflexivity.
  - vm_compute. discriminate.
Defined.

Lemma callback_exactly_once_witness :
  (w_done (waiter0 false) = true ->
   exists c, callsOf 0 (subscribed 0) = [c] /\
     callee c = w_callback (waiter0 false) /\
     forall tr' st', run (subscribed 0) tr' = Ok st' -> callsOf 0 st' = [c]) /\
  (w_done (waiter0 false) = false ->
   callsOf 0 (subscribed 0) = [] /\
   exists st',
     run (subscribed 0)
         [Tick (Z.max 0 (w_deadline (waiter0 false) - now (subscribed 0)));
          WaiterTimeout 0] = Ok st' /\
     callsOf 0 st' =
       [mkInvocation 0 (w_callback (waiter0 false))
          (mkRoundInfo (w_rid (waiter0 false)) 0 []) true]).
Proof.
  apply (callback_exactly_once subscribe10 (subscribed 0) 0%nat (waiter0 false)
           subscribe10_run).
  vm_compute. reflexivity.
Defined.

Lemma remove_idempotent_witness :
  remove (mkRoundEvents ∅) 10 event0 = Ok (mkRoundEvents ∅).
Proof.
  apply (remove_idempotent (r (subscribed 0)) 10 event0 (mkRoundEvents ∅)).
  - exact (inv_wf _ (reachable_invariant _ _ subscribe10_run)).
  - vm_compute. reflexivity.
Defined.

End DispatcherExamples.

Section FurtherExamples.

Import Circuit.

Local Open Scope Z_scope.

Lemma circuit3_New : New [Some 5; Some 6; Some 7]%nat = Ok circuit3.
Proof. vm_compute. reflexivity. Qed.

Lemma GetNodeLocation_GetNodeAtIndex_witness :
  (forall n, GetNodeLocation circuit3 n = -1 <-> n ∉ nodes circuit3) /\
  (forall n, n ∈ nodes circuit3 ->
     0 <= GetNodeLocation circuit3 n < Len circuit3 /\
     GetNodeAtIndex circuit3 (GetNodeLocation circuit3 n) = Ok n) /\
  (forall i n, GetNodeAtIndex circuit3 i = Ok n ->
     GetNodeLocation circuit3 n = i) /\
  (forall i, GetNodeAtIndex circuit3 i = Panic <-> i < 0 \/ Len circuit3 <= i).
Proof.
  apply (GetNodeLocation_GetNodeAtIndex circuit3).
  exact (proj2 (proj2 (New_Ok _ _ circuit3_New))).
Defined.

Lemma GetNextNode_GetPrevNode_witness :
  (7%nat ∈ nodes circuit3 ->
   exists m p, GetNextNode circuit3 7%nat = Ok m /\
               GetPrevNode circuit3 m = Ok 7%nat /\
               GetPrevNode circuit3 7%nat = Ok p /\
               GetNextNode circuit3 p = Ok 7%nat /\
               m ∈ nodes circuit3 /\ p ∈ nodes circuit3) /\
  ((7%nat ∉ nodes circuit3) ->
   GetNextNode circuit3 7%nat = Panic /\ GetPrevNode circuit3 7%nat = Panic).
Proof.
  apply (GetNextNode_GetPrevNode circuit3 7%nat).
  exact (proj2 (proj2 (New_Ok _ _ circuit3_New))).
Defined.

Lemma IsFirstNode_IsLastNode_witness :
  (IsFirstNode circuit3 7%nat = true <-> head (nodes circuit3) = Some 7%nat) /\
  (IsLastNode circuit3 7%nat = true <-> last (nodes circuit3) = Some 7%nat) /\
  (IsLastNode circuit3 7%nat = true ->
   exists m, GetNextNode circuit3 7%nat = Ok m /\ IsFirstNode circuit3 m = true) /\
  (IsFirstNode circuit3 7%nat = true ->
   exists p, GetPrevNode circuit3 7%nat = Ok p /\ IsLastNode circuit3 p = true).
Proof.
  apply (IsFirstNode_IsLastNode circuit3 7%nat).
  exact (proj2 (proj2 (New_Ok _ _ circuit3_New))).
Defined.

Lemma GetOrdering_rotations_witness :
  exists cs, GetOrdering circuit3 = Ok cs /\
    length cs = length (nodes circuit3) /\
    forall (i : nat) ci, cs !! i = Some ci ->
      nodes ci = drop i (nodes circuit3) ++ take i (nodes circuit3) /\
      hosts ci = [] /\ wellFormed ci /\
      forall j, 0 <= j < Len circuit3 ->
        GetNodeAtIndex ci j =
        GetNodeAtIndex circuit3 ((Z.of_nat i + j) `mod` Len circuit3).
Proof.
  apply (GetOrdering_rotations circuit3).
  exact (proj2 (proj2 (New_Ok _ _ circuit3_New))).
Defined.

Lemma shiftLeft_slices_witness :
  exists h' res,
    shiftLeftH (fun _ needed => needed)
      [[Some 5; Some 6; Some 7; None]]%nat (mkSlice 0 0 3) 1 = Ok (h', res) /\
    view h' res = [Some 6; Some 7; Some 5]%nat /\ valid h' res /\
    untouched [[Some 5; Some 6; Some 7; None]]%nat h' (mkSlice 0 0 3) /\
    valid h' (mkSlice 0 0 3) /\
    view h' (mkSlice 0 0 3) =
      view [[Some 5; Some 6; Some 7; None]]%nat (mkSlice 0 0 3).
Proof.
  apply (proj2 (proj2 (shiftLeft_slices (fun _ needed => needed)
                         [[Some 5; Some 6; Some 7; None]]%nat (mkSlice 0 0 3) 1
                         (conj (Nat.lt_0_succ 0) (Nat.le_succ_diag_r 3)))) ).
  reflexivity.
Defined.

Lemma Update_keeps_hash_witness :
  (Ndf.generateHash marshalExample sumExample (Ndf.Get updatedExample) =
     Some (Ndf.GetHash updatedExample) \/
   Ndf.generateHash marshalExample sumExample (Ndf.Get updatedExample) = None /\
   Ndf.GetHash updatedExample = []) /\
  (Ndf.GetPb updatedExample = None /\ Ndf.Get updatedExample = 2%nat \/
   exists m, Ndf.GetPb updatedExample = Some m /\ m ∈ [3; 0; 1]%nat /\
             decodeExample m = Some (Ndf.Get updatedExample)) /\
  (forall h, Ndf.CompareHash updatedExample h = true <->
     h = default [] (Ndf.generateHash marshalExample sumExample
                       (Ndf.Get updatedExample))).
Proof.
  apply (Update_keeps_hash decodeExample marshalExample sumExample 2%nat
           (Ndf.mkNdf 2%nat None [Byte.xff; Byte.x01; Byte.x01])
           [3; 0; 1]%nat).
  reflexivity.
Defined.

Lemma backoffTime_bounds_witness :
  2 <= Host.backoffTime 99 <= 15 /\
  (forall later, 99 <= later ->
     Host.backoffTime 99 <= Host.backoffTime later) /\
  (Host.backoffTime 99 = 15 <-> 112 <= 99) /\
  (99 < Host.maxRetries false -> Host.backoffTime 99 <= 14).
Proof.
  apply (backoffTime_bounds 99). lia.
Defined.

End FurtherExamples.
